(** * Format-preserving TOML patch engine of web-cfg (main.ts)

    A shallow embedding of the patch engine of [src/web-cfg/main.ts]
    (the same functions appear in [toml_file_manipulator.ts]):
    the relaxed-input normalizer inside [readTomlFile], [quoteTomlString],
    [valueToTomlScalar], [patchScalarInSection], [walkPatch], [toToml] and
    the save decision of [handleSave].

    JavaScript strings are sequences of UTF-16 code units; a code unit is
    modelled as an [N] and a string as a list of code units.  The regular
    expression literals of the source are written as syntax trees and run
    by a backtracking matcher with the priorities of the JavaScript one
    (greedy and lazy repetition, ordered alternatives, capture groups).

    What the source takes from its runtime and from the TOML library is a
    parameter of the engine: the pattern that [new RegExp] builds from a
    key (or its SyntaxError), [Number.isFinite] and [String] on numbers,
    [toml.parse] (or its exception) and [toml.stringify].

    Around the engine, the file also embeds [escapeHtml], [inputName]
    and the [pathToArray] of the edit page, [parseArgs] and [checkAuth],
    and the path checks and target choice of the handlers
    ([ensureInsideRoot], [pickSourceFile], [handleEdit], [handleSave]),
    with [atob], [path.resolve], [path.join] and the file system as
    parameters. *)

From Stdlib Require Import List NArith ZArith Bool Ascii String Lia Arith.
From Stdlib Require Import DecimalString.
Import ListNotations.

Set Implicit Arguments.

(** ** Code units and strings *)

Definition char := N.
Definition str := list char.

(** An ASCII literal as a JavaScript string. *)
Definition u (s : string) : str := map N_of_ascii (list_ascii_of_string s).

Definition str_eqb (a b : str) : bool :=
  if list_eq_dec N.eq_dec a b then true else false.

Definition LF : char := 10%N.
Definition CR : char := 13%N.
Definition DQUOTE : char := 34%N.
Definition HASH : char := 35%N.
Definition SQUOTE : char := 39%N.
Definition DOT : char := 46%N.
Definition EQUALS : char := 61%N.
Definition LBRACKET : char := 91%N.
Definition BACKSLASH : char := 92%N.
Definition RBRACKET : char := 93%N.
Definition LBRACE : char := 123%N.

Module CharClass.

Local Open Scope N_scope.

Definition isChar (c : char) : char -> bool := N.eqb c.
Definition notChar (c : char) : char -> bool := fun x => negb (N.eqb c x).

Definition oneOf (cs : str) : char -> bool :=
  fun x => existsb (N.eqb x) cs.
Definition noneOf (cs : str) : char -> bool :=
  fun x => negb (oneOf cs x).

(** LineTerminator: LF, CR, U+2028, U+2029. *)
Definition isLineTerminator (c : char) : bool :=
  (c =? 10) || (c =? 13) || (c =? 8232) || (c =? 8233).

(** [\s] of a regular expression, which is also what [trim] removes:
    WhiteSpace and LineTerminator. *)
Definition isSpace (c : char) : bool :=
  (c =? 9) || (c =? 10) || (c =? 11) || (c =? 12) || (c =? 13) ||
  (c =? 32) || (c =? 160) || (c =? 5760) ||
  ((8192 <=? c) && (c <=? 8202)) ||
  (c =? 8232) || (c =? 8233) || (c =? 8239) || (c =? 8287) ||
  (c =? 12288) || (c =? 65279).

(** [.] without the [s] flag. *)
Definition isDot (c : char) : bool := negb (isLineTerminator c).

(** [\d] *)
Definition isDigit (c : char) : bool := (48 <=? c) && (c <=? 57).

(** a letter under the [i] flag: the letter itself or its other case
    (only ASCII letters occur in the patterns of the source). *)
Definition isLetterI (c : char) : char -> bool :=
  fun x => (x =? c) ||
           ((97 <=? c) && (c <=? 122) && (x =? c - 32)) ||
           ((65 <=? c) && (c <=? 90) && (x =? c + 32)).

End CharClass.
Import CharClass.

(** ** Regular expressions *)

Module Regex.

(** The constructs used by the patterns of the source.  Repetition is
    only ever applied to a single character class there. *)
Inductive re : Type :=
| Eps
| Cls (p : char -> bool)
| Seq (a b : re)
| Alt (a b : re)
| Opt (a : re)
| StarG (p : char -> bool)
| StarL (p : char -> bool)
| Grp (n : nat) (a : re).

Definition caps := list (nat * str).

Fixpoint getcap (n : nat) (c : caps) : option str :=
  match c with
  | [] => None
  | (m, v) :: c' => if Nat.eqb n m then Some v else getcap n c'
  end.

(** [x*] greedy: one more [x] first, the continuation second. *)
Fixpoint starG (p : char -> bool) (s : str) (k : str -> option caps)
  : option caps :=
  match s with
  | x :: s' =>
      if p x then
        match starG p s' k with
        | Some r => Some r
        | None => k s
        end
      else k s
  | [] => k s
  end.

(** [x*?] lazy: the continuation first, one more [x] second. *)
Fixpoint starL (p : char -> bool) (s : str) (k : str -> option caps)
  : option caps :=
  match k s with
  | Some r => Some r
  | None =>
      match s with
      | x :: s' => if p x then starL p s' k else None
      | [] => None
      end
  end.

(** Backtracking matcher in continuation-passing style: [k] receives the
    rest of the input and the captures so far. *)
Fixpoint rmatch (r : re) (s : str) (c : caps)
         (k : str -> caps -> option caps) : option caps :=
  match r with
  | Eps => k s c
  | Cls p =>
      match s with
      | x :: s' => if p x then k s' c else None
      | [] => None
      end
  | Seq a b => rmatch a s c (fun s' c' => rmatch b s' c' k)
  | Alt a b =>
      match rmatch a s c k with
      | Some r => Some r
      | None => rmatch b s c k
      end
  | Opt a =>
      match rmatch a s c k with
      | Some r => Some r
      | None => k s c
      end
  | StarG p => starG p s (fun s' => k s' c)
  | StarL p => starL p s (fun s' => k s' c)
  | Grp n a =>
      rmatch a s c
        (fun s' c' => k s' ((n, firstn (List.length s - List.length s') s) :: c'))
  end.

(** A pattern of the shape [^ r $] without flags [g], [m]: the whole
    input has to be matched, starting at its first code unit. *)
Definition atEnd (s' : str) (c : caps) : option caps :=
  match s' with
  | [] => Some c
  | _ :: _ => None
  end.

Definition exec (r : re) (s : str) : option caps := rmatch r s [] atEnd.

Definition test (r : re) (s : str) : bool :=
  match exec r s with Some _ => true | None => false end.

(** A literal text. *)
Fixpoint lit (w : str) : re :=
  match w with
  | [] => Eps
  | x :: w' => Seq (Cls (isChar x)) (lit w')
  end.

(** A literal text under the [i] flag. *)
Fixpoint litI (w : str) : re :=
  match w with
  | [] => Eps
  | x :: w' => Seq (Cls (isLetterI x)) (litI w')
  end.

(** [r{n}] *)
Fixpoint rep (n : nat) (r : re) : re :=
  match n with
  | O => Eps
  | S n' => Seq r (rep n' r)
  end.

(** [r{0,n}], greedy. *)
Fixpoint upto (n : nat) (r : re) : re :=
  match n with
  | O => Eps
  | S n' => Opt (Seq r (upto n' r))
  end.

End Regex.
Import Regex.

Declare Scope re_scope.
Delimit Scope re_scope with re.
Bind Scope re_scope with re.
Notation "a ;; b" := (Seq a b) (at level 61, right associativity) : re_scope.

(** ** Lines *)

(** [text.split(/\r?\n/)] *)
Definition consHead (c : char) (ls : list str) : list str :=
  match ls with
  | l :: ls' => (c :: l) :: ls'
  | [] => [[c]]
  end.

Fixpoint splitLines (s : str) : list str :=
  match s with
  | [] => [[]]
  | c :: rest =>
      if N.eqb c LF then [] :: splitLines rest
      else
        match rest with
        | d :: rest' =>
            if N.eqb c CR && N.eqb d LF then [] :: splitLines rest'
            else consHead c (splitLines rest)
        | [] => consHead c (splitLines rest)
        end
  end.

(** [lines.join("\n")] *)
Fixpoint joinLF (ls : list str) : str :=
  match ls with
  | [] => []
  | [l] => l
  | l :: ls' => l ++ LF :: joinLF ls'
  end.

(** [sectionPath.join(".")] *)
Fixpoint joinDot (ls : list str) : str :=
  match ls with
  | [] => []
  | [l] => l
  | l :: ls' => l ++ DOT :: joinDot ls'
  end.

(** [String.prototype.trim] *)
Fixpoint trimStart (s : str) : str :=
  match s with
  | c :: s' => if isSpace c then trimStart s' else s
  | [] => []
  end.

Definition trimEnd (s : str) : str := rev (trimStart (rev s)).
Definition trim (s : str) : str := trimEnd (trimStart s).

Definition startsWith (c : char) (s : str) : bool :=
  match s with
  | x :: _ => N.eqb x c
  | [] => false
  end.

(** [s.replace(/c/g, by)] for a one-character pattern. *)
Definition replaceAll (c : char) (by_ : str) (s : str) : str :=
  flat_map (fun x => if N.eqb x c then by_ else [x]) s.

(** ** The patterns of the source *)

Module Pat.

Definition notHashNorSpace (x : char) : bool :=
  negb (N.eqb x HASH) && negb (isSpace x).
Definition notEqNorSpace (x : char) : bool :=
  negb (N.eqb x EQUALS) && negb (isSpace x).
Definition valueStart : char -> bool :=
  noneOf [HASH; DQUOTE; SQUOTE; LBRACKET; LBRACE; HASH].
Definition isSign : char -> bool := oneOf (u "+-").
Definition isDigitOrUnderscore (x : char) : bool :=
  isDigit x || N.eqb x 95%N.

(** The patterns are quoted token by token, with blanks in between and
    the double quote written \x22.

    [sectionHeaderRe] of [patchScalarInSection]:
    ^ \s* \[ ( [^\]]+ ) \] \s* $ *)
Definition sectionHeaderRe : re :=
  (StarG isSpace ;; Cls (isChar LBRACKET) ;;
   Grp 1 (Cls (notChar RBRACKET) ;; StarG (notChar RBRACKET)) ;;
   Cls (isChar RBRACKET) ;; StarG isSpace)%re.

(** [sectionHeaderRe] of [readTomlFile]:  ^ \s* \[ [^\]]+ \] \s* $ *)
Definition sectionHeaderTestRe : re :=
  (StarG isSpace ;; Cls (isChar LBRACKET) ;;
   Cls (notChar RBRACKET) ;; StarG (notChar RBRACKET) ;;
   Cls (isChar RBRACKET) ;; StarG isSpace)%re.

(** [assignRe]:
    ^ ( \s* [^#\s] [^=]*? [^=\s] \s* = \s* ) ( [^#\x22'\[\{#] [^#]*? )
      ( \s* ( # .* )? ) $ *)
Definition assignRe : re :=
  (Grp 1 (StarG isSpace ;; Cls notHashNorSpace ;; StarL (notChar EQUALS) ;;
          Cls notEqNorSpace ;; StarG isSpace ;; Cls (isChar EQUALS) ;;
          StarG isSpace) ;;
   Grp 2 (Cls valueStart ;; StarL (notChar HASH)) ;;
   Grp 3 (StarG isSpace ;; Opt (Grp 4 (Cls (isChar HASH) ;; StarG isDot))))%re.

(** ^ ( true | false ) $  with flag i *)
Definition booleanRe : re :=
  Grp 1 (Alt (litI (u "true")) (litI (u "false"))).

(** ^ [+-]? \d [\d_]* ( \. \d [\d_]* )? ( [eE] [+-]? \d+ )? $ *)
Definition numberRe : re :=
  (Opt (Cls isSign) ;; Cls isDigit ;; StarG isDigitOrUnderscore ;;
   Opt (Grp 1 (Cls (isChar DOT) ;; Cls isDigit ;; StarG isDigitOrUnderscore)) ;;
   Opt (Grp 2 (Cls (oneOf (u "eE")) ;; Opt (Cls isSign) ;;
               Cls isDigit ;; StarG isDigit)))%re.

(** ^ \d{4} - \d{2} - \d{2}
      (?: [ tT] \d{2} : \d{2} (?: : \d{2} (?: \. \d{1,6} )? )?
          (?: Z | [+-] \d{2} : \d{2} )? )? $ *)
Definition dateTimeRe : re :=
  (rep 4 (Cls isDigit) ;; lit (u "-") ;; rep 2 (Cls isDigit) ;;
   lit (u "-") ;; rep 2 (Cls isDigit) ;;
   Opt (Cls (oneOf (u " tT")) ;; rep 2 (Cls isDigit) ;; lit (u ":") ;;
        rep 2 (Cls isDigit) ;;
        Opt (lit (u ":") ;; rep 2 (Cls isDigit) ;;
             Opt (lit (u ".") ;; Cls isDigit ;; upto 5 (Cls isDigit))) ;;
        Opt (Alt (lit (u "Z"))
                 (Cls isSign ;; rep 2 (Cls isDigit) ;; lit (u ":") ;;
                  rep 2 (Cls isDigit)))))%re.

(** SyntaxCharacter: the characters that are syntax in a pattern. *)
Definition isSyntaxChar : char -> bool := oneOf (u "\^$.*+?()[]{}|").

(** A text that stands for itself in a pattern. *)
Definition plainKey (key : str) : bool :=
  forallb (fun c => negb (isSyntaxChar c)) key.

(** [keyRe] for a key that stands for itself:
    ^ ( \s* ) ( key ) \s* = \s* ( [^#]* ) ( \s* ( # .* )? ) $ *)
Definition keyRe (key : str) : re :=
  (Grp 1 (StarG isSpace) ;; Grp 2 (lit key) ;; StarG isSpace ;;
   Cls (isChar EQUALS) ;; StarG isSpace ;; Grp 3 (StarG (notChar HASH)) ;;
   Grp 4 (StarG isSpace ;; Opt (Grp 5 (Cls (isChar HASH) ;; StarG isDot))))%re.

(** The class at the head of the pattern of the [replace] call on the
    key: . * + ? ^ $ { } ( ) | [ and the backslash. *)
Definition inEscapeClass : char -> bool := oneOf (u "\.*+?^${}()|[").

End Pat.
Import Pat.

(** [m[n]], the empty string when the group took no part. *)
Definition cap (n : nat) (m : caps) : str :=
  match getcap n m with
  | Some v => v
  | None => []
  end.

(** ** Relaxed lexical normalizer ([readTomlFile], the [relaxed] text) *)

Definition looksLikeBareString (v : str) : bool :=
  let trimmed := trim v in
  if startsWith DQUOTE trimmed || startsWith SQUOTE trimmed then false
  else if startsWith LBRACKET trimmed || startsWith LBRACE trimmed then false
  else if test booleanRe trimmed then false
  else if test numberRe trimmed then false
  else if test dateTimeRe trimmed then false
  else if Nat.eqb (List.length trimmed) 0 then false
  else true.

(** The body of the [lines.map] callback. *)
Definition relaxLine (line : str) : str :=
  if test sectionHeaderTestRe line then line
  else
    match exec assignRe line with
    | None => line
    | Some m =>
        let lhs := cap 1 m in
        let rawVal := cap 2 m in
        let tail := cap 3 m in
        if negb (looksLikeBareString rawVal) then line
        else
          let quoted :=
            DQUOTE ::
            replaceAll DQUOTE [BACKSLASH; DQUOTE]
              (replaceAll BACKSLASH [BACKSLASH; BACKSLASH] (trim rawVal))
            ++ [DQUOTE] in
          lhs ++ quoted ++ tail
    end.

Definition relaxed (text : str) : str :=
  joinLF (map relaxLine (splitLines text)).

(** ** Scalar literal serializer, string part *)

Definition quoteTomlString (s : str) : str :=
  DQUOTE ::
  replaceAll DQUOTE [BACKSLASH; DQUOTE]
    (replaceAll BACKSLASH [BACKSLASH; BACKSLASH] s)
  ++ [DQUOTE].

(** ** Section-scoped line patcher *)

Record PatchResult : Type := mkPatchResult { ptext : str; patched : bool }.

(** [key.replace(/[.*+?^${}()|[\\]\\\\]/g, "\\$&")], the call that is to
    escape the key.  Its pattern is the class above followed by two
    backslashes and a closing bracket, so only such four characters are
    replaced (by a backslash and themselves); other keys come back as
    they are. *)
Fixpoint escapeKey (key : str) : str :=
  match key with
  | [] => []
  | c :: rest =>
      match rest with
      | b1 :: b2 :: r :: rest' =>
          if inEscapeClass c && N.eqb b1 BACKSLASH && N.eqb b2 BACKSLASH
             && N.eqb r RBRACKET
          then BACKSLASH :: c :: b1 :: b2 :: r :: escapeKey rest'
          else c :: escapeKey rest
      | _ => c :: escapeKey rest
      end
  end.

(** The line written in place of a matched line. *)
Definition rewritten (key newValToml : str) (km : caps) : str :=
  let indent := cap 1 km in
  let tailComment := cap 4 km in
  indent ++ key ++ u " = " ++ newValToml ++ tailComment.

(** A text between double quotes. *)
Definition dq (s : str) : str := DQUOTE :: s ++ [DQUOTE].

(** ** Values, the differ and the save decision *)

Section Engine.

(** [new RegExp] on the template of [patchScalarInSection] with a text in
    the place of the escaped key: [None] when the constructor throws a
    SyntaxError, otherwise the function [line => line.match(keyRe)] of
    the pattern it builds. *)
Variable RegExp_keyRe : str -> option (str -> option caps).

(** The [for] loop of [patchScalarInSection] over the lines from index [i]
    on: the result is these lines after the loop and the [patched] flag,
    or [None] when [new RegExp] throws. *)
Fixpoint scanLines (targetHeader key newValToml : str) (inSection : bool)
         (lines : list str) : option (list str * bool) :=
  match lines with
  | [] => Some ([], false)
  | line :: rest =>
      match exec sectionHeaderRe line with
      | Some m =>
          let hdr := trim (cap 1 m) in
          match scanLines targetHeader key newValToml
                          (str_eqb hdr targetHeader) rest with
          | Some (rest', p) => Some (line :: rest', p)
          | None => None
          end
      | None =>
          if negb inSection then
            match scanLines targetHeader key newValToml inSection rest with
            | Some (rest', p) => Some (line :: rest', p)
            | None => None
            end
          else
            match RegExp_keyRe (escapeKey key) with
            | None => None
            | Some keyRe_match =>
                match keyRe_match line with
                | Some km => Some (rewritten key newValToml km :: rest, true)
                | None =>
                    if test sectionHeaderRe line then Some (line :: rest, false)
                    else
                      match scanLines targetHeader key newValToml inSection
                                      rest with
                      | Some (rest', p) => Some (line :: rest', p)
                      | None => None
                      end
                end
            end
      end
  end.

Definition patchScalarInSection (text : str) (sectionPath : list str)
           (key newValToml : str) : option PatchResult :=
  let lines := splitLines text in
  let inSection := Nat.eqb (List.length sectionPath) 0 in
  let targetHeader := joinDot sectionPath in
  match scanLines targetHeader key newValToml inSection lines with
  | Some (lines', p) => Some (mkPatchResult (joinLF lines') p)
  | None => None
  end.

(** The [number] type of the runtime, with the two operations the source
    uses on it: [Number.isFinite] and [String(v)]. *)
Variable number : Type.
Variable Number_isFinite : number -> bool.
Variable Number_toString : number -> str.

(** [type Json = null | boolean | number | string | Json[] |
    { [k: string]: Json }].  An object lists its own properties in the
    order of [Object.keys]. *)
#[warnings="-register-all"]
Inductive Json : Type :=
| JNull
| JBool (b : bool)
| JNum (n : number)
| JStr (s : str)
| JArr (items : list Json)
| JObj (props : list (str * Json)).

Definition table := list (str * Json).

(** [obj[k]], [None] standing for [undefined] (what a key finds on
    [Object.prototype] alone is no scalar and no table with scalars, and
    is skipped by [walkPatch] like [undefined]). *)
Fixpoint lookup (k : str) (obj : table) : option Json :=
  match obj with
  | [] => None
  | (k', v) :: obj' => if str_eqb k k' then Some v else lookup k obj'
  end.

Definition Object_keys (obj : table) : list str := map fst obj.

(** [new Set<string>([...])], iterated: first occurrences, in order. *)
Fixpoint setOf (seen : list str) (ks : list str) : list str :=
  match ks with
  | [] => []
  | k :: ks' =>
      if existsb (str_eqb k) seen then setOf seen ks'
      else k :: setOf (k :: seen) ks'
  end.

Definition valueToTomlScalar (v : Json) : option str :=
  match v with
  | JNull => Some (u "null")
  | JBool b => Some (if b then u "true" else u "false")
  | JNum n => Some (if Number_isFinite n then Number_toString n else u "0")
  | JStr s => Some (quoteTomlString s)
  | JArr _ => None
  | JObj _ => None
  end.

(** [valueToTomlScalar(obj[k] as Json)]: [undefined] is none of the
    scalar cases and gives [null]. *)
Definition scalarOf (v : option Json) : option str :=
  match v with
  | Some v' => valueToTomlScalar v'
  | None => None
  end.

Record WalkResult : Type := mkWalkResult { wtext : str; patchedAny : bool }.

(** Nesting depth of tables, the bound of the recursion of [walkPatch]. *)
Fixpoint depth (v : Json) : nat :=
  match v with
  | JObj props => S (list_max (map (fun kv => depth (snd kv)) props))
  | _ => 0
  end.

(** One iteration of [for (const k of keys)], given the recursive call;
    [None] when an exception leaves the loop. *)
Definition walkStep
           (walk : str -> table -> table -> list str -> option WalkResult)
           (oldObj newObj : table) (pathAcc : list str)
           (st : WalkResult) (k : str) : option WalkResult :=
  let outText := wtext st in
  let oldVal := lookup k oldObj in
  let newVal := lookup k newObj in
  let newScalar := scalarOf newVal in
  let oldScalar := scalarOf oldVal in
  match newScalar, oldScalar with
  | Some newScalar', Some _ =>
      match patchScalarInSection outText pathAcc k newScalar' with
      | Some res =>
          Some (mkWalkResult (ptext res) (patchedAny st || patched res))
      | None => None
      end
  | _, _ =>
      match newVal, oldVal with
      | Some (JObj newTbl), Some (JObj oldTbl) =>
          match walk outText oldTbl newTbl (pathAcc ++ [k]) with
          | Some res =>
              Some (mkWalkResult (wtext res) (patchedAny st || patchedAny res))
          | None => None
          end
      | _, _ => Some st
      end
  end.

(** A loop whose body may throw. *)
Definition foldThrow (A B : Type) (f : A -> B -> option A) (l : list B)
           (a : option A) : option A :=
  fold_left (fun st x => match st with
                         | Some st' => f st' x
                         | None => None
                         end) l a.

(** [walkPatch], with the depth of the recursion bounded by [fuel]. *)
Fixpoint walkPatchFuel (fuel : nat) (text : str) (oldObj newObj : table)
         (pathAcc : list str) : option WalkResult :=
  match fuel with
  | O => Some (mkWalkResult text false)
  | S fuel' =>
      let keys := setOf [] (Object_keys oldObj ++ Object_keys newObj) in
      foldThrow (walkStep (walkPatchFuel fuel') oldObj newObj pathAcc)
                keys (Some (mkWalkResult text false))
  end.

(** The recursion descends into a table of [oldObj] each time, so the
    depth of [oldObj] is enough fuel. *)
Definition walkPatch (text : str) (oldObj newObj : table)
           (pathAcc : list str) : option WalkResult :=
  walkPatchFuel (depth (JObj oldObj)) text oldObj newObj pathAcc.

(** The calls of [patchScalarInSection] that [walkPatch] makes when none
    throws, in order: the patch instructions of the differ. *)
Record PatchInstruction : Type :=
  mkInstr { sectionPath : list str; ikey : str; literal : str }.

Definition callsStep
           (calls : table -> table -> list str -> list PatchInstruction)
           (oldObj newObj : table) (pathAcc : list str) (k : str)
  : list PatchInstruction :=
  let oldVal := lookup k oldObj in
  let newVal := lookup k newObj in
  match scalarOf newVal, scalarOf oldVal with
  | Some newScalar', Some _ => [mkInstr pathAcc k newScalar']
  | _, _ =>
      match newVal, oldVal with
      | Some (JObj newTbl), Some (JObj oldTbl) =>
          calls oldTbl newTbl (pathAcc ++ [k])
      | _, _ => []
      end
  end.

Fixpoint patchCallsFuel (fuel : nat) (oldObj newObj : table)
         (pathAcc : list str) : list PatchInstruction :=
  match fuel with
  | O => []
  | S fuel' =>
      let keys := setOf [] (Object_keys oldObj ++ Object_keys newObj) in
      flat_map (callsStep (patchCallsFuel fuel') oldObj newObj pathAcc) keys
  end.

Definition patchCalls (oldObj newObj : table) (pathAcc : list str)
  : list PatchInstruction :=
  patchCallsFuel (depth (JObj oldObj)) oldObj newObj pathAcc.

(** A scalar leaf of a tree: the key [k] with the literal [lit] in the
    table at the section path [path]. *)
Fixpoint scalarLeaf (tree : table) (path : list str) (k lit : str) : Prop :=
  match path with
  | [] => exists v, lookup k tree = Some v /\ valueToTomlScalar v = Some lit
  | t :: path' =>
      exists sub, lookup t tree = Some (JObj sub) /\
                  scalarLeaf sub path' k lit
  end.

(** Applying one instruction to the accumulating text. *)
Definition applyInstr (st : WalkResult) (i : PatchInstruction)
  : option WalkResult :=
  match patchScalarInSection (wtext st) (sectionPath i) (ikey i)
                             (literal i) with
  | Some res => Some (mkWalkResult (ptext res) (patchedAny st || patched res))
  | None => None
  end.

(** The external TOML library: [toml.parse] ([None] when it throws) and
    [toml.stringify]. *)
Variable toml_parse : str -> option table.
Variable toml_stringify : table -> str.

Definition toToml (data : Json) : str :=
  match data with
  | JObj props => toml_stringify props
  | _ => toml_stringify [(u "value", data)]
  end.

(** [readTomlFile] once the file is read: the tree parsed from the
    relaxed text and the original text, kept for patching; [None] when
    [toml.parse] throws. *)
Definition readTomlFile (text : str) : option (table * str) :=
  match toml_parse (relaxed text) with
  | Some data => Some (data, text)
  | None => None
  end.

(** The save decision of [handleSave]: the text written to the file and
    the [preserved] flag of the response.  [data] is the tree of the
    form, a table at its root; [originalText] may be absent.  The [try]
    block catches what [toml.parse] and [walkPatch] throw. *)
Definition handleSave (preserve : bool) (originalText : option str)
           (data : table) : str * bool :=
  match preserve, originalText with
  | true, Some (c :: t) =>
      match toml_parse (c :: t) with
      | Some oldObj =>
          match walkPatch (c :: t) oldObj data [] with
          | Some result =>
              if patchedAny result then (wtext result, true)
              else (toToml (JObj data), false)
          | None => (toToml (JObj data), false)
          end
      | None => (toToml (JObj data), false)
      end
  | _, _ => (toToml (JObj data), false)
  end.

End Engine.

Arguments JNull {number}.
Arguments JBool {number} b.
Arguments JStr {number} s.

(** Arrays and tables, the values that are not scalars. *)
Definition isComposite (number : Type) (v : Json number) : bool :=
  match v with
  | JArr _ => true
  | JObj _ => true
  | _ => false
  end.

(** ** A concrete runtime for the examples *)

Module Demo.

(** [new RegExp] for the keys of the examples, which stand for themselves
    (other keys are not asked about). *)
Definition RegExp_keyRe (fragment : str) : option (str -> option caps) :=
  if plainKey fragment then Some (exec (keyRe fragment)) else None.

Definition patchScalarInSection := patchScalarInSection RegExp_keyRe.

(** Integers as numbers: all finite, printed in decimal. *)
Definition number : Type := Z.
Definition Number_isFinite (_ : number) : bool := true.
Definition Number_toString (z : number) : str :=
  u (NilZero.string_of_int (Z.to_int z)).

Definition valueToTomlScalar :=
  valueToTomlScalar Number_isFinite Number_toString.
Definition walkPatch :=
  walkPatch RegExp_keyRe Number_isFinite Number_toString.
Definition patchCalls := patchCalls Number_isFinite Number_toString.

(** The documents of the examples and the trees the TOML parser gives
    for them. *)
Definition doc_port : str := u "port=8080".
Definition tree_port : table number := [(u "port", JNum 8080%Z)].

Definition doc_empty_table : str := u "[server]".
Definition tree_empty_table : table number := [(u "server", JObj [])].

Definition doc_tags : str := joinLF [u "port = 8080"; u "tags = [1, 2]"].
Definition tree_tags : table number :=
  [(u "port", JNum 8080%Z); (u "tags", JArr [JNum 1%Z; JNum 2%Z])].
Definition edit_tags : table number :=
  [(u "port", JNum 9090%Z); (u "tags", JArr [JNum 1%Z])].

(** Documents for the line patcher alone. *)
Definition doc_comment : str := u "port = 8080 # listen port".

Definition doc_crlf : str := u "a" ++ [CR; LF] ++ u "b".

Definition doc_reentry : str :=
  joinLF [u "[b]"; u "port = 1"; u "[a]"; u "host = 1"; u "[b]";
          u "host = 2"].

Definition doc_two_sections : str :=
  joinLF [u "[a]"; u "host = 1"; u "[b]"; u "host = 2"].

Definition doc_duplicate : str := joinLF [u "key = 1"; u "key = 2"].

Definition line_hash_value : str := u "name = " ++ dq (u "a#b").


Definition known_documents : list (str * table number) :=
  [(doc_port, tree_port); (doc_empty_table, tree_empty_table);
   (doc_tags, tree_tags)].

Fixpoint find_document (t : str) (ds : list (str * table number))
  : option (table number) :=
  match ds with
  | [] => None
  | (d, tree) :: ds' => if str_eqb t d then Some tree else find_document t ds'
  end.

(** [toml.parse] on the documents above (it is not asked about others). *)
Definition toml_parse (t : str) : option (table number) :=
  find_document t known_documents.

(** [toml.stringify]: the text is the library's, only its being the
    result of the fallback matters. *)
Definition toml_stringify (_ : table number) : str :=
  u "<toml.stringify(data)>".

Definition handleSave :=
  handleSave RegExp_keyRe Number_isFinite Number_toString
             toml_parse toml_stringify.

End Demo.

(** ** Notions used by the statements *)

(** A text with every CR LF pair replaced by LF. *)
Fixpoint crlfToLf (s : str) : str :=
  match s with
  | [] => []
  | c :: rest =>
      match rest with
      | d :: rest' =>
          if N.eqb c CR && N.eqb d LF then LF :: crlfToLf rest'
          else c :: crlfToLf rest
      | [] => [c]
      end
  end.

(** The [inSection] flag after the loop of [patchScalarInSection] has
    passed the lines [pre] without leaving the loop. *)
Definition headerState (targetHeader : str) (inSection : bool) (line : str)
  : bool :=
  match exec sectionHeaderRe line with
  | Some m => str_eqb (trim (cap 1 m)) targetHeader
  | None => inSection
  end.

Definition stateAfter (targetHeader : str) (inSection : bool)
           (pre : list str) : bool :=
  fold_left (headerState targetHeader) pre inSection.

(** A line that the loop rewrites when it reaches it with the flag
    [inSection]: not a header, in the section, matched by the pattern of
    the key ([keyRe_match] is [line => line.match(keyRe)]). *)
Definition assignsKey (keyRe_match : str -> option caps) (inSection : bool)
           (line : str) : bool :=
  match exec sectionHeaderRe line with
  | Some _ => false
  | None =>
      inSection &&
      match keyRe_match line with Some _ => true | None => false end
  end.

(** No line of [pre] is rewritten by the loop started with [inSection]. *)
Fixpoint noAssignment (targetHeader : str)
         (keyRe_match : str -> option caps) (inSection : bool)
         (pre : list str) : bool :=
  match pre with
  | [] => true
  | line :: pre' =>
      negb (assignsKey keyRe_match inSection line) &&
      noAssignment targetHeader keyRe_match
                   (headerState targetHeader inSection line) pre'
  end.

(** Escaping one character of a string literal. *)
Definition escapeChar (c : char) : str :=
  if N.eqb c BACKSLASH then [BACKSLASH; BACKSLASH]
  else if N.eqb c DQUOTE then [BACKSLASH; DQUOTE]
  else [c].

(** [stops p s]: a run of [p] characters cannot go on into [s]. *)
Definition stops (p : char -> bool) (s : str) : Prop :=
  match s with
  | [] => True
  | x :: _ => p x = false
  end.

(** [first_match r w s c c']: on the input [w ++ s] the first choice of
    the matcher for [r] consumes [w] and leaves the captures [c']; when
    what follows accepts [s], that is the match. *)
Definition first_match (r : re) (w s : str) (c c' : caps) : Prop :=
  forall k res, k s c' = Some res -> rmatch r (w ++ s) c k = Some res.

(** What the words of a pattern say, without the priorities: [den r w c c']
    when [r] can match exactly [w], turning the captures [c] into [c']. *)
Inductive den : re -> str -> caps -> caps -> Prop :=
| den_Eps : forall c, den Eps [] c c
| den_Cls : forall p x c, p x = true -> den (Cls p) [x] c c
| den_Seq : forall a b w1 w2 c c' c'',
    den a w1 c c' -> den b w2 c' c'' -> den (Seq a b) (w1 ++ w2) c c''
| den_AltL : forall a b w c c', den a w c c' -> den (Alt a b) w c c'
| den_AltR : forall a b w c c', den b w c c' -> den (Alt a b) w c c'
| den_OptSome : forall a w c c', den a w c c' -> den (Opt a) w c c'
| den_OptNone : forall a c, den (Opt a) [] c c
| den_StarG : forall p w c, forallb p w = true -> den (StarG p) w c c
| den_StarL : forall p w c, forallb p w = true -> den (StarL p) w c c
| den_Grp : forall n a w c c',
    den a w c c' -> den (Grp n a) w c ((n, w) :: c').

(** The only change the normalizer makes to a line: the value text [v]
    after an equals sign and its blanks, free of [#] and classified as a
    bare string, is replaced by the quoted and escaped [trim v]; what is
    before and after it stays. *)
Inductive relaxedLine : str -> str -> Prop :=
| RL_same : forall line, relaxedLine line line
| RL_quote : forall lhs ws v ws' comment,
    forallb isSpace ws = true ->
    forallb (notChar HASH) v = true ->
    looksLikeBareString v = true ->
    forallb isSpace ws' = true ->
    (comment = [] \/ exists t, comment = HASH :: t) ->
    relaxedLine (lhs ++ EQUALS :: ws ++ v ++ ws' ++ comment)
                (lhs ++ EQUALS :: ws ++
                 dq (flat_map escapeChar (trim v)) ++ ws' ++ comment).

(** The loop of [patchScalarInSection] going on with the next line. *)
Definition goOn (RegExp_keyRe : str -> option (str -> option caps))
           (T key v : str) (b : bool) (line : str) (rest : list str)
  : option (list str * bool) :=
  match scanLines RegExp_keyRe T key v b rest with
  | Some (rest', p) => Some (line :: rest', p)
  | None => None
  end.

(** ** HTML escaping ([escapeHtml]) *)

Definition AMP : char := 38%N.
Definition LT : char := 60%N.
Definition GT : char := 62%N.
Definition COLON : char := 58%N.

(** [s.startsWith(p)] *)
Fixpoint hasPrefix (p s : str) : bool :=
  match p, s with
  | [], _ => true
  | x :: p', y :: s' => N.eqb x y && hasPrefix p' s'
  | _ :: _, [] => false
  end.

(** The four [replaceAll] calls, in the order of the source. *)
Definition escapeHtml (s : str) : str :=
  replaceAll DQUOTE (u "&quot;")
    (replaceAll GT (u "&gt;")
       (replaceAll LT (u "&lt;")
          (replaceAll AMP (u "&amp;") s))).

(** What the four calls make of one character. *)
Definition escapeHtmlChar (c : char) : str :=
  if N.eqb c AMP then u "&amp;"
  else if N.eqb c LT then u "&lt;"
  else if N.eqb c GT then u "&gt;"
  else if N.eqb c DQUOTE then u "&quot;"
  else [c].

(** Reading the four entities back; [skip] characters of an entity just
    read are passed over. *)
Fixpoint unescapeFrom (skip : nat) (s : str) : str :=
  match s with
  | [] => []
  | c :: rest =>
      match skip with
      | S k => unescapeFrom k rest
      | O =>
          if N.eqb c AMP then
            if hasPrefix (u "amp;") rest then AMP :: unescapeFrom 4 rest
            else if hasPrefix (u "lt;") rest then LT :: unescapeFrom 3 rest
            else if hasPrefix (u "gt;") rest then GT :: unescapeFrom 3 rest
            else if hasPrefix (u "quot;") rest
                 then DQUOTE :: unescapeFrom 5 rest
            else c :: unescapeFrom 0 rest
          else c :: unescapeFrom 0 rest
      end
  end.

Definition unescapeHtml (s : str) : str := unescapeFrom 0 s.

(** ** Reading a string literal back *)

(** The text between the quotes of a literal with the two escapes of
    [quoteTomlString] undone; [None] for a double quote that is not
    escaped and for a backslash before anything else. *)
Fixpoint unescapeToml (s : str) : option str :=
  match s with
  | [] => Some []
  | c :: rest =>
      if N.eqb c BACKSLASH then
        match rest with
        | d :: rest' =>
            if N.eqb d BACKSLASH || N.eqb d DQUOTE then
              match unescapeToml rest' with
              | Some r => Some (d :: r)
              | None => None
              end
            else None
        | [] => None
        end
      else if N.eqb c DQUOTE then None
      else
        match unescapeToml rest with
        | Some r => Some (c :: r)
        | None => None
        end
  end.

Definition unquoteToml (lit_ : str) : option str :=
  match lit_ with
  | q :: body =>
      if N.eqb q DQUOTE then
        match rev body with
        | q' :: rbody =>
            if N.eqb q' DQUOTE then unescapeToml (rev rbody) else None
        | [] => None
        end
      else None
  | [] => None
  end.

(** ** Notions for the differ and for line counts *)

(** A scalar leaf that two trees share: the key [k] is a scalar in both
    tables found at the section path [path], which is a path of tables in
    both trees, and [lit] is the literal of its new value. *)
Fixpoint commonLeaf (number : Type) (Number_isFinite : number -> bool)
         (Number_toString : number -> str)
         (oldObj newObj : table number) (path : list str) (k lit : str)
  : Prop :=
  match path with
  | [] =>
      exists ov nv lo,
        lookup k oldObj = Some ov /\ lookup k newObj = Some nv /\
        valueToTomlScalar Number_isFinite Number_toString ov = Some lo /\
        valueToTomlScalar Number_isFinite Number_toString nv = Some lit
  | t :: path' =>
      exists o n,
        lookup t oldObj = Some (JObj o) /\ lookup t newObj = Some (JObj n) /\
        commonLeaf Number_isFinite Number_toString o n path' k lit
  end.

(** A text without CR. *)
Definition noCR (s : str) : bool := forallb (fun c => negb (N.eqb c CR)) s.

(** A text without LF and without CR. *)
Definition noBreak (s : str) : bool :=
  forallb (fun c => negb (N.eqb c LF) && negb (N.eqb c CR)) s.

(** An instruction whose key stands for itself in a pattern and whose key
    and literal have no line break. *)
Definition cleanInstr (i : PatchInstruction) : bool :=
  plainKey (ikey i) && noBreak (ikey i) && noBreak (literal i).


(** ** The command line and Basic Auth ([parseArgs], [checkAuth]) *)

(** [s.indexOf(c)] for a one-character [c]; [None] stands for -1. *)
Fixpoint indexOf (c : char) (s : str) : option nat :=
  match s with
  | [] => None
  | x :: rest => if N.eqb x c then Some 0 else option_map S (indexOf c rest)
  end.

(** [s.split(sep)] for a one-character separator. *)
Fixpoint split (sep : char) (s : str) : list str :=
  match s with
  | [] => [[]]
  | c :: rest =>
      if N.eqb c sep then [] :: split sep rest
      else consHead c (split sep rest)
  end.

(** [parts.join(sep)] *)
Fixpoint join (sep : char) (parts : list str) : str :=
  match parts with
  | [] => []
  | [p] => p
  | p :: parts' => p ++ sep :: join sep parts'
  end.

(** [!s] for an optional string: [undefined] and the empty string. *)
Definition falsy (s : option str) : bool :=
  match s with
  | None | Some [] => true
  | Some (_ :: _) => false
  end.

(** [a === b] for two values that are a string or [undefined]. *)
Definition strictEq (a b : option str) : bool :=
  match a, b with
  | Some x, Some y => str_eqb x y
  | None, None => true
  | _, _ => false
  end.

Section Auth.

(** The runtime of [parseArgs]: [Number(s)], the truth value of a number
    (false for 0 and NaN), the number 8787, [Deno.cwd()] and
    [path.resolve]. *)
Variable number : Type.
Variable Number_of : str -> number.
Variable Number_truthy : number -> bool.
Variable Number_8787 : number.
Variable Deno_cwd : str.
Variable path_resolve : str -> str.

(** [atob]; [None] when it throws. *)
Variable atob : str -> option str.

Record AppConfig : Type := mkAppConfig {
  root : str;
  port : number;
  authUser : option str;
  authPass : option str
}.

(** The body of the loop of [parseArgs] for one argument. *)
Definition parseArg (config : AppConfig) (a : str) : AppConfig :=
  let config1 :=
    if hasPrefix (u "--root=") a
    then mkAppConfig (path_resolve (skipn 7 a)) (port config)
                     (authUser config) (authPass config)
    else config in
  let config2 :=
    if hasPrefix (u "--port=") a
    then let n := Number_of (skipn 7 a) in
         mkAppConfig (root config1)
                     (if Number_truthy n then n else Number_8787)
                     (authUser config1) (authPass config1)
    else config1 in
  if hasPrefix (u "--auth=") a
  then let cred := skipn 7 a in
       match indexOf COLON cred with
       | Some (S i) =>
           mkAppConfig (root config2) (port config2)
                       (Some (firstn (S i) cred)) (Some (skipn (S i + 1) cred))
       | _ => config2
       end
  else config2.

Definition parseArgs (args : list str) : AppConfig :=
  fold_left parseArg args (mkAppConfig Deno_cwd Number_8787 None None).

(** [checkAuth]; [authorization] is [req.headers.get("authorization")],
    [None] for [null].  The header or the empty string: an empty header
    is the empty string already. *)
Definition checkAuth (app : AppConfig) (authorization : option str) : bool :=
  if falsy (authUser app) || falsy (authPass app) then true
  else
    let hdr := match authorization with
               | Some h => h
               | None => []
               end in
    if negb (hasPrefix (u "Basic ") hdr) then false
    else
      match atob (skipn 6 hdr) with
      | Some decoded =>
          let parts := split COLON decoded in
          let usr := nth_error parts 0 in
          let p := nth_error parts 1 in
          strictEq usr (authUser app) && strictEq p (authPass app)
      | None => false
      end.

End Auth.

Module DemoAuth.

(** [atob] on the one credential text of the examples. *)
Definition atob (s : str) : option str :=
  if str_eqb s (u "YWRtaW46czNjcmV0") then Some (u "admin:s3cret")
  else if str_eqb s (u "YWRtaW46YTpi") then Some (u "admin:a:b")
  else None.

Definition parseArgs : list str -> AppConfig Z :=
  parseArgs (fun _ => 0%Z) (fun z => negb (Z.eqb z 0)) 8787%Z (u "/srv")
            (fun p => p).

Definition checkAuth := @checkAuth Z atob.

End DemoAuth.

(** ** Paths and the request handlers ([ensureInsideRoot],
    [pickSourceFile], [handleEdit], [handleSave]) *)

(** The answers of [handleEdit].  [EditThrows]: [ensureInsideRoot] threw,
    the server answers 500.  [EditRead source]: [readTomlFile(source)]
    is called, and the edit page, or the 400 of a parse failure, is the
    answer. *)
Inductive EditResponse : Type :=
| EditUnauthorized
| EditMissingFile
| EditThrows
| EditNotFound (candidate : str)
| EditRead (source : str).

(** The answers of [handleSave].  [SaveError]: [ensureInsideRoot] threw,
    the answer is 500.  [SaveWrite targetPath outText preserved]:
    [Deno.mkdir] is called on the directory of [targetPath] and
    [Deno.writeTextFile(targetPath, outText)] after it; the answer has
    [preserved]. *)
Inductive SaveResponse : Type :=
| SaveUnauthorized
| SaveBadRequest (error : str)
| SaveError
| SaveWrite (targetPath outText : str) (preserved : bool).

Section Files.

(** [path.resolve], [path.join] on two arguments, [path.SEPARATOR], and
    the file system as [fileExists] sees it during the request. *)
Variable path_resolve : str -> str.
Variable path_join : str -> str -> str.
Variable path_SEPARATOR : str.
Variable fileExists : str -> bool.

(** [None] when the function throws. *)
Definition ensureInsideRoot (candidate root : str) : option str :=
  let full := path_resolve candidate in
  let normalizedRoot := path_resolve root in
  if negb (hasPrefix (normalizedRoot ++ path_SEPARATOR) full)
     && negb (str_eqb full normalizedRoot)
  then None
  else Some full.

Definition pickSourceFile (requested : str) : option str :=
  if fileExists requested then Some requested
  else
    let variants := [requested ++ u ".example"; requested ++ u ".template"] in
    find fileExists variants.

(** A string of the request that may be missing, as a string. *)
Definition orEmpty (s : option str) : str :=
  match s with
  | Some t => t
  | None => []
  end.

(** [handleEdit]; [authorized] is [checkAuth(req)], [root] is [app.root]
    and [fileRel] is [url.searchParams.get("file")]. *)
Definition handleEdit (authorized : bool) (root : str) (fileRel : option str)
  : EditResponse :=
  if negb authorized then EditUnauthorized
  else if falsy fileRel then EditMissingFile
  else
    match ensureInsideRoot (path_join root (orEmpty fileRel)) root with
    | None => EditThrows
    | Some candidate =>
        match pickSourceFile candidate with
        | None => EditNotFound candidate
        | Some source => EditRead source
        end
    end.

Variable RegExp_keyRe : str -> option (str -> option caps).
Variable number : Type.
Variable Number_isFinite : number -> bool.
Variable Number_toString : number -> str.
Variable toml_parse : str -> option (table number).
Variable toml_stringify : table number -> str.

(** The fields of the payload of a save request that the handler reads,
    each a string or missing ([saveAs] may be [null]); [data] is the
    tree of the form and [preserve] is [!!payload.preserve]. *)
Record SavePayload : Type := mkSavePayload {
  fileRel : option str;
  sourcePath : option str;
  mode : option str;
  saveAs : option str;
  data : table number;
  preserve : bool;
  originalText : option str
}.

(** [handleSave] on a request whose body is the JSON of [payload]: the
    checks, the choice of the target path, and the write of the text of
    the save decision [handleSave] above. *)
Definition handleSave_request (authorized : bool) (root : str)
           (payload : SavePayload) : SaveResponse :=
  if negb authorized then SaveUnauthorized
  else if falsy (fileRel payload) || falsy (sourcePath payload)
          || falsy (mode payload)
  then SaveBadRequest (u "Missing required fields")
  else
    match ensureInsideRoot (path_join root (orEmpty (sourcePath payload)))
                           root with
    | None => SaveError
    | Some sourcePath' =>
        match ensureInsideRoot (path_join root (orEmpty (fileRel payload)))
                               root with
        | None => SaveError
        | Some defaultTarget =>
            let write targetPath :=
              let (outText, preserved) :=
                handleSave RegExp_keyRe Number_isFinite Number_toString
                           toml_parse toml_stringify
                           (preserve payload) (originalText payload)
                           (data payload) in
              SaveWrite targetPath outText preserved in
            if str_eqb (orEmpty (mode payload)) (u "overwrite")
            then write (if fileExists defaultTarget then defaultTarget
                        else sourcePath')
            else if falsy (saveAs payload)
            then SaveBadRequest (u "Missing saveAs name")
            else
              match ensureInsideRoot
                      (path_join root (orEmpty (saveAs payload))) root with
              | None => SaveError
              | Some targetPath => write targetPath
              end
        end
    end.

(** A path that [ensureInsideRoot] lets through: the resolved root or a
    text that starts with the resolved root and the separator. *)
Definition insideRoot (root full : str) : Prop :=
  full = path_resolve root \/
  hasPrefix (path_resolve root ++ path_SEPARATOR) full = true.

End Files.

Module DemoFiles.

(** Paths that are resolved already, joined with a slash, a single dot
    standing for the directory itself; the files of the examples. *)
Definition path_resolve (p : str) : str := p.
Definition path_join (a b : str) : str :=
  if str_eqb b (u ".") then a else a ++ u "/" ++ b.
Definition path_SEPARATOR : str := u "/".
Definition fileExists (p : str) : bool :=
  str_eqb p (u "/srv/app.conf.example") || str_eqb p (u "/srv.example").

Definition handleEdit := handleEdit path_resolve path_join path_SEPARATOR
                                    fileExists.

Definition payload_overwrite : SavePayload Demo.number :=
  mkSavePayload (Some (u "app.conf")) (Some (u "app.conf.example"))
                (Some (u "overwrite")) None Demo.tree_port false None.

Definition handleSave_request :=
  handleSave_request path_resolve path_join path_SEPARATOR fileExists
                     Demo.RegExp_keyRe Demo.Number_isFinite
                     Demo.Number_toString Demo.toml_parse Demo.toml_stringify.

End DemoFiles.

(** ** Field names ([inputName]) and the [pathToArray] of the edit page *)

Definition inputName (pathParts : list str) : str :=
  match pathParts with
  | [] => []
  | first :: others =>
      fold_left (fun name part => name ++ LBRACKET :: part ++ [RBRACKET])
                others first
  end.

(** The pattern of [pathToArray], as the page has it once the template
    is evaluated: a bracket, a group of characters other than the closing
    bracket, the closing bracket; flag [g]. *)
Definition bracketRe : re :=
  (Cls (isChar LBRACKET) ;; Grp 1 (StarG (notChar RBRACKET)) ;;
   Cls (isChar RBRACKET))%re.

(** A match that starts at the first code unit of [s] and may end
    anywhere; index 0 of the result holds the input after the match,
    where [lastIndex] points. *)
Definition matchHere (r : re) (s : str) : option caps :=
  rmatch r s [] (fun s' c => Some ((0, s') :: c)).

(** [re.exec(s)] for a pattern without anchors: the first position at
    which the pattern matches. *)
Fixpoint search (r : re) (s : str) : option caps :=
  match matchHere r s with
  | Some m => Some m
  | None =>
      match s with
      | [] => None
      | _ :: s' => search r s'
      end
  end.

(** [while ((m = re.exec(rest))) parts.push(m[1])]: the first groups of
    the successive matches; [None] when the fuel is used up. *)
Fixpoint execAll (fuel : nat) (r : re) (rest : str) : option (list str) :=
  match fuel with
  | O => None
  | S fuel' =>
      match search r rest with
      | None => Some []
      | Some m =>
          match execAll fuel' r (cap 0 m) with
          | Some parts => Some (cap 1 m :: parts)
          | None => None
          end
      end
  end.

(** [pathToArray]; a match of the pattern has two code units at least,
    so the length of the name bounds the number of rounds. *)
Definition pathToArray (name : str) : option (list str) :=
  match indexOf LBRACKET name with
  | None => Some [name]
  | Some firstBracket =>
      match execAll (S (List.length name)) bracketRe
                    (skipn firstBracket name) with
      | Some parts => Some (firstn firstBracket name :: parts)
      | None => None
      end
  end.

(** The bracketed parts of a name. *)
Definition bracketed (parts : list str) : str :=
  flat_map (fun part => LBRACKET :: part ++ [RBRACKET]) parts.

Module DemoRelax.

(** A file with a bare string, which [toml.parse] takes only once the
    normalizer has quoted it. *)
Definition doc_bare : str := u "name = abc".
Definition tree_bare : table Demo.number := [(u "name", JStr (u "abc"))].

Definition toml_parse (t : str) : option (table Demo.number) :=
  if str_eqb t (u "name = " ++ dq (u "abc")) then Some tree_bare else None.

End DemoRelax.

(** What holds of a configuration during the loop of [parseArgs]: the
    port is a true number, and there are no credentials or a user name
    that is not empty and has no colon, with a password. *)
Definition configOk (number : Type) (Number_truthy : number -> bool)
           (config : AppConfig number) : Prop :=
  Number_truthy (port config) = true /\
  ((authUser config = None /\ authPass config = None) \/
   (exists user pass,
       authUser config = Some user /\ authPass config = Some pass /\
       user <> [] /\ ~ In COLON user)).

(** ** Texts that the save of an unchanged tree gives back *)

(** An assignment line as the patcher writes it: blanks, the key, [ = ],
    the literal, and then nothing or a comment that starts right at its
    [#]. *)
Definition canonicalLine (key lit line : str) : Prop :=
  exists indent comment,
    line = indent ++ key ++ u " = " ++ lit ++ comment /\
    forallb isSpace indent = true /\
    (comment = [] \/ exists t, comment = HASH :: t).

(** An instruction whose key stands for itself in a pattern, is not
    empty and does not start with a blank, and whose key and literal
    have no line break, the literal no [#] either. *)
Definition stableInstr (i : PatchInstruction) : bool :=
  cleanInstr i &&
  match ikey i with
  | [] => false
  | c :: _ => negb (isSpace c)
  end &&
  forallb (notChar HASH) (literal i).

(** The line patcher, called on [text] for the instruction, reports
    [patched]: it has found a line to rewrite. *)
Definition findsLine (RegExp_keyRe : str -> option (str -> option caps))
           (text : str) (i : PatchInstruction) : bool :=
  match patchScalarInSection RegExp_keyRe text (sectionPath i) (ikey i)
                             (literal i) with
  | Some r => patched r
  | None => false
  end.

(** ** The values and lines the normalizer is to leave alone

    Booleans, decimal numbers and timestamps as the grammar of TOML
    writes them; of the numbers, the decimal integers and the floats
    whose exponent has no underscore; of the timestamps, those that
    begin with a date. *)
















(** * Properties *)

(** ** Strings and lines *)

Lemma str_eqb_eq : forall a b, str_eqb a b = true <-> a = b.
Proof.
  intros a b. unfold str_eqb.
  destruct (list_eq_dec N.eq_dec a b); split; congruence.
Qed.

Lemma str_eqb_refl : forall a, str_eqb a a = true.
Proof. intros a. apply str_eqb_eq. reflexivity. Qed.

Lemma splitLines_not_nil : forall s, splitLines s <> [].
Proof.
  intros s. destruct s as [|c rest]; simpl; [discriminate|].
  destruct (N.eqb c LF); [discriminate|].
  destruct rest as [|d rest'].
  - simpl. discriminate.
  - destruct (N.eqb c CR && N.eqb d LF); [discriminate|].
    unfold consHead. destruct (splitLines (d :: rest')); discriminate.
Qed.

Lemma joinLF_cons : forall l ls,
    ls <> [] -> joinLF (l :: ls) = l ++ LF :: joinLF ls.
Proof. intros l [|l' ls] H; [congruence|reflexivity]. Qed.

Lemma joinLF_consHead : forall c ls,
    ls <> [] -> joinLF (consHead c ls) = c :: joinLF ls.
Proof.
  intros c [|l ls] H; [congruence|].
  simpl. destruct ls; reflexivity.
Qed.

Lemma joinLF_splitLines_aux : forall n s,
    List.length s <= n -> joinLF (splitLines s) = crlfToLf s.
Proof.
  induction n as [|n IH]; intros s Hn.
  - destruct s; [reflexivity|simpl in Hn; lia].
  - destruct s as [|c rest]; [reflexivity|].
    simpl in Hn.
    assert (Hrest : joinLF (splitLines rest) = crlfToLf rest)
      by (apply IH; lia).
    cbn [splitLines crlfToLf].
    destruct (N.eqb c LF) eqn:Hlf.
    + apply N.eqb_eq in Hlf. subst c.
      rewrite joinLF_cons by apply splitLines_not_nil.
      rewrite Hrest. simpl.
      destruct rest; reflexivity.
    + destruct rest as [|d rest'].
      * reflexivity.
      * destruct (N.eqb c CR && N.eqb d LF) eqn:Hcr.
        -- rewrite joinLF_cons by apply splitLines_not_nil.
           simpl. f_equal. apply IH. simpl in Hn. lia.
        -- rewrite joinLF_consHead by apply splitLines_not_nil.
           rewrite Hrest. reflexivity.
Qed.

(** Splitting at line ends and joining with LF replaces CR LF by LF. *)
Lemma joinLF_splitLines : forall s, joinLF (splitLines s) = crlfToLf s.
Proof. intros s. apply joinLF_splitLines_aux with (n := List.length s). lia. Qed.

Lemma crlfToLf_no_CR : forall s,
    forallb (fun c => negb (N.eqb c CR)) s = true -> crlfToLf s = s.
Proof.
  induction s as [|c rest IH]; intros H; [reflexivity|].
  simpl in H. apply andb_true_iff in H. destruct H as [Hc Hr].
  cbn [crlfToLf]. destruct rest as [|d rest']; [reflexivity|].
  apply negb_true_iff in Hc. rewrite Hc. simpl andb. cbv iota.
  f_equal. apply IH. exact Hr.
Qed.

(** ** The loop of the line patcher *)

Lemma escapeKey_no_class : forall key,
    forallb (fun c => negb (inEscapeClass c)) key = true ->
    escapeKey key = key.
Proof.
  induction key as [|c rest IH]; intros H; [reflexivity|].
  cbn [forallb] in H. apply andb_true_iff in H. destruct H as [Hc Hr].
  apply negb_true_iff in Hc.
  cbn [escapeKey]. rewrite Hc, (IH Hr). cbn [andb].
  destruct rest as [|b1 [|b2 [|r rest']]]; reflexivity.
Qed.

Lemma syntax_of_class : forall c, inEscapeClass c = true -> isSyntaxChar c = true.
Proof.
  intros c. unfold inEscapeClass, isSyntaxChar, oneOf.
  rewrite !existsb_exists. intros (x & Hx & E).
  exists x. split; [|exact E].
  simpl in Hx. simpl. intuition.
Qed.

(** The call does not escape a key such as [a.b]. *)
Example escapeKey_leaves_dot : escapeKey (u "a.b") = u "a.b".
Proof. reflexivity. Qed.

(** A key that stands for itself goes into the pattern as it is. *)
Lemma escapeKey_plain : forall key, plainKey key = true -> escapeKey key = key.
Proof.
  intros key H. apply escapeKey_no_class.
  unfold plainKey in H. rewrite forallb_forall in *.
  intros c Hc. specialize (H c Hc).
  destruct (inEscapeClass c) eqn:E; [|reflexivity].
  apply syntax_of_class in E. rewrite E in H. discriminate H.
Qed.

Section PatcherProperties.

Variable RegExp_keyRe : str -> option (str -> option caps).

Abbreviation scan := (scanLines RegExp_keyRe).

(** The test for a header after the key test never holds. *)
Lemma test_header_dead : forall line,
    exec sectionHeaderRe line = None -> test sectionHeaderRe line = false.
Proof. intros line H. unfold test. rewrite H. reflexivity. Qed.

Abbreviation next := (goOn RegExp_keyRe).

Lemma scanLines_cons : forall T key v b line rest,
    scan T key v b (line :: rest) =
    match exec sectionHeaderRe line with
    | Some m => next T key v (str_eqb (trim (cap 1 m)) T) line rest
    | None =>
        if b then
          match RegExp_keyRe (escapeKey key) with
          | None => None
          | Some keyRe_match =>
              match keyRe_match line with
              | Some km => Some (rewritten key v km :: rest, true)
              | None => next T key v b line rest
              end
          end
        else next T key v b line rest
    end.
Proof.
  intros T key v b line rest. cbn [scanLines]. unfold goOn.
  destruct (exec sectionHeaderRe line) as [m|] eqn:Hh; [reflexivity|].
  rewrite (test_header_dead _ Hh).
  destruct b; reflexivity.
Qed.

(** A miss leaves every line as it was. *)
Lemma scanLines_unpatched : forall T key v ls b ls',
    scan T key v b ls = Some (ls', false) -> ls' = ls.
Proof.
  intros T key v ls.
  induction ls as [|line rest IH]; intros b ls' H.
  - simpl in H. congruence.
  - rewrite scanLines_cons in H. unfold goOn in H.
    destruct (exec sectionHeaderRe line) as [m|].
    + destruct (scan T key v (str_eqb (trim (cap 1 m)) T) rest)
        as [[r p]|] eqn:Hr; [|discriminate].
      inversion H; subst. f_equal. eapply IH. exact Hr.
    + destruct b.
      * destruct (RegExp_keyRe (escapeKey key)) as [km_of|]; [|discriminate].
        destruct (km_of line); [discriminate|].
        destruct (scan T key v true rest) as [[r p]|] eqn:Hr; [|discriminate].
        inversion H; subst. f_equal. eapply IH. exact Hr.
      * destruct (scan T key v false rest) as [[r p]|] eqn:Hr; [|discriminate].
        inversion H; subst. f_equal. eapply IH. exact Hr.
Qed.

(** A hit rewrites the first line that the key pattern matches inside the
    target section, and no other line. *)
Lemma scanLines_patched : forall T key v ls b ls',
    scan T key v b ls = Some (ls', true) ->
    exists pre line post keyRe_match km,
      ls = pre ++ line :: post /\
      RegExp_keyRe (escapeKey key) = Some keyRe_match /\
      noAssignment T keyRe_match b pre = true /\
      stateAfter T b pre = true /\
      exec sectionHeaderRe line = None /\
      keyRe_match line = Some km /\
      ls' = pre ++ rewritten key v km :: post.
Proof.
  intros T key v ls.
  induction ls as [|line rest IH]; intros b ls' H.
  - simpl in H. congruence.
  - rewrite scanLines_cons in H. unfold goOn in H.
    destruct (exec sectionHeaderRe line) as [m|] eqn:Hh.
    + destruct (scan T key v (str_eqb (trim (cap 1 m)) T) rest)
        as [[r p]|] eqn:Hr; [|discriminate].
      inversion H; subst.
      destruct (IH _ _ Hr)
        as (pre & l & post & km_of & km & E & Hc & Hno & Hst & Hl & Hm & E').
      exists (line :: pre), l, post, km_of, km. subst.
      unfold stateAfter in *. cbn [noAssignment fold_left].
      unfold assignsKey, headerState. rewrite Hh.
      repeat split; auto.
    + destruct b.
      * destruct (RegExp_keyRe (escapeKey key)) as [km_of|] eqn:Hc;
          [|discriminate].
        destruct (km_of line) as [km|] eqn:Hm.
        -- inversion H; subst.
           exists [], line, rest, km_of, km. repeat split; auto.
        -- destruct (scan T key v true rest) as [[r p]|] eqn:Hr;
             [|discriminate].
           inversion H; subst.
           destruct (IH _ _ Hr)
             as (pre & l & post & km_of' & km & E & Hc' & Hno & Hst & Hl
                 & Hm' & E').
           assert (km_of' = km_of) by congruence. subst km_of'.
           exists (line :: pre), l, post, km_of, km. subst.
           unfold stateAfter in *. cbn [noAssignment fold_left].
           unfold assignsKey, headerState. rewrite Hh, Hm.
           repeat split; auto.
      * destruct (scan T key v false rest) as [[r p]|] eqn:Hr; [|discriminate].
        inversion H; subst.
        destruct (IH _ _ Hr)
          as (pre & l & post & km_of & km & E & Hc & Hno & Hst & Hl & Hm & E').
        exists (line :: pre), l, post, km_of, km. subst.
        unfold stateAfter in *. cbn [noAssignment fold_left].
        unfold assignsKey, headerState. rewrite Hh.
        repeat split; auto.
Qed.

Lemma scanLines_first : forall T key v keyRe_match pre b line post km,
    RegExp_keyRe (escapeKey key) = Some keyRe_match ->
    noAssignment T keyRe_match b pre = true ->
    stateAfter T b pre = true ->
    exec sectionHeaderRe line = None ->
    keyRe_match line = Some km ->
    scan T key v b (pre ++ line :: post) =
    Some (pre ++ rewritten key v km :: post, true).
Proof.
  intros T key v km_of pre.
  induction pre as [|l pre IH]; intros b line post km Hc Hno Hst Hh Hm.
  - simpl in Hst. subst b. simpl app.
    rewrite scanLines_cons, Hh, Hc, Hm. reflexivity.
  - cbn [noAssignment] in Hno. apply andb_true_iff in Hno.
    destruct Hno as [Ha Hno]. apply negb_true_iff in Ha.
    unfold stateAfter in Hst. cbn [fold_left] in Hst.
    simpl app. rewrite scanLines_cons. unfold goOn.
    unfold assignsKey in Ha. unfold headerState in Hno, Hst.
    destruct (exec sectionHeaderRe l) as [m|].
    + rewrite (IH _ line post km Hc Hno Hst Hh Hm). reflexivity.
    + destruct b; cbn [andb] in Ha.
      * rewrite Hc. destruct (km_of l); [discriminate|].
        rewrite (IH _ line post km Hc Hno Hst Hh Hm). reflexivity.
      * rewrite (IH _ line post km Hc Hno Hst Hh Hm). reflexivity.
Qed.

(** The flag is true at a rewritten line: lines that follow a header other
    than the target (up to the next header) are never rewritten. *)
Lemma scanLines_frame : forall T key v ls b ls' p,
    scan T key v b ls = Some (ls', p) ->
    forall i line,
      nth_error ls i = Some line ->
      stateAfter T b (firstn i ls) = false ->
      nth_error ls' i = Some line.
Proof.
  intros T key v ls b ls' p H i line Hi Hst.
  destruct p.
  - destruct (scanLines_patched _ _ _ _ _ H)
      as (pre & l & post & km_of & km & E & Hc & Hno & Hs & Hh & Hm & E').
    subst ls ls'.
    destruct (Nat.lt_trichotomy i (List.length pre)) as [Hlt|[Heq|Hgt]].
    + rewrite nth_error_app1 in * by assumption. exact Hi.
    + subst i. rewrite firstn_app, firstn_all, Nat.sub_diag in Hst.
      simpl in Hst. rewrite app_nil_r in Hst. congruence.
    + rewrite nth_error_app2 in * by lia.
      destruct (i - List.length pre) as [|j] eqn:Hj; [lia|]. exact Hi.
  - apply scanLines_unpatched in H. subst. exact Hi.
Qed.

End PatcherProperties.

(** ** The matcher: first choices *)

Lemma firstn_consumed : forall (w s : str),
    firstn (List.length (w ++ s) - List.length s) (w ++ s) = w.
Proof.
  intros w s. rewrite length_app.
  replace (List.length w + List.length s - List.length s)
    with (List.length w + 0) by lia.
  rewrite firstn_app_2. simpl. apply app_nil_r.
Qed.

Lemma starG_first : forall p w s k res,
    forallb p w = true -> stops p s -> k s = Some res ->
    starG p (w ++ s) k = Some res.
Proof.
  intros p w s k res Hw Hs Hk.
  induction w as [|x w IH].
  - simpl. destruct s as [|y s']; simpl in *.
    + exact Hk.
    + rewrite Hs. exact Hk.
  - simpl in Hw. apply andb_true_iff in Hw. destruct Hw as [Hx Hw].
    simpl. rewrite Hx, (IH Hw). reflexivity.
Qed.

Lemma fm_Eps : forall s c, first_match Eps [] s c c.
Proof. intros s c k res H. exact H. Qed.

Lemma fm_Cls : forall p x s c, p x = true -> first_match (Cls p) [x] s c c.
Proof. intros p x s c Hp k res H. simpl. rewrite Hp. exact H. Qed.

Lemma fm_StarG : forall p w s c,
    forallb p w = true -> stops p s -> first_match (StarG p) w s c c.
Proof.
  intros p w s c Hw Hs k res H. simpl.
  apply starG_first; assumption.
Qed.

Lemma fm_StarL_nil : forall p s c, first_match (StarL p) [] s c c.
Proof.
  intros p s c k res H. simpl.
  destruct s; simpl; rewrite H; reflexivity.
Qed.

Lemma fm_Seq : forall a b w1 w2 s c c' c'',
    first_match a w1 (w2 ++ s) c c' ->
    first_match b w2 s c' c'' ->
    first_match (Seq a b) (w1 ++ w2) s c c''.
Proof.
  intros a b w1 w2 s c c' c'' Ha Hb k res H.
  rewrite <- app_assoc. simpl. apply Ha. apply Hb. exact H.
Qed.

Lemma fm_Opt : forall a w s c c',
    first_match a w s c c' -> first_match (Opt a) w s c c'.
Proof.
  intros a w s c c' Ha k res H. simpl. rewrite (Ha k res H). reflexivity.
Qed.


Lemma fm_Grp : forall n a w s c c',
    first_match a w s c c' -> first_match (Grp n a) w s c ((n, w) :: c').
Proof.
  intros n a w s c c' Ha k res H. simpl. apply Ha.
  rewrite firstn_consumed. exact H.
Qed.

Lemma fm_lit : forall w s c, first_match (lit w) w s c c.
Proof.
  induction w as [|x w IH]; intros s c.
  - apply fm_Eps.
  - change (x :: w) with ([x] ++ w). simpl lit.
    eapply fm_Seq; [apply fm_Cls; apply N.eqb_refl|apply IH].
Qed.

Lemma first_match_exec : forall r w c',
    first_match r w [] [] c' -> exec r w = Some c'.
Proof.
  intros r w c' H. unfold exec.
  rewrite <- (app_nil_r w) at 1. apply H. reflexivity.
Qed.

(** ** The matcher: what a match says *)

Lemma starG_sound : forall p s k res,
    starG p s k = Some res ->
    exists w s', s = w ++ s' /\ forallb p w = true /\ k s' = Some res.
Proof.
  intros p s k res. induction s as [|x s IH]; intros H.
  - exists [], []. simpl in H. auto.
  - simpl in H. destruct (p x) eqn:Hp.
    + destruct (starG p s k) as [r|] eqn:Hs.
      * inversion H; subst.
        destruct (IH eq_refl) as (w & s' & E & Hw & Hk).
        exists (x :: w), s'. subst. simpl. rewrite Hp. auto.
      * exists [], (x :: s). auto.
    + exists [], (x :: s). auto.
Qed.

Lemma starL_sound : forall p s k res,
    starL p s k = Some res ->
    exists w s', s = w ++ s' /\ forallb p w = true /\ k s' = Some res.
Proof.
  intros p s k res. induction s as [|x s IH]; intros H.
  - simpl in H. destruct (k []) eqn:Hk; [|discriminate].
    exists [], []. inversion H; subst. auto.
  - simpl in H. destruct (k (x :: s)) eqn:Hk.
    + inversion H; subst. exists [], (x :: s). auto.
    + destruct (p x) eqn:Hp; [|discriminate].
      destruct (IH H) as (w & s' & E & Hw & Hk').
      exists (x :: w), s'. subst. simpl. rewrite Hp. auto.
Qed.

Lemma rmatch_sound : forall r s c k res,
    rmatch r s c k = Some res ->
    exists w s' c', s = w ++ s' /\ den r w c c' /\ k s' c' = Some res.
Proof.
  induction r as [|p|a IHa b IHb|a IHa b IHb|a IHa|p|p|n a IHa];
    intros s c k res H; simpl in H.
  - exists [], s, c. repeat split; auto. constructor.
  - destruct s as [|x s]; [discriminate|].
    destruct (p x) eqn:Hp; [|discriminate].
    exists [x], s, c. repeat split; auto. constructor. exact Hp.
  - destruct (IHa _ _ _ _ H) as (w1 & s1 & c1 & E1 & D1 & K1).
    destruct (IHb _ _ _ _ K1) as (w2 & s2 & c2 & E2 & D2 & K2).
    exists (w1 ++ w2), s2, c2. subst. rewrite <- app_assoc.
    repeat split; auto. econstructor; eassumption.
  - destruct (rmatch a s c k) as [r|] eqn:Ha.
    + inversion H; subst.
      destruct (IHa _ _ _ _ Ha) as (w & s' & c' & E & D & K).
      exists w, s', c'. repeat split; auto. apply den_AltL. exact D.
    + destruct (IHb _ _ _ _ H) as (w & s' & c' & E & D & K).
      exists w, s', c'. repeat split; auto. apply den_AltR. exact D.
  - destruct (rmatch a s c k) as [r|] eqn:Ha.
    + inversion H; subst.
      destruct (IHa _ _ _ _ Ha) as (w & s' & c' & E & D & K).
      exists w, s', c'. repeat split; auto. apply den_OptSome. exact D.
    + exists [], s, c. repeat split; auto. apply den_OptNone.
  - destruct (starG_sound _ _ _ H) as (w & s' & E & Hw & K).
    exists w, s', c. repeat split; auto. constructor. exact Hw.
  - destruct (starL_sound _ _ _ H) as (w & s' & E & Hw & K).
    exists w, s', c. repeat split; auto. constructor. exact Hw.
  - destruct (IHa _ _ _ _ H) as (w & s' & c' & E & D & K).
    exists w, s', ((n, w) :: c'). subst. rewrite firstn_consumed in K.
    repeat split; auto. constructor. exact D.
Qed.

Lemma exec_sound : forall r s m, exec r s = Some m -> den r s [] m.
Proof.
  intros r s m H. unfold exec in H.
  destruct (rmatch_sound _ _ _ _ H) as (w & s' & c' & E & D & K).
  destruct s'; simpl in K; [|discriminate].
  inversion K; subst. rewrite app_nil_r. exact D.
Qed.

(** ** The key pattern on a line with a [#] after the equals sign *)

Lemma trimStart_split : forall s,
    exists ws, s = ws ++ trimStart s /\ forallb isSpace ws = true /\
               stops isSpace (trimStart s).
Proof.
  induction s as [|x s IH].
  - exists []. simpl. auto.
  - simpl. destruct (isSpace x) eqn:Hx.
    + destruct IH as (ws & E & Hw & Hs).
      exists (x :: ws). simpl. rewrite Hx, <- E. auto.
    + exists []. simpl. auto.
Qed.

Lemma forallb_trimStart : forall p s,
    forallb p s = true -> forallb p (trimStart s) = true.
Proof.
  intros p s H. destruct (trimStart_split s) as (ws & E & _ & _).
  rewrite E in H. rewrite forallb_app in H.
  apply andb_true_iff in H. tauto.
Qed.

Lemma stops_app : forall p w s, w <> [] -> stops p w -> stops p (w ++ s).
Proof. intros p [|x w] s Hn H; [congruence|exact H]. Qed.

Lemma stops_app_nil : forall p w s, stops p w -> stops p s -> stops p (w ++ s).
Proof. intros p [|x w] s Hw Hs; [exact Hs|exact Hw]. Qed.

Lemma keyRe_hash : forall key indent ws1 val rest,
    key <> [] -> stops isSpace key ->
    forallb isSpace indent = true ->
    forallb isSpace ws1 = true ->
    forallb (notChar HASH) val = true ->
    forallb isDot rest = true ->
    exec (keyRe key) (indent ++ key ++ ws1 ++ EQUALS :: val ++ HASH :: rest)
    = Some [(4, HASH :: rest); (5, HASH :: rest); (3, trimStart val);
            (2, key); (1, indent)].
Proof.
  intros key indent ws1 val rest Hk Hks Hi Hw Hv Hr.
  destruct (trimStart_split val) as (ws2 & E & Hws2 & Hst).
  pose proof (forallb_trimStart _ _ Hv) as Hv'.
  remember (trimStart val) as v eqn:Heqv.
  assert (F : first_match (keyRe key)
                (indent ++ key ++ ws1 ++ [EQUALS] ++ ws2 ++ v ++
                 [] ++ [HASH] ++ rest) [] []
                [(4, [] ++ [HASH] ++ rest); (5, [HASH] ++ rest); (3, v);
                 (2, key); (1, indent)]).
  { unfold keyRe.
    eapply fm_Seq.
    { apply fm_Grp, fm_StarG; [exact Hi|].
      rewrite <- app_assoc. apply stops_app; assumption. }
    eapply fm_Seq; [apply fm_Grp, fm_lit|].
    eapply fm_Seq; [apply fm_StarG; [exact Hw|reflexivity]|].
    eapply fm_Seq; [apply fm_Cls; reflexivity|].
    eapply fm_Seq.
    { apply fm_StarG; [exact Hws2|].
      rewrite <- app_assoc. apply stops_app_nil; [exact Hst|reflexivity]. }
    eapply fm_Seq.
    { apply fm_Grp, fm_StarG; [exact Hv'|reflexivity]. }
    apply fm_Grp.
    eapply fm_Seq; [apply fm_StarG; reflexivity|].
    apply fm_Opt, fm_Grp.
    eapply fm_Seq; [apply fm_Cls; reflexivity|].
    apply fm_StarG; [exact Hr|exact I]. }
  apply first_match_exec in F.
  rewrite E. simpl app in F.
  etransitivity; [|exact F]. f_equal.
  simpl. rewrite <- !app_assoc. reflexivity.
Qed.

(** ** The normalizer, line by line *)

Ltac inv_den :=
  repeat match goal with
         | H : den (Seq _ _) _ _ _ |- _ => inversion H; subst; clear H
         | H : den (Grp _ _) _ _ _ |- _ => inversion H; subst; clear H
         | H : den (Cls _) _ _ _ |- _ => inversion H; subst; clear H
         | H : den (StarG _) _ _ _ |- _ => inversion H; subst; clear H
         | H : den (StarL _) _ _ _ |- _ => inversion H; subst; clear H
         | H : den (Opt _) _ _ _ |- _ => inversion H; subst; clear H
         | H : den Eps _ _ _ |- _ => inversion H; subst; clear H
         end.

Lemma replaceAll_app : forall c by_ a b,
    replaceAll c by_ (a ++ b) = replaceAll c by_ a ++ replaceAll c by_ b.
Proof. intros. unfold replaceAll. apply flat_map_app. Qed.

(** The two [replace] calls escape each character on its own. *)
Lemma escape_replaceAll : forall s,
    replaceAll DQUOTE [BACKSLASH; DQUOTE]
      (replaceAll BACKSLASH [BACKSLASH; BACKSLASH] s)
    = flat_map escapeChar s.
Proof.
  induction s as [|x s IH]; [reflexivity|].
  change (replaceAll BACKSLASH [BACKSLASH; BACKSLASH] (x :: s))
    with ((if N.eqb x BACKSLASH then [BACKSLASH; BACKSLASH] else [x])
            ++ replaceAll BACKSLASH [BACKSLASH; BACKSLASH] s).
  rewrite replaceAll_app, IH. simpl flat_map. f_equal.
  unfold escapeChar. destruct (N.eqb x BACKSLASH); [reflexivity|].
  unfold replaceAll. simpl. rewrite app_nil_r. reflexivity.
Qed.

Lemma quoteTomlString_escape : forall s,
    quoteTomlString s = dq (flat_map escapeChar s).
Proof. intros s. unfold quoteTomlString, dq. rewrite escape_replaceAll. reflexivity. Qed.

Lemma valueStart_notHash : forall z,
    valueStart z = true -> notChar HASH z = true.
Proof.
  intros z H. unfold valueStart, noneOf, oneOf in H. cbn [existsb] in H.
  unfold notChar. rewrite N.eqb_sym.
  destruct (N.eqb z HASH); [discriminate H|reflexivity].
Qed.

Lemma trimStart_spaces_cons : forall w x r,
    forallb isSpace w = true -> isSpace x = false ->
    trimStart (w ++ x :: r) = x :: r.
Proof.
  induction w as [|y w IH]; intros x r Hw Hx.
  - cbn [app trimStart]. rewrite Hx. reflexivity.
  - cbn [forallb] in Hw. apply andb_true_iff in Hw. destruct Hw as [Hy Hw].
    cbn [app trimStart]. rewrite Hy. apply IH; assumption.
Qed.

Lemma notHashNorSpace_notSpace : forall x,
    notHashNorSpace x = true -> isSpace x = false.
Proof.
  intros x H. unfold notHashNorSpace in H.
  apply andb_true_iff in H. destruct H as [_ H].
  apply negb_true_iff in H. exact H.
Qed.

(** What a match of the assignment pattern says about the line. *)
Lemma assignRe_sound : forall line m,
    exec assignRe line = Some m ->
    exists lhs ws v ws' comment,
      cap 1 m = lhs ++ EQUALS :: ws /\
      cap 2 m = v /\
      cap 3 m = ws' ++ comment /\
      line = lhs ++ EQUALS :: ws ++ v ++ ws' ++ comment /\
      forallb isSpace ws = true /\
      forallb (notChar HASH) v = true /\
      forallb isSpace ws' = true /\
      (comment = [] \/ exists t, comment = HASH :: t) /\
      (exists x rest, trimStart lhs = x :: rest /\ notHashNorSpace x = true).
Proof.
  intros line m H. apply exec_sound in H. unfold assignRe in H.
  inv_den;
    repeat match goal with
           | He : isChar _ _ = true |- _ => apply N.eqb_eq in He; subst
           end;
    unfold cap; cbn [getcap Nat.eqb];
    match goal with
    | Hx : notHashNorSpace ?x1 = true, Hy : notEqNorSpace ?x0 = true,
      Hz : valueStart ?x2 = true,
      H0 : forallb isSpace ?w0 = true,
      H6 : forallb (notChar EQUALS) ?w6 = true,
      H5 : forallb (notChar HASH) ?w5 = true
      |- context [(?w0 ++ [?x1] ++ ?w6 ++ [?x0] ++ ?w8 ++ [EQUALS] ++ ?w11)
                    ++ ([?x2] ++ ?w5) ++ ?w2 ++ ?cm] =>
        exists (w0 ++ [x1] ++ w6 ++ [x0] ++ w8), w11, ([x2] ++ w5), w2, cm
    end.
  all: repeat split; try assumption; try reflexivity.
  all: try (rewrite <- !app_assoc; reflexivity).
  all: try (cbn [app forallb]; apply andb_true_iff; split;
            [apply valueStart_notHash; assumption|assumption]).
  all: try (right; eexists; reflexivity).
  all: try (left; reflexivity).
  all: try (do 2 eexists; split;
            [apply trimStart_spaces_cons;
             [assumption|apply notHashNorSpace_notSpace; eassumption]
            |assumption]).
Qed.

(** Every line is kept or has its bare value quoted. *)
Lemma relaxLine_relaxed : forall line, relaxedLine line (relaxLine line).
Proof.
  intros line. unfold relaxLine.
  destruct (test sectionHeaderTestRe line); [apply RL_same|].
  destruct (exec assignRe line) as [m|] eqn:Hm; [|apply RL_same].
  destruct (looksLikeBareString (cap 2 m)) eqn:Hb; [|apply RL_same].
  cbn [negb].
  destruct (assignRe_sound _ Hm)
    as (lhs & ws & v & ws' & cm & E1 & E2 & E3 & EL & Hws & Hv & Hws' & Hcm & _).
  rewrite escape_replaceAll, E1, E2, E3 in *.
  rewrite EL at 1.
  replace ((lhs ++ EQUALS :: ws) ++
           (DQUOTE :: flat_map escapeChar (trim v) ++ [DQUOTE]) ++ ws' ++ cm)
    with (lhs ++ EQUALS :: ws ++ dq (flat_map escapeChar (trim v)) ++ ws' ++ cm).
  - apply RL_quote; assumption.
  - unfold dq. rewrite <- !app_assoc. reflexivity.
Qed.


(** A header line has [[] as its first character after blanks. *)
Lemma sectionHeaderRe_sound : forall line m,
    exec sectionHeaderRe line = Some m ->
    exists rest, trimStart line = LBRACKET :: rest.
Proof.
  intros line m H. apply exec_sound in H. unfold sectionHeaderRe in H.
  inv_den.
  repeat match goal with
         | He : isChar _ _ = true |- _ => apply N.eqb_eq in He; subst
         end.
  eexists. cbn [app]. apply trimStart_spaces_cons; [assumption|reflexivity].
Qed.

(** A line that starts, after blanks, with a key that stands for itself
    is not a header. *)
Lemma plain_key_line_not_header : forall indent key rest,
    plainKey key = true -> key <> [] -> stops isSpace key ->
    forallb isSpace indent = true ->
    exec sectionHeaderRe (indent ++ key ++ rest) = None.
Proof.
  intros indent key rest Hp Hk Hs Hi.
  destruct (exec sectionHeaderRe (indent ++ key ++ rest)) as [m|] eqn:E;
    [|reflexivity].
  exfalso. apply sectionHeaderRe_sound in E. destruct E as (r & E).
  destruct key as [|c key]; [congruence|].
  cbn [stops] in Hs. cbn [app] in E.
  rewrite trimStart_spaces_cons in E by assumption.
  inversion E; subst c.
  unfold plainKey in Hp. cbn [forallb] in Hp.
  apply andb_true_iff in Hp. destruct Hp as [Hp _]. discriminate Hp.
Qed.

(** ** The differ *)

Lemma foldThrow_None : forall (A B : Type) (f : A -> B -> option A) l,
    foldThrow f l None = None.
Proof. intros A B f l. induction l as [|x l IH]; [reflexivity|exact IH]. Qed.

Lemma foldThrow_cons : forall (A B : Type) (f : A -> B -> option A) x l a,
    foldThrow f (x :: l) (Some a) = foldThrow f l (f a x).
Proof. reflexivity. Qed.

Lemma foldThrow_app : forall (A B : Type) (f : A -> B -> option A) l1 l2 a,
    foldThrow f (l1 ++ l2) a = foldThrow f l2 (foldThrow f l1 a).
Proof. intros. unfold foldThrow. apply fold_left_app. Qed.

Lemma foldThrow_ext_in : forall (A B : Type) (f g : A -> B -> option A) l a,
    (forall a x, In x l -> f a x = g a x) ->
    foldThrow f l a = foldThrow g l a.
Proof.
  intros A B f g l. induction l as [|x l IH]; intros a H; [reflexivity|].
  destruct a as [a|].
  - rewrite !foldThrow_cons. rewrite H by (left; reflexivity).
    apply IH. intros a' y Hy. apply H. right. exact Hy.
  - rewrite !foldThrow_None. reflexivity.
Qed.

Lemma flat_map_ext_in : forall (A B : Type) (f g : A -> list B) l,
    (forall x, In x l -> f x = g x) -> flat_map f l = flat_map g l.
Proof.
  intros A B f g l. induction l as [|x l IH]; intros H; [reflexivity|].
  simpl. rewrite H by (left; reflexivity). f_equal.
  apply IH. intros y Hy. apply H. right. exact Hy.
Qed.

Lemma existsb_str_In : forall k l,
    existsb (str_eqb k) l = true <-> In k l.
Proof.
  intros k l. rewrite existsb_exists. split.
  - intros (x & Hx & E). apply str_eqb_eq in E. subst. exact Hx.
  - intros H. exists k. split; [exact H|apply str_eqb_refl].
Qed.

Section WalkProperties.

Variable RegExp_keyRe : str -> option (str -> option caps).
Variable number : Type.
Variable Number_isFinite : number -> bool.
Variable Number_toString : number -> str.

Abbreviation walkF :=
  (walkPatchFuel RegExp_keyRe Number_isFinite Number_toString).
Abbreviation walk := (walkPatch RegExp_keyRe Number_isFinite Number_toString).
Abbreviation callsF := (patchCallsFuel Number_isFinite Number_toString).
Abbreviation calls := (patchCalls Number_isFinite Number_toString).
Abbreviation scalar := (valueToTomlScalar Number_isFinite Number_toString).
Abbreviation apply1 := (applyInstr RegExp_keyRe).
Abbreviation keysOf oldObj newObj :=
  (setOf [] (Object_keys oldObj ++ Object_keys newObj)).

Lemma depth_lookup : forall k (obj : table number) v,
    lookup k obj = Some v ->
    depth v <= list_max (map (fun kv => depth (snd kv)) obj).
Proof.
  intros k obj v. induction obj as [|[k' v'] obj IH]; intros H.
  - discriminate.
  - cbn [lookup] in H.
    change (list_max (map (fun kv => depth (snd kv)) ((k', v') :: obj)))
      with (Nat.max (depth v')
                    (list_max (map (fun kv => depth (snd kv)) obj))).
    destruct (str_eqb k k').
    + inversion H; subst. lia.
    + specialize (IH H). lia.
Qed.

Lemma walkStep_ext : forall W1 W2 (oldObj newObj : table number) p st k,
    (forall text o' n' p',
        lookup k oldObj = Some (JObj o') ->
        W1 text o' n' p' = W2 text o' n' p') ->
    walkStep RegExp_keyRe Number_isFinite Number_toString W1 oldObj newObj
             p st k =
    walkStep RegExp_keyRe Number_isFinite Number_toString W2 oldObj newObj
             p st k.
Proof.
  intros W1 W2 oldObj newObj p st k H. unfold walkStep.
  destruct (lookup k newObj) as [nv|]; destruct (lookup k oldObj) as [ov|];
    try reflexivity.
  destruct nv; destruct ov; try reflexivity.
  cbn [scalarOf valueToTomlScalar]. rewrite H; reflexivity.
Qed.

(** More fuel than the depth of the old tree changes nothing. *)
Lemma walkPatchFuel_stable : forall f (oldObj : table number),
    depth (JObj oldObj) <= f ->
    forall text newObj p,
      walkF f text oldObj newObj p = walk text oldObj newObj p.
Proof.
  induction f as [f IH] using lt_wf_ind.
  intros oldObj Hd text newObj p. unfold walkPatch.
  change (depth (JObj oldObj))
    with (S (list_max (map (fun kv => depth (snd kv)) oldObj))) in *.
  destruct f as [|f']; [lia|].
  cbn [walkPatchFuel].
  apply foldThrow_ext_in. intros st k _.
  apply walkStep_ext. intros t o' n' p' Hl.
  pose proof (depth_lookup _ _ Hl) as Hc.
  rewrite (IH f') by lia.
  rewrite (IH (list_max (map (fun kv => depth (snd kv)) oldObj)))
    by lia.
  reflexivity.
Qed.

(** The recursive equation of [walkPatch], as the source has it. *)
Lemma walkPatch_eq : forall text (oldObj newObj : table number) p,
    walk text oldObj newObj p =
    foldThrow (walkStep RegExp_keyRe Number_isFinite Number_toString walk
                        oldObj newObj p)
              (keysOf oldObj newObj) (Some (mkWalkResult text false)).
Proof.
  intros text oldObj newObj p. unfold walkPatch at 1.
  change (depth (JObj oldObj))
    with (S (list_max (map (fun kv => depth (snd kv)) oldObj))).
  cbn [walkPatchFuel].
  apply foldThrow_ext_in. intros st k _.
  apply walkStep_ext. intros t o' n' p' Hl.
  apply walkPatchFuel_stable.
  apply depth_lookup in Hl. exact Hl.
Qed.

Lemma callsStep_ext : forall C1 C2 (oldObj newObj : table number) p k,
    (forall o' n' p',
        lookup k oldObj = Some (JObj o') -> C1 o' n' p' = C2 o' n' p') ->
    callsStep Number_isFinite Number_toString C1 oldObj newObj p k =
    callsStep Number_isFinite Number_toString C2 oldObj newObj p k.
Proof.
  intros C1 C2 oldObj newObj p k H. unfold callsStep.
  destruct (lookup k newObj) as [nv|]; destruct (lookup k oldObj) as [ov|];
    try reflexivity.
  destruct nv; destruct ov; try reflexivity.
  cbn [scalarOf valueToTomlScalar]. rewrite H; reflexivity.
Qed.

Lemma patchCallsFuel_stable : forall f (oldObj : table number),
    depth (JObj oldObj) <= f ->
    forall newObj p, callsF f oldObj newObj p = calls oldObj newObj p.
Proof.
  induction f as [f IH] using lt_wf_ind.
  intros oldObj Hd newObj p. unfold patchCalls.
  change (depth (JObj oldObj))
    with (S (list_max (map (fun kv => depth (snd kv)) oldObj))) in *.
  destruct f as [|f']; [lia|].
  cbn [patchCallsFuel].
  apply flat_map_ext_in. intros k _.
  apply callsStep_ext. intros o' n' p' Hl.
  pose proof (depth_lookup _ _ Hl) as Hc.
  rewrite (IH f') by lia.
  rewrite (IH (list_max (map (fun kv => depth (snd kv)) oldObj)))
    by lia.
  reflexivity.
Qed.

(** The recursive equation of the instructions. *)
Lemma patchCalls_eq : forall (oldObj newObj : table number) p,
    calls oldObj newObj p =
    flat_map (callsStep Number_isFinite Number_toString calls oldObj newObj p)
             (keysOf oldObj newObj).
Proof.
  intros oldObj newObj p. unfold patchCalls at 1.
  change (depth (JObj oldObj))
    with (S (list_max (map (fun kv => depth (snd kv)) oldObj))).
  cbn [patchCallsFuel].
  apply flat_map_ext_in. intros k _.
  apply callsStep_ext. intros o' n' p' Hl.
  apply patchCallsFuel_stable.
  apply depth_lookup in Hl. exact Hl.
Qed.

(** The flag only accumulates. *)
Lemma fold_applyInstr_flag : forall l t b,
    foldThrow apply1 l (Some (mkWalkResult t b)) =
    match foldThrow apply1 l (Some (mkWalkResult t false)) with
    | Some r => Some (mkWalkResult (wtext r) (b || patchedAny r))
    | None => None
    end.
Proof.
  induction l as [|i l IH]; intros t b.
  - simpl. rewrite orb_false_r. reflexivity.
  - rewrite !foldThrow_cons. unfold applyInstr. cbn [wtext patchedAny].
    destruct (patchScalarInSection RegExp_keyRe t (sectionPath i) (ikey i)
                                   (literal i)) as [res|].
    + rewrite (IH _ (b || _)), (IH _ (false || _)). cbn [orb].
      destruct (foldThrow apply1 l
                  (Some (mkWalkResult (ptext res) false))) as [r|];
        [|reflexivity].
      cbn [wtext patchedAny]. rewrite orb_assoc. reflexivity.
    + rewrite !foldThrow_None. reflexivity.
Qed.

(** [walkPatch] applies the instructions of the differ in order, up to
    the first call that throws. *)
Lemma walkPatchFuel_calls : forall f text (oldObj newObj : table number) p,
    walkF f text oldObj newObj p =
    foldThrow apply1 (callsF f oldObj newObj p)
              (Some (mkWalkResult text false)).
Proof.
  induction f as [|f IH]; intros text oldObj newObj p; [reflexivity|].
  cbn [walkPatchFuel patchCallsFuel].
  generalize (Some (mkWalkResult text false)) as st.
  induction (keysOf oldObj newObj) as [|k ks IHk]; intros st; [reflexivity|].
  cbn [flat_map]. rewrite foldThrow_app.
  destruct st as [st|].
  2:{ rewrite !foldThrow_None. reflexivity. }
  rewrite foldThrow_cons, IHk. f_equal.
  unfold walkStep, callsStep.
  destruct (scalarOf Number_isFinite Number_toString (lookup k newObj))
    as [ns|]; [destruct (scalarOf Number_isFinite Number_toString
                           (lookup k oldObj)) as [os|]|].
  - reflexivity.
  - destruct (lookup k newObj) as [[]|]; try reflexivity.
    destruct (lookup k oldObj) as [[]|]; try reflexivity.
    rewrite IH. destruct st as [t b].
    rewrite (fold_applyInstr_flag _ t b). reflexivity.
  - destruct (lookup k newObj) as [[]|]; try reflexivity.
    destruct (lookup k oldObj) as [[]|]; try reflexivity.
    rewrite IH. destruct st as [t b].
    rewrite (fold_applyInstr_flag _ t b). reflexivity.
Qed.

Lemma walkPatch_calls : forall text (oldObj newObj : table number) p,
    walk text oldObj newObj p =
    foldThrow apply1 (calls oldObj newObj p) (Some (mkWalkResult text false)).
Proof. intros. apply walkPatchFuel_calls. Qed.

Lemma setOf_In : forall ks seen k,
    In k (setOf seen ks) <-> In k ks /\ ~ In k seen.
Proof.
  induction ks as [|x ks IH]; intros seen k.
  - simpl. tauto.
  - cbn [setOf]. destruct (existsb (str_eqb x) seen) eqn:E.
    + apply existsb_str_In in E. rewrite IH. simpl.
      split; [tauto|]. intros [[->|H] Hn]; tauto.
    + assert (Hx : ~ In x seen).
      { intros H. apply existsb_str_In in H. congruence. }
      simpl. rewrite IH. simpl.
      destruct (list_eq_dec N.eq_dec x k) as [->|Hne]; [tauto|].
      split; [tauto|]. intros [[H|H] Hn]; [congruence|].
      right. split; [exact H|]. intros [H'|H']; [congruence|tauto].
Qed.

Lemma lookup_In_keys : forall k (obj : table number) v,
    lookup k obj = Some v -> In k (Object_keys obj).
Proof.
  intros k obj v. induction obj as [|[k' v'] obj IH]; intros H.
  - discriminate.
  - cbn [lookup] in H. simpl. destruct (str_eqb k k') eqn:E.
    + apply str_eqb_eq in E. left. congruence.
    + right. apply IH. exact H.
Qed.

Lemma scalarOf_Some : forall (ov : option (Json number)) l,
    scalarOf Number_isFinite Number_toString ov = Some l ->
    exists v, ov = Some v /\ scalar v = Some l.
Proof.
  intros [v|] l H; [|discriminate]. exists v. auto.
Qed.

(** Instructions of nested tables carry a longer section path. *)
Lemma patchCallsFuel_prefix : forall f (oldObj newObj : table number) p i,
    In i (callsF f oldObj newObj p) ->
    exists sfx, sectionPath i = p ++ sfx.
Proof.
  induction f as [|f IH]; intros oldObj newObj p i H; [destruct H|].
  cbn [patchCallsFuel] in H. apply in_flat_map in H.
  destruct H as (k & _ & H). unfold callsStep in H.
  destruct (scalarOf Number_isFinite Number_toString (lookup k newObj));
    [destruct (scalarOf Number_isFinite Number_toString (lookup k oldObj))|].
  - destruct H as [<-|[]]. exists []. simpl. rewrite app_nil_r. reflexivity.
  - destruct (lookup k newObj) as [[]|]; try destruct H.
    destruct (lookup k oldObj) as [[]|]; try destruct H.
    apply IH in H. destruct H as (sfx & E).
    exists ([k] ++ sfx). rewrite E, <- app_assoc. reflexivity.
  - destruct (lookup k newObj) as [[]|]; try destruct H.
    destruct (lookup k oldObj) as [[]|]; try destruct H.
    apply IH in H. destruct H as (sfx & E).
    exists ([k] ++ sfx). rewrite E, <- app_assoc. reflexivity.
Qed.

(** The instructions at the current section path are those of the keys
    that are scalars in both trees. *)
Lemma calls_at_path : forall (oldObj newObj : table number) p k lit,
    In (mkInstr p k lit) (calls oldObj newObj p) <->
    exists ov nv lo,
      lookup k oldObj = Some ov /\ lookup k newObj = Some nv /\
      scalar ov = Some lo /\ scalar nv = Some lit.
Proof.
  intros oldObj newObj p k lit. rewrite patchCalls_eq. split.
  - intros H. apply in_flat_map in H. destruct H as (k' & _ & H).
    unfold callsStep in H.
    destruct (scalarOf Number_isFinite Number_toString (lookup k' newObj))
      as [ns|] eqn:En;
      [destruct (scalarOf Number_isFinite Number_toString (lookup k' oldObj))
        as [os|] eqn:Eo|].
    + destruct H as [E|[]]. inversion E; subst.
      apply scalarOf_Some in En. apply scalarOf_Some in Eo.
      destruct En as (nv & -> & Hn). destruct Eo as (ov & -> & Ho).
      exists ov, nv, os. auto.
    + destruct (lookup k' newObj) as [[]|]; try destruct H.
      destruct (lookup k' oldObj) as [[]|]; try destruct H.
      apply patchCallsFuel_prefix in H. destruct H as (sfx & E).
      cbn [sectionPath] in E. apply (f_equal (@List.length str)) in E.
      rewrite !length_app in E. simpl in E. lia.
    + destruct (lookup k' newObj) as [[]|]; try destruct H.
      destruct (lookup k' oldObj) as [[]|]; try destruct H.
      apply patchCallsFuel_prefix in H. destruct H as (sfx & E).
      cbn [sectionPath] in E. apply (f_equal (@List.length str)) in E.
      rewrite !length_app in E. simpl in E. lia.
  - intros (ov & nv & lo & Ho & Hn & So & Sn).
    apply in_flat_map. exists k. split.
    + apply setOf_In. split; [|intros []].
      apply in_or_app. left. eapply lookup_In_keys. exact Ho.
    + unfold callsStep. rewrite Ho, Hn. cbn [scalarOf].
      rewrite So, Sn. left. reflexivity.
Qed.

(** Every scalar leaf of a tree compared with itself gives an
    instruction. *)
Lemma calls_scalarLeaf : forall path (tree : table number) acc k lit,
    scalarLeaf Number_isFinite Number_toString tree path k lit ->
    In (mkInstr (acc ++ path) k lit) (calls tree tree acc).
Proof.
  induction path as [|t path IH]; intros tree acc k lit H.
  - destruct H as (v & Hl & Hs). rewrite app_nil_r.
    apply calls_at_path. exists v, v, lit. auto.
  - destruct H as (sub & Hl & Hs).
    rewrite patchCalls_eq. apply in_flat_map. exists t. split.
    + apply setOf_In. split; [|intros []].
      apply in_or_app. left. eapply lookup_In_keys. exact Hl.
    + unfold callsStep. rewrite Hl. cbn [scalarOf valueToTomlScalar].
      specialize (IH sub (acc ++ [t]) k lit Hs).
      rewrite <- app_assoc in IH. exact IH.
Qed.

(** ** Claims about the differ and the serializer *)

(** C7.  Scalar serializer mapping: [valueToTomlScalar] gives "true" or
    "false" for a boolean, the default text of a finite number and "0"
    for a number that is not finite, a string between double quotes
    with each backslash and each double quote preceded by a backslash,
    the text null for the null value, and no literal exactly when the
    value is an array or a table. *)
Theorem C7_scalar_serializer_mapping : forall v : Json number,
    scalar v =
    match v with
    | JNull => Some (u "null")
    | JBool true => Some (u "true")
    | JBool false => Some (u "false")
    | JNum n =>
        Some (if Number_isFinite n then Number_toString n else u "0")
    | JStr s => Some (dq (flat_map escapeChar s))
    | JArr _ => None
    | JObj _ => None
    end
    /\ (scalar v = None <-> isComposite v = true).
Proof.
  intros v. split.
  - destruct v as [|[]| | | |]; try reflexivity.
    cbn [valueToTomlScalar]. rewrite quoteTomlString_escape. reflexivity.
  - destruct v; cbn [valueToTomlScalar isComposite];
      split; intros H; try discriminate H; reflexivity.
Qed.

(** C3, as the code has it.  The differ calls the line patcher for a key
    at the current section path exactly when the key is a scalar in the
    old and in the new tree, with the literal of the new value; the two
    literals are not compared. *)
Theorem C3_instruction_iff_scalar_in_both :
  forall (oldObj newObj : table number) pathAcc k lit,
    In (mkInstr pathAcc k lit) (calls oldObj newObj pathAcc) <->
    exists ov nv lo,
      lookup k oldObj = Some ov /\ lookup k newObj = Some nv /\
      scalar ov = Some lo /\ scalar nv = Some lit.
Proof.
  intros oldObj newObj pathAcc k lit. split; intros H.
  - apply calls_at_path in H. exact H.
  - apply calls_at_path. exact H.
Qed.

End WalkProperties.

(** ** Claims about the save decision *)

(** C1.  The save of an edit that changes a scalar and removes an array
    element: the structural change does not force the fallback, the
    patched text is written with preserved true and the array keeps its
    old elements. *)
Theorem C1_structural_change_keeps_patch :
  Demo.toml_parse Demo.doc_tags = Some Demo.tree_tags /\
  Demo.handleSave true (Some Demo.doc_tags) Demo.edit_tags =
  (joinLF [u "port = 9090"; u "tags = [1, 2]"], true).
Proof. split; vm_compute; reflexivity. Qed.

(** C2 fails as stated: saving the unchanged tree of [port=8080] rewrites
    the line, and saving the unchanged tree of a document without scalar
    keys is a fallback with preserved false. *)
Lemma C2_counterexample :
  Demo.toml_parse Demo.doc_port = Some Demo.tree_port /\
  Demo.handleSave true (Some Demo.doc_port) Demo.tree_port =
  (u "port = 8080", true) /\
  u "port = 8080" <> Demo.doc_port /\
  Demo.toml_parse Demo.doc_empty_table = Some Demo.tree_empty_table /\
  snd (Demo.handleSave true (Some Demo.doc_empty_table)
                       Demo.tree_empty_table) = false.
Proof.
  repeat split; try (vm_compute; reflexivity).
  vm_compute. discriminate.
Qed.

(** C3 fails as stated: for the key [port], a scalar with the same literal
    8080 in both trees, the differ still emits an instruction. *)
Lemma C3_counterexample :
  Demo.valueToTomlScalar (JNum 8080%Z) = Some (u "8080") /\
  Demo.patchCalls Demo.tree_port Demo.tree_port [] =
  [mkInstr [] (u "port") (u "8080")].
Proof. split; vm_compute; reflexivity. Qed.

(** ** Claims about the line patcher *)

(** C4.  Patching [port] to 9090 in the line [port = 8080 # listen port]:
    the comment is kept, the blank before it is not. *)
Theorem C4_blank_before_comment_lost :
  Demo.patchScalarInSection Demo.doc_comment [] (u "port") (u "9090") =
  Some (mkPatchResult (u "port = 9090# listen port") true)
  /\ u "port = 9090# listen port" <> u "port = 9090 # listen port".
Proof. split; [vm_compute; reflexivity|vm_compute; discriminate]. Qed.

(** C5 fails as stated: on a text with a CR LF line end a miss returns the
    text with LF in its place. *)
Lemma C5_counterexample :
  Demo.patchScalarInSection Demo.doc_crlf [] (u "k") (u "1") =
  Some (mkPatchResult (u "a" ++ [LF] ++ u "b") false)
  /\ u "a" ++ [LF] ++ u "b" <> Demo.doc_crlf.
Proof. split; [vm_compute; reflexivity|vm_compute; discriminate]. Qed.

(** C6.  The text has the target header [b] twice.  The scan enters [b],
    meets the header [a] before any [host] line, and goes on: it enters
    the second [b] and rewrites the [host] line there, with patched true.
    The test for a header after the key test never holds. *)
Theorem C6_scan_goes_on_after_next_header :
  Demo.patchScalarInSection Demo.doc_reentry [u "b"] (u "host") (u "9") =
  Some (mkPatchResult
          (joinLF [u "[b]"; u "port = 1"; u "[a]"; u "host = 1"; u "[b]";
                   u "host = 9"]) true)
  /\ (forall line, exec sectionHeaderRe line = None ->
                   test sectionHeaderRe line = false).
Proof. split; [vm_compute; reflexivity|exact test_header_dead]. Qed.

(** Section disambiguation: patching [host] of [b] leaves [host] of [a]. *)
Example two_sections_host :
  Demo.patchScalarInSection Demo.doc_two_sections [u "b"] (u "host") (u "9") =
  Some (mkPatchResult
          (joinLF [u "[a]"; u "host = 1"; u "[b]"; u "host = 9"]) true).
Proof. vm_compute. reflexivity. Qed.

Section PatcherClaims.

Variable RegExp_keyRe : str -> option (str -> option caps).

Abbreviation patch := (patchScalarInSection RegExp_keyRe).

(** C5, as the code has it.  When the line patcher returns without having
    found a matching assignment line, it returns patched false and the
    input text with every CR LF pair replaced by LF, which is the input
    text itself when it has no CR. *)
Theorem C5_miss_returns_text_with_lf :
  forall text sectionPath key newValToml r,
    patch text sectionPath key newValToml = Some r ->
    patched r = false ->
    ptext r = crlfToLf text
    /\ (forallb (fun c => negb (N.eqb c CR)) text = true -> ptext r = text).
Proof.
  intros text sectionPath key v r H Hp.
  unfold patchScalarInSection in H.
  destruct (scanLines RegExp_keyRe (joinDot sectionPath) key v
                      (Nat.eqb (List.length sectionPath) 0)
                      (splitLines text)) as [[ls p]|] eqn:Hs;
    [|discriminate].
  inversion H; subst r. cbn [patched ptext] in *. subst p.
  apply scanLines_unpatched in Hs. subst ls.
  rewrite joinLF_splitLines. split; [reflexivity|].
  apply crlfToLf_no_CR.
Qed.

(** C9.  Duplicate key: when the patcher returns, [patched] is true
    exactly when one line, the first one that the key pattern matches
    inside the target section, was rewritten, and a miss rewrites
    nothing; when the pattern matches two lines of the section, the
    patcher returns with the first rewritten and the second left as it
    was. *)
Theorem C9_duplicate_key_first_only : forall text sectionPath key newValToml,
    let T := joinDot sectionPath in
    let b0 := Nat.eqb (List.length sectionPath) 0 in
    (forall r,
        patch text sectionPath key newValToml = Some r ->
        (patched r = true <->
         exists pre line post keyRe_match km,
           splitLines text = pre ++ line :: post /\
           RegExp_keyRe (escapeKey key) = Some keyRe_match /\
           noAssignment T keyRe_match b0 pre = true /\
           assignsKey keyRe_match (stateAfter T b0 pre) line = true /\
           keyRe_match line = Some km /\
           ptext r = joinLF (pre ++ rewritten key newValToml km :: post))
        /\ (patched r = false -> ptext r = joinLF (splitLines text)))
    /\ (forall pre l1 mid l2 post keyRe_match km1,
           splitLines text = pre ++ l1 :: mid ++ l2 :: post ->
           RegExp_keyRe (escapeKey key) = Some keyRe_match ->
           noAssignment T keyRe_match b0 pre = true ->
           assignsKey keyRe_match (stateAfter T b0 pre) l1 = true ->
           keyRe_match l1 = Some km1 ->
           assignsKey keyRe_match (stateAfter T b0 (pre ++ l1 :: mid)) l2
           = true ->
           patch text sectionPath key newValToml =
           Some (mkPatchResult
                   (joinLF (pre ++ rewritten key newValToml km1
                                :: mid ++ l2 :: post)) true)).
Proof.
  intros text sectionPath key v T b0.
  assert (Hfirst : forall pre line post km_of km,
             splitLines text = pre ++ line :: post ->
             RegExp_keyRe (escapeKey key) = Some km_of ->
             noAssignment T km_of b0 pre = true ->
             assignsKey km_of (stateAfter T b0 pre) line = true ->
             km_of line = Some km ->
             patch text sectionPath key v =
             Some (mkPatchResult
                     (joinLF (pre ++ rewritten key v km :: post)) true)).
  { intros pre line post km_of km E Hc Hno Ha Hm.
    unfold patchScalarInSection. rewrite E.
    unfold assignsKey in Ha.
    destruct (exec sectionHeaderRe line) eqn:Hh; [discriminate|].
    apply andb_true_iff in Ha. destruct Ha as [Hst _].
    fold T. fold b0.
    erewrite scanLines_first; [reflexivity|eassumption..]. }
  split.
  - intros r Hr. split; [split|].
    + intros Hp. unfold patchScalarInSection in Hr. fold T in Hr. fold b0 in Hr.
      destruct (scanLines RegExp_keyRe T key v b0 (splitLines text))
        as [[ls p]|] eqn:Hs; [|discriminate].
      inversion Hr; subst r. cbn [patched ptext] in *. subst p.
      apply scanLines_patched in Hs.
      destruct Hs
        as (pre & line & post & km_of & km & E & Hc & Hno & Hst & Hh & Hm & E').
      exists pre, line, post, km_of, km. repeat split; auto.
      * unfold assignsKey. rewrite Hh, Hst, Hm. reflexivity.
      * rewrite E'. reflexivity.
    + intros (pre & line & post & km_of & km & E & Hc & Hno & Ha & Hm & _).
      rewrite (Hfirst _ _ _ _ _ E Hc Hno Ha Hm) in Hr.
      inversion Hr. reflexivity.
    + intros Hp. unfold patchScalarInSection in Hr. fold T in Hr. fold b0 in Hr.
      destruct (scanLines RegExp_keyRe T key v b0 (splitLines text))
        as [[ls p]|] eqn:Hs; [|discriminate].
      inversion Hr; subst r. cbn [patched ptext] in *. subst p.
      apply scanLines_unpatched in Hs. subst ls. reflexivity.
  - intros pre l1 mid l2 post km_of km1 E Hc Hno Ha Hm _.
    exact (Hfirst _ _ _ _ _ E Hc Hno Ha Hm).
Qed.

(** For a key that stands for itself [new RegExp] builds [keyRe]. *)
Hypothesis RegExp_plain : forall fragment,
    plainKey fragment = true ->
    RegExp_keyRe fragment = Some (exec (keyRe fragment)).

(** C10.  A line of the target section that assigns the key and has a [#]
    in its value text, [val] being the text before the first [#]: the
    match takes [val], without its leading blanks, as the value segment
    and everything from the [#] on as the trailing comment, so the
    rewritten line has the new literal followed by the [#] and the rest
    of the old value. *)
Theorem C10_hash_in_value_kept_as_comment :
  forall targetHeader key newValToml indent ws1 val rest more,
    plainKey key = true ->
    key <> [] -> stops isSpace key ->
    forallb isSpace indent = true ->
    forallb isSpace ws1 = true ->
    forallb (notChar HASH) val = true ->
    forallb isDot rest = true ->
    (exists keyRe_match km,
        RegExp_keyRe (escapeKey key) = Some keyRe_match
        /\ keyRe_match (indent ++ key ++ ws1 ++ EQUALS :: val ++ HASH :: rest)
           = Some km
        /\ cap 3 km = trimStart val /\ cap 4 km = HASH :: rest)
    /\ scanLines RegExp_keyRe targetHeader key newValToml true
         ((indent ++ key ++ ws1 ++ EQUALS :: val ++ HASH :: rest) :: more)
       = Some ((indent ++ key ++ u " = " ++ newValToml ++ HASH :: rest)
                 :: more, true).
Proof.
  intros T key v indent ws1 val rest more Hp Hk Hks Hi Hw Hv Hr.
  pose proof (@plain_key_line_not_header indent key
                (ws1 ++ EQUALS :: val ++ HASH :: rest) Hp Hk Hks Hi) as Hh.
  pose proof (@keyRe_hash key indent ws1 val rest Hk Hks Hi Hw Hv Hr) as Hm.
  assert (Hc : RegExp_keyRe (escapeKey key) = Some (exec (keyRe key))).
  { rewrite (escapeKey_plain _ Hp). apply RegExp_plain. exact Hp. }
  split.
  - exists (exec (keyRe key)). eexists.
    split; [exact Hc|]. split; [exact Hm|]. split; reflexivity.
  - rewrite scanLines_cons, Hh, Hc, Hm. reflexivity.
Qed.

End PatcherClaims.

Lemma Demo_RegExp_plain : forall fragment,
    plainKey fragment = true ->
    Demo.RegExp_keyRe fragment = Some (exec (keyRe fragment)).
Proof.
  intros fragment H. unfold Demo.RegExp_keyRe. rewrite H. reflexivity.
Qed.

Lemma C5_witness :
  ptext (mkPatchResult Demo.doc_two_sections false)
  = crlfToLf Demo.doc_two_sections
  /\ (forallb (fun c => negb (N.eqb c CR)) Demo.doc_two_sections = true ->
      ptext (mkPatchResult Demo.doc_two_sections false)
      = Demo.doc_two_sections).
Proof.
  apply (@C5_miss_returns_text_with_lf Demo.RegExp_keyRe
           Demo.doc_two_sections [u "b"] (u "port") (u "1")
           (mkPatchResult Demo.doc_two_sections false)).
  - vm_compute. reflexivity.
  - reflexivity.
Defined.

Lemma C9_witness :
  Demo.patchScalarInSection Demo.doc_duplicate [] (u "key") (u "9") =
  Some (mkPatchResult (joinLF [u "key = 9"; u "key = 2"]) true).
Proof.
  apply (proj2 (@C9_duplicate_key_first_only Demo.RegExp_keyRe
                  Demo.doc_duplicate [] (u "key") (u "9"))
           [] (u "key = 1") [] (u "key = 2") []
           (exec (keyRe (u "key")))
           [(4, []); (3, u "1"); (2, u "key"); (1, [])]);
    vm_compute; reflexivity.
Defined.

Lemma C10_witness :
  (exists keyRe_match km,
      Demo.RegExp_keyRe (escapeKey (u "name")) = Some keyRe_match
      /\ keyRe_match Demo.line_hash_value = Some km
      /\ cap 3 km = [DQUOTE; 97%N] /\ cap 4 km = HASH :: [98%N; DQUOTE])
  /\ scanLines Demo.RegExp_keyRe [] (u "name") (dq (u "c")) true
               [Demo.line_hash_value]
     = Some ([u "name = " ++ dq (u "c") ++ HASH :: [98%N; DQUOTE]], true).
Proof.
  apply (@C10_hash_in_value_kept_as_comment Demo.RegExp_keyRe
           Demo_RegExp_plain [] (u "name") (dq (u "c"))
           [] (u " ") (u " " ++ [DQUOTE; 97%N]) [98%N; DQUOTE] []);
    try (vm_compute; reflexivity).
  - discriminate.
Defined.


(** * Further properties of the code *)

(** ** [escapeHtml] *)

Lemma escapeHtml_chars : forall s, escapeHtml s = flat_map escapeHtmlChar s.
Proof.
  induction s as [|c s IH]; [reflexivity|].
  unfold escapeHtml in *.
  change (replaceAll AMP (u "&amp;") (c :: s))
    with ((if N.eqb c AMP then u "&amp;" else [c])
            ++ replaceAll AMP (u "&amp;") s).
  rewrite !replaceAll_app, IH. cbn [flat_map]. f_equal.
  unfold escapeHtmlChar.
  destruct (N.eqb c AMP) eqn:Ea; [reflexivity|].
  destruct (N.eqb c LT) eqn:El.
  { apply N.eqb_eq in El. subst c. reflexivity. }
  destruct (N.eqb c GT) eqn:Eg.
  { apply N.eqb_eq in Eg. subst c. reflexivity. }
  unfold replaceAll. cbn [flat_map app]. rewrite El. cbn [flat_map app].
  rewrite Eg. cbn [flat_map app].
  destruct (N.eqb c DQUOTE); reflexivity.
Qed.

(** X1.  The result of [escapeHtml] has no [<], no [>] and no double
    quote in it. *)
Theorem X1_escapeHtml_no_markup : forall s c,
    In c (escapeHtml s) -> c <> LT /\ c <> GT /\ c <> DQUOTE.
Proof.
  intros s c H. rewrite escapeHtml_chars in H.
  apply in_flat_map in H. destruct H as (x & _ & H).
  unfold escapeHtmlChar in H.
  destruct (N.eqb x AMP) eqn:Ea.
  { simpl in H. repeat (destruct H as [H|H]; [subst c; repeat split; discriminate|]).
    destruct H. }
  destruct (N.eqb x LT) eqn:El.
  { simpl in H. repeat (destruct H as [H|H]; [subst c; repeat split; discriminate|]).
    destruct H. }
  destruct (N.eqb x GT) eqn:Eg.
  { simpl in H. repeat (destruct H as [H|H]; [subst c; repeat split; discriminate|]).
    destruct H. }
  destruct (N.eqb x DQUOTE) eqn:Eq.
  { simpl in H. repeat (destruct H as [H|H]; [subst c; repeat split; discriminate|]).
    destruct H. }
  destruct H as [H|[]]. subst x.
  repeat split; intros E; subst c; discriminate.
Qed.

(** X2.  Reading the four entities back gives the text that was escaped:
    [escapeHtml] loses nothing. *)
Theorem X2_escapeHtml_round_trip : forall s, unescapeHtml (escapeHtml s) = s.
Proof.
  intros s. rewrite escapeHtml_chars. unfold unescapeHtml.
  induction s as [|c s IH]; [reflexivity|].
  cbn [flat_map]. unfold escapeHtmlChar at 1.
  destruct (N.eqb c AMP) eqn:Ea.
  { apply N.eqb_eq in Ea. subst c. cbn. f_equal. exact IH. }
  destruct (N.eqb c LT) eqn:El.
  { apply N.eqb_eq in El. subst c. cbn. f_equal. exact IH. }
  destruct (N.eqb c GT) eqn:Eg.
  { apply N.eqb_eq in Eg. subst c. cbn. f_equal. exact IH. }
  destruct (N.eqb c DQUOTE) eqn:Eq.
  { apply N.eqb_eq in Eq. subst c. cbn. f_equal. exact IH. }
  cbn [app unescapeFrom]. rewrite Ea, IH. reflexivity.
Qed.

(** ** [quoteTomlString] *)

Lemma unescapeToml_escape : forall s,
    unescapeToml (flat_map escapeChar s) = Some s.
Proof.
  induction s as [|c s IH]; [reflexivity|].
  cbn [flat_map]. unfold escapeChar at 1.
  destruct (N.eqb c BACKSLASH) eqn:Eb.
  { apply N.eqb_eq in Eb. subst c. cbn [app unescapeToml].
    change (N.eqb BACKSLASH BACKSLASH) with true. cbn [orb].
    rewrite IH. reflexivity. }
  destruct (N.eqb c DQUOTE) eqn:Eq.
  { apply N.eqb_eq in Eq. subst c. cbn [app unescapeToml].
    change (N.eqb BACKSLASH BACKSLASH) with true.
    change (N.eqb DQUOTE BACKSLASH) with false.
    change (N.eqb DQUOTE DQUOTE) with true. cbn [orb].
    rewrite IH. reflexivity. }
  cbn [app unescapeToml]. rewrite Eb, Eq, IH. reflexivity.
Qed.

(** X3.  The literal of a string reads back as the string: it starts and
    ends with a double quote, has no double quote in between that is not
    escaped, and undoing the two escapes restores the string. *)
Theorem X3_quoteTomlString_round_trip : forall s,
    unquoteToml (quoteTomlString s) = Some s.
Proof.
  intros s. rewrite quoteTomlString_escape. unfold dq, unquoteToml.
  rewrite N.eqb_refl, rev_app_distr. cbn [rev app].
  rewrite N.eqb_refl, rev_involutive. apply unescapeToml_escape.
Qed.

Lemma X1_witness :
  In AMP (escapeHtml (u "<a>")) /\
  (AMP <> LT /\ AMP <> GT /\ AMP <> DQUOTE).
Proof.
  assert (H : In AMP (escapeHtml (u "<a>"))) by (left; reflexivity).
  split; [exact H|].
  exact (X1_escapeHtml_no_markup (u "<a>") AMP H).
Defined.

(** ** The instructions of the differ, at every depth *)

Section DifferProperties.

Variable number : Type.
Variable Number_isFinite : number -> bool.
Variable Number_toString : number -> str.

Abbreviation dcallsF := (patchCallsFuel Number_isFinite Number_toString).
Abbreviation dcalls := (patchCalls Number_isFinite Number_toString).
Abbreviation common := (commonLeaf Number_isFinite Number_toString).

Lemma calls_sound : forall f (oldObj newObj : table number) acc i,
    In i (dcallsF f oldObj newObj acc) ->
    exists path, sectionPath i = acc ++ path /\
                 common oldObj newObj path (ikey i) (literal i).
Proof.
  induction f as [|f IH]; intros oldObj newObj acc i H; [destruct H|].
  cbn [patchCallsFuel] in H. apply in_flat_map in H.
  destruct H as (k & _ & H). unfold callsStep in H.
  destruct (lookup k newObj) as [nv|] eqn:En;
    destruct (lookup k oldObj) as [ov|] eqn:Eo;
    cbn [scalarOf] in H.
  - destruct (valueToTomlScalar Number_isFinite Number_toString nv)
      as [ns|] eqn:Sn;
      [destruct (valueToTomlScalar Number_isFinite Number_toString ov)
        as [os|] eqn:So|].
    + destruct H as [<-|[]]. exists []. cbn [sectionPath ikey literal].
      rewrite app_nil_r. split; [reflexivity|].
      exists ov, nv, os. auto.
    + destruct nv; try destruct H. destruct ov; try destruct H.
      apply IH in H. destruct H as (path & E & Hc).
      exists (k :: path). rewrite E, <- app_assoc. split; [reflexivity|].
      eexists _, _. repeat split; eassumption.
    + destruct nv; try destruct H. destruct ov; try destruct H.
      apply IH in H. destruct H as (path & E & Hc).
      exists (k :: path). rewrite E, <- app_assoc. split; [reflexivity|].
      eexists _, _. repeat split; eassumption.
  - destruct (valueToTomlScalar Number_isFinite Number_toString nv);
      destruct nv; destruct H.
  - destruct H.
  - destruct H.
Qed.

Lemma calls_complete : forall path (oldObj newObj : table number) acc k lit,
    common oldObj newObj path k lit ->
    In (mkInstr (acc ++ path) k lit) (dcalls oldObj newObj acc).
Proof.
  induction path as [|t path IH]; intros oldObj newObj acc k lit H.
  - rewrite app_nil_r. apply (calls_at_path (fun _ => None)). exact H.
  - destruct H as (o & n & Ho & Hn & H).
    rewrite patchCalls_eq. apply in_flat_map. exists t. split.
    + apply (setOf_In (fun _ => None)). split; [|intros []].
      apply in_or_app. left. eapply lookup_In_keys. exact Ho.
    + unfold callsStep. rewrite Ho, Hn. cbn [scalarOf valueToTomlScalar].
      specialize (IH o n (acc ++ [t]) k lit H).
      rewrite <- app_assoc in IH. exact IH.
Qed.

(** X4.  The instructions that [walkPatch] gives to the line patcher are
    the scalar leaves that the old and the new tree share: a key that is
    a scalar in both tables at a section path made of tables in both
    trees, with the literal of the new value.  Keys of one tree only,
    arrays and changes of kind give no instruction. *)
Theorem X4_instructions_are_common_leaves :
  forall (oldObj newObj : table number) i,
    In i (dcalls oldObj newObj []) <->
    common oldObj newObj (sectionPath i) (ikey i) (literal i).
Proof.
  intros oldObj newObj i. split; intros H.
  - apply calls_sound in H. destruct H as (path & E & H).
    cbn [app] in E. rewrite E. exact H.
  - destruct i as [p k l]. cbn [sectionPath ikey literal] in H.
    exact (calls_complete p oldObj newObj [] k l H).
Qed.

End DifferProperties.

(** ** Lines that survive a split and a join *)

Lemma in_consHead : forall c ls l,
    In l (consHead c ls) ->
    (exists l0, l = c :: l0 /\ (In l0 ls \/ l0 = [])) \/ In l ls.
Proof.
  intros c [|l0 ls] l H; simpl in H.
  - destruct H as [<-|[]]. left. exists []. auto.
  - destruct H as [<-|H].
    + left. exists l0. split; [reflexivity|]. left. left. reflexivity.
    + right. right. exact H.
Qed.

Lemma splitLines_chars_aux : forall n s l c,
    List.length s <= n -> In l (splitLines s) -> In c l ->
    In c s /\ c <> LF.
Proof.
  induction n as [|n IH]; intros s l c Hn Hl Hc.
  - destruct s; [|simpl in Hn; lia].
    simpl in Hl. destruct Hl as [<-|[]]. destruct Hc.
  - destruct s as [|c0 rest].
    { simpl in Hl. destruct Hl as [<-|[]]. destruct Hc. }
    simpl in Hn. cbn [splitLines] in Hl.
    destruct (N.eqb c0 LF) eqn:E0.
    { destruct Hl as [<-|Hl]; [destruct Hc|].
      destruct (IH rest l c ltac:(lia) Hl Hc). split; [right|]; assumption. }
    assert (Hcons : In l (consHead c0 (splitLines rest)) ->
                    In c (c0 :: rest) /\ c <> LF).
    { intros H. apply in_consHead in H.
      destruct H as [(l0 & -> & [H| ->])|H].
      - destruct Hc as [<-|Hc].
        + split; [left; reflexivity|]. intros ->.
          rewrite N.eqb_refl in E0. discriminate.
        + destruct (IH rest l0 c ltac:(lia) H Hc). split; [right|]; assumption.
      - destruct Hc as [<-|[]].
        split; [left; reflexivity|]. intros ->.
        rewrite N.eqb_refl in E0. discriminate.
      - destruct (IH rest l c ltac:(lia) H Hc). split; [right|]; assumption. }
    destruct rest as [|d rest']; [exact (Hcons Hl)|].
    destruct (N.eqb c0 CR && N.eqb d LF).
    + destruct Hl as [<-|Hl]; [destruct Hc|].
      simpl in Hn.
      destruct (IH rest' l c ltac:(lia) Hl Hc).
      split; [right; right|]; assumption.
    + exact (Hcons Hl).
Qed.

(** A line of a text is made of characters of the text and has no LF. *)
Lemma splitLines_chars : forall s l c,
    In l (splitLines s) -> In c l -> In c s /\ c <> LF.
Proof.
  intros s l c. apply splitLines_chars_aux with (n := List.length s). lia.
Qed.

Lemma noBreak_app : forall a b, noBreak (a ++ b) = noBreak a && noBreak b.
Proof. intros. unfold noBreak. apply forallb_app. Qed.

Lemma noBreak_in : forall s,
    (forall c, In c s -> c <> LF /\ c <> CR) -> noBreak s = true.
Proof.
  intros s H. unfold noBreak. apply forallb_forall. intros c Hc.
  destruct (H c Hc) as [H1 H2].
  apply andb_true_iff. split; apply negb_true_iff; apply N.eqb_neq; assumption.
Qed.

Lemma noBreak_sub : forall s t,
    noBreak s = true -> (forall c, In c t -> In c s) -> noBreak t = true.
Proof.
  intros s t H Hs. unfold noBreak in *. rewrite forallb_forall in *.
  intros c Hc. apply H, Hs, Hc.
Qed.

Lemma noCR_in : forall s c, noCR s = true -> In c s -> c <> CR.
Proof.
  intros s c H Hc. unfold noCR in H. rewrite forallb_forall in H.
  specialize (H c Hc). apply negb_true_iff, N.eqb_neq in H. exact H.
Qed.

Lemma lines_noBreak : forall s l,
    noCR s = true -> In l (splitLines s) -> noBreak l = true.
Proof.
  intros s l H Hl. apply noBreak_in. intros c Hc.
  destruct (splitLines_chars s l c Hl Hc) as [Hin Hlf].
  split; [exact Hlf|]. eapply noCR_in; eassumption.
Qed.

Lemma splitLines_clean_last : forall l, noBreak l = true -> splitLines l = [l].
Proof.
  induction l as [|c l IH]; intros H; [reflexivity|].
  cbn [noBreak forallb] in H. apply andb_true_iff in H. destruct H as [Hc Hl].
  apply andb_true_iff in Hc. destruct Hc as [H1 H2].
  apply negb_true_iff in H1. apply negb_true_iff in H2.
  cbn [splitLines]. rewrite H1, H2. cbn [andb].
  rewrite (IH Hl). destruct l; reflexivity.
Qed.

Lemma splitLines_clean_line : forall l t,
    noBreak l = true -> splitLines (l ++ LF :: t) = l :: splitLines t.
Proof.
  induction l as [|c l IH]; intros t H.
  - reflexivity.
  - cbn [noBreak forallb] in H. apply andb_true_iff in H.
    destruct H as [Hc Hl].
    apply andb_true_iff in Hc. destruct Hc as [H1 H2].
    apply negb_true_iff in H1. apply negb_true_iff in H2.
    cbn [app splitLines]. rewrite H1, H2. cbn [andb].
    rewrite (IH t Hl).
    destruct (l ++ LF :: t); reflexivity.
Qed.

(** Joining lines without line breaks and splitting again gives the
    lines back. *)
Lemma splitLines_joinLF : forall ls,
    ls <> [] -> forallb noBreak ls = true -> splitLines (joinLF ls) = ls.
Proof.
  induction ls as [|l ls IH]; intros Hn H; [congruence|].
  cbn [forallb] in H. apply andb_true_iff in H. destruct H as [Hl Hls].
  destruct ls as [|l2 ls].
  - apply splitLines_clean_last. exact Hl.
  - change (joinLF (l :: l2 :: ls)) with (l ++ LF :: joinLF (l2 :: ls)).
    rewrite (splitLines_clean_line _ _ Hl), IH; [reflexivity|discriminate|].
    exact Hls.
Qed.

Lemma noCR_joinLF : forall ls,
    forallb noBreak ls = true -> noCR (joinLF ls) = true.
Proof.
  induction ls as [|l ls IH]; intros H; [reflexivity|].
  cbn [forallb] in H. apply andb_true_iff in H. destruct H as [Hl Hls].
  assert (Hl' : noCR l = true).
  { unfold noBreak in Hl. unfold noCR. rewrite forallb_forall in *.
    intros c Hc. specialize (Hl c Hc). apply andb_true_iff in Hl. tauto. }
  destruct ls as [|l2 ls]; [exact Hl'|].
  change (joinLF (l :: l2 :: ls)) with (l ++ LF :: joinLF (l2 :: ls)).
  specialize (IH Hls).
  unfold noCR in *. rewrite forallb_app.
  apply andb_true_iff. split; [exact Hl'|exact IH].
Qed.

(** ** What a match of the key pattern says *)

Lemma den_lit : forall w x c c', den (lit w) x c c' -> x = w /\ c' = c.
Proof.
  induction w as [|a w IH]; intros x c c' H; cbn [lit] in H.
  - inversion H; subst. auto.
  - inversion H; subst.
    match goal with
    | H1 : den (Cls _) _ _ _, H2 : den (lit w) _ _ _ |- _ =>
        inversion H1; subst; destruct (IH _ _ _ H2) as [-> ->]
    end.
    match goal with
    | He : isChar _ _ = true |- _ => apply N.eqb_eq in He; subst
    end.
    auto.
Qed.

Lemma keyRe_sound : forall key line km,
    exec (keyRe key) line = Some km ->
    exists ws1 ws2 comment,
      line = cap 1 km ++ key ++ ws1 ++ EQUALS :: ws2 ++ cap 3 km ++ cap 4 km /\
      forallb isSpace (cap 1 km) = true /\
      forallb isSpace ws1 = true /\ forallb isSpace ws2 = true /\
      forallb (notChar HASH) (cap 3 km) = true /\
      (exists ws3, cap 4 km = ws3 ++ comment /\ forallb isSpace ws3 = true) /\
      (comment = [] \/
       exists t, comment = HASH :: t /\ forallb isDot t = true).
Proof.
  intros key line km H. apply exec_sound in H. unfold keyRe in H.
  inv_den.
  all: match goal with
       | Hl : den (lit _) _ _ _ |- _ =>
           apply den_lit in Hl; destruct Hl as [Ew Ec]; subst
       end.
  all: repeat match goal with
              | He : isChar _ _ = true |- _ => apply N.eqb_eq in He; subst
              end.
  all: unfold cap; cbn [getcap Nat.eqb].
  - match goal with
    | |- context [_ ++ key ++ ?w2 ++ [EQUALS] ++ ?w4 ++ _ ++ _ ++ [HASH] ++ ?w7] =>
        exists w2, w4, (HASH :: w7)
    end.
    repeat split; try assumption.
    + eexists. split; [reflexivity|assumption].
    + right. eexists. split; [reflexivity|assumption].
  - match goal with
    | |- context [_ ++ key ++ ?w2 ++ [EQUALS] ++ ?w4 ++ _ ++ _ ++ []] =>
        exists w2, w4, []
    end.
    repeat split; try assumption.
    + eexists. split; [reflexivity|assumption].
    + left. reflexivity.
Qed.

(** ** The patcher keeps the number of lines *)

Section LineProperties.

Variable RegExp_keyRe : str -> option (str -> option caps).

Hypothesis RegExp_plain : forall fragment,
    plainKey fragment = true ->
    RegExp_keyRe fragment = Some (exec (keyRe fragment)).

Lemma rewritten_noBreak : forall key v line km,
    noBreak key = true -> noBreak v = true -> noBreak line = true ->
    exec (keyRe key) line = Some km ->
    noBreak (rewritten key v km) = true.
Proof.
  intros key v line km Hk Hv Hl H.
  destruct (keyRe_sound _ _ H) as (ws1 & ws2 & comment & E & _).
  rewrite E in Hl.
  rewrite noBreak_app in Hl. apply andb_true_iff in Hl. destruct Hl as [H1 Hl].
  rewrite noBreak_app in Hl. apply andb_true_iff in Hl. destruct Hl as [_ Hl].
  rewrite noBreak_app in Hl. apply andb_true_iff in Hl. destruct Hl as [_ Hl].
  change (EQUALS :: ws2 ++ cap 3 km ++ cap 4 km)
    with ([EQUALS] ++ ws2 ++ cap 3 km ++ cap 4 km) in Hl.
  rewrite !noBreak_app in Hl.
  repeat (apply andb_true_iff in Hl; destruct Hl as [_ Hl]).
  unfold rewritten. rewrite !noBreak_app, H1, Hk, Hv, Hl. reflexivity.
Qed.

Lemma patch_lines : forall text sectionPath key newValToml r,
    plainKey key = true -> noBreak key = true -> noBreak newValToml = true ->
    noCR text = true ->
    patchScalarInSection RegExp_keyRe text sectionPath key newValToml = Some r ->
    List.length (splitLines (ptext r)) = List.length (splitLines text) /\
    noCR (ptext r) = true.
Proof.
  intros text sectionPath key v r Hp Hk Hv Hcr H.
  unfold patchScalarInSection in H.
  destruct (scanLines RegExp_keyRe (joinDot sectionPath) key v
              (Nat.eqb (List.length sectionPath) 0) (splitLines text))
    as [[ls' p]|] eqn:E; [|discriminate].
  injection H as <-. cbn [ptext].
  destruct p.
  - apply scanLines_patched in E.
    destruct E as (pre & line & post & kmatch & km & Els & Ere & _ & _ & _
                   & Ekm & Hls').
    rewrite (escapeKey_plain _ Hp), (RegExp_plain _ Hp) in Ere.
    injection Ere as <-.
    assert (Hall : forall l, In l (splitLines text) -> noBreak l = true).
    { intros l. apply lines_noBreak. exact Hcr. }
    assert (Hnb : forallb noBreak ls' = true).
    { rewrite Hls'. apply forallb_forall. intros l Hl.
      rewrite Els in Hall.
      apply in_app_or in Hl. destruct Hl as [Hl|[<-|Hl]].
      - apply Hall. apply in_or_app. left. exact Hl.
      - apply rewritten_noBreak with (line := line); try assumption.
        apply Hall. apply in_or_app. right. left. reflexivity.
      - apply Hall. apply in_or_app. right. right. exact Hl. }
    split; [|apply noCR_joinLF; exact Hnb].
    rewrite splitLines_joinLF; [|rewrite Hls'; destruct pre; discriminate
                                |exact Hnb].
    rewrite Els, Hls', !length_app. reflexivity.
  - apply scanLines_unpatched in E. subst ls'.
    rewrite joinLF_splitLines, (crlfToLf_no_CR _ Hcr). split; [reflexivity|].
    exact Hcr.
Qed.

(** A call of the line patcher that returns, for a key that stands for
    itself in a pattern and a key and a literal without line break, on a
    text without CR: the text that comes back has as many lines as the
    text that went in, and no CR either; a line is rewritten in place,
    none is added or dropped. *)
Theorem X5_patch_keeps_line_count :
  forall text sectionPath key newValToml r,
    plainKey key = true -> noBreak key = true -> noBreak newValToml = true ->
    noCR text = true ->
    patchScalarInSection RegExp_keyRe text sectionPath key newValToml = Some r ->
    List.length (splitLines (ptext r)) = List.length (splitLines text) /\
    noCR (ptext r) = true.
Proof. exact patch_lines. Qed.

Variable number : Type.
Variable Number_isFinite : number -> bool.
Variable Number_toString : number -> str.

Lemma fold_lines : forall l st w,
    forallb cleanInstr l = true ->
    noCR (wtext st) = true ->
    foldThrow (applyInstr RegExp_keyRe) l (Some st) = Some w ->
    List.length (splitLines (wtext w)) = List.length (splitLines (wtext st)) /\
    noCR (wtext w) = true.
Proof.
  induction l as [|i l IH]; intros st w Hc Hcr H.
  - simpl in H. injection H as <-. auto.
  - cbn [forallb] in Hc. apply andb_true_iff in Hc. destruct Hc as [Hi Hl].
    unfold cleanInstr in Hi. apply andb_true_iff in Hi. destruct Hi as [Hi H3].
    apply andb_true_iff in Hi. destruct Hi as [H1 H2].
    rewrite foldThrow_cons in H.
    unfold applyInstr in H at 2.
    destruct (patchScalarInSection RegExp_keyRe (wtext st) (sectionPath i)
                (ikey i) (literal i)) as [r|] eqn:E.
    + destruct (patch_lines _ _ _ _ H1 H2 H3 Hcr E) as [Hlen Hcr'].
      apply IH in H; [|exact Hl|exact Hcr'].
      cbn [wtext] in H. destruct H as [Hw Hw']. split; [|exact Hw'].
      rewrite Hw. exact Hlen.
    + rewrite foldThrow_None in H. discriminate.
Qed.

Variable toml_parse : str -> option (table number).
Variable toml_stringify : table number -> str.

(** A save that reports [preserved], of a text without CR, when every
    instruction of the differ has a key that stands for itself in a
    pattern and no line break in key and literal: the text written has
    as many lines as the original text.  Format preservation never adds
    or drops a line. *)
Theorem X6_preserved_save_keeps_line_count :
  forall text data oldObj out,
    noCR text = true ->
    toml_parse text = Some oldObj ->
    forallb cleanInstr
      (patchCalls Number_isFinite Number_toString oldObj data []) = true ->
    handleSave RegExp_keyRe Number_isFinite Number_toString
               toml_parse toml_stringify true (Some text) data = (out, true) ->
    List.length (splitLines out) = List.length (splitLines text) /\
    noCR out = true.
Proof.
  intros text data oldObj out Hcr Hp Hc H.
  unfold handleSave in H.
  destruct text as [|c t]; [inversion H|].
  rewrite Hp in H.
  rewrite walkPatch_calls in H.
  destruct (foldThrow (applyInstr RegExp_keyRe)
              (patchCalls Number_isFinite Number_toString oldObj data [])
              (Some (mkWalkResult (c :: t) false))) as [w|] eqn:E;
    [|inversion H].
  destruct (patchedAny w); [|inversion H].
  injection H as <-.
  apply fold_lines in E; [exact E|exact Hc|exact Hcr].
Qed.

End LineProperties.

Lemma X5_witness :
  List.length (splitLines (joinLF [u "key = 9"; u "key = 2"])) =
  List.length (splitLines Demo.doc_duplicate) /\
  noCR (joinLF [u "key = 9"; u "key = 2"]) = true.
Proof.
  apply (@X5_patch_keeps_line_count Demo.RegExp_keyRe Demo_RegExp_plain
           Demo.doc_duplicate [] (u "key") (u "9")
           (mkPatchResult (joinLF [u "key = 9"; u "key = 2"]) true));
    vm_compute; reflexivity.
Defined.

Lemma X6_witness :
  List.length (splitLines (joinLF [u "port = 9090"; u "tags = [1, 2]"])) =
  List.length (splitLines Demo.doc_tags) /\
  noCR (joinLF [u "port = 9090"; u "tags = [1, 2]"]) = true.
Proof.
  apply (@X6_preserved_save_keeps_line_count Demo.RegExp_keyRe
           Demo_RegExp_plain Demo.number Demo.Number_isFinite
           Demo.Number_toString Demo.toml_parse Demo.toml_stringify
           Demo.doc_tags Demo.edit_tags Demo.tree_tags
           (joinLF [u "port = 9090"; u "tags = [1, 2]"]));
    vm_compute; reflexivity.
Defined.

(** ** The command line and Basic Auth *)

Lemma hasPrefix_app : forall p s, hasPrefix p (p ++ s) = true.
Proof.
  induction p as [|x p IH]; intros s; [reflexivity|].
  cbn [app hasPrefix]. rewrite N.eqb_refl, IH. reflexivity.
Qed.

Lemma hasPrefix_skipn : forall p s,
    hasPrefix p s = true -> s = p ++ skipn (List.length p) s.
Proof.
  induction p as [|x p IH]; intros s H; [reflexivity|].
  destruct s as [|y s]; [discriminate|].
  cbn [hasPrefix] in H. apply andb_true_iff in H. destruct H as [E H].
  apply N.eqb_eq in E. subst y. cbn [List.length skipn app].
  f_equal. apply IH. exact H.
Qed.

Lemma indexOf_app : forall c a b,
    ~ In c a -> indexOf c (a ++ c :: b) = Some (List.length a).
Proof.
  induction a as [|x a IH]; intros b H.
  - cbn [app indexOf]. rewrite N.eqb_refl. reflexivity.
  - cbn [app indexOf].
    destruct (N.eqb x c) eqn:E.
    + apply N.eqb_eq in E. exfalso. apply H. left. exact E.
    + rewrite IH; [reflexivity|]. intros Hc. apply H. right. exact Hc.
Qed.

Lemma firstn_length_app : forall (a b : str), firstn (List.length a) (a ++ b) = a.
Proof.
  intros a b. rewrite firstn_app, Nat.sub_diag, firstn_all. cbn [firstn].
  apply app_nil_r.
Qed.

Lemma skipn_length_app : forall (a b : str), skipn (List.length a) (a ++ b) = b.
Proof.
  intros a b. rewrite skipn_app, Nat.sub_diag, skipn_all. reflexivity.
Qed.

Lemma split_no_sep : forall sep s p, In p (split sep s) -> ~ In sep p.
Proof.
  induction s as [|c s IH]; intros p H.
  - destruct H as [<-|[]]. intros [].
  - cbn [split] in H. destruct (N.eqb c sep) eqn:E.
    + destruct H as [<-|H]; [intros []|apply IH; exact H].
    + apply in_consHead in H. destruct H as [(l0 & -> & [H| ->])|H].
      * intros [Hc|Hc]; [apply N.eqb_neq in E; congruence|].
        exact (@IH _ H Hc).
      * intros [Hc|[]]. apply N.eqb_neq in E. congruence.
      * apply IH. exact H.
Qed.

Lemma split_not_nil : forall sep s, split sep s <> [].
Proof.
  intros sep [|c s]; cbn [split]; [discriminate|].
  destruct (N.eqb c sep); [discriminate|].
  destruct (split sep s); discriminate.
Qed.

Lemma split_clean : forall sep a, ~ In sep a -> split sep a = [a].
Proof.
  induction a as [|c a IH]; intros H; [reflexivity|].
  cbn [split]. destruct (N.eqb c sep) eqn:E.
  - apply N.eqb_eq in E. exfalso. apply H. left. exact E.
  - rewrite IH; [reflexivity|]. intros Hc. apply H. right. exact Hc.
Qed.

Lemma split_app : forall sep a t,
    ~ In sep a -> split sep (a ++ sep :: t) = a :: split sep t.
Proof.
  induction a as [|c a IH]; intros t H.
  - cbn [app split]. rewrite N.eqb_refl. reflexivity.
  - cbn [app split]. destruct (N.eqb c sep) eqn:E.
    + apply N.eqb_eq in E. exfalso. apply H. left. exact E.
    + rewrite IH; [reflexivity|]. intros Hc. apply H. right. exact Hc.
Qed.

Lemma join_consHead : forall sep c ls,
    join sep (consHead c ls) = c :: join sep ls.
Proof.
  intros sep c [|l [|l2 ls]]; reflexivity.
Qed.

(** [s.split(sep).join(sep)] is [s]. *)
Lemma join_split : forall sep s, join sep (split sep s) = s.
Proof.
  induction s as [|c s IH]; [reflexivity|].
  cbn [split]. destruct (N.eqb c sep) eqn:E.
  - apply N.eqb_eq in E. subst c.
    pose proof (split_not_nil sep s) as Hn.
    destruct (split sep s) as [|l ls] eqn:Es; [congruence|].
    change (join sep ([] :: l :: ls)) with (sep :: join sep (l :: ls)).
    rewrite IH. reflexivity.
  - rewrite join_consHead, IH. reflexivity.
Qed.

Section AuthProperties.

Variable number : Type.
Variable Number_of : str -> number.
Variable Number_truthy : number -> bool.
Variable Number_8787 : number.
Variable Deno_cwd : str.
Variable path_resolve : str -> str.
Variable atob : str -> option str.

Abbreviation args_ := (parseArgs Number_of Number_truthy Number_8787 Deno_cwd
                                 path_resolve).
Abbreviation arg_ := (parseArg Number_of Number_truthy Number_8787 path_resolve).
Abbreviation noAuthArg := (fun a : str => negb (hasPrefix (u "--auth=") a)).

Lemma parseArg_no_auth : forall (config : AppConfig number) a,
    hasPrefix (u "--auth=") a = false ->
    authUser (arg_ config a) = authUser config /\
    authPass (arg_ config a) = authPass config.
Proof.
  intros config a H. unfold parseArg. rewrite H.
  destruct (hasPrefix (u "--root=") a), (hasPrefix (u "--port=") a);
    split; reflexivity.
Qed.

Lemma fold_parseArg_no_auth : forall post (config : AppConfig number),
    forallb noAuthArg post = true ->
    authUser (fold_left arg_ post config) = authUser config /\
    authPass (fold_left arg_ post config) = authPass config.
Proof.
  induction post as [|a post IH]; intros config H; [split; reflexivity|].
  cbn [forallb] in H. apply andb_true_iff in H. destruct H as [Ha Hp].
  apply negb_true_iff in Ha.
  cbn [fold_left]. destruct (IH (arg_ config a) Hp) as [-> ->].
  apply parseArg_no_auth. exact Ha.
Qed.

Lemma parseArg_auth : forall (config : AppConfig number) user pass,
    user <> [] -> ~ In COLON user ->
    authUser (arg_ config (u "--auth=" ++ user ++ COLON :: pass)) = Some user /\
    authPass (arg_ config (u "--auth=" ++ user ++ COLON :: pass)) = Some pass.
Proof.
  intros config user pass Hu Hc. unfold parseArg.
  change (hasPrefix (u "--root=") (u "--auth=" ++ user ++ COLON :: pass))
    with false.
  change (hasPrefix (u "--port=") (u "--auth=" ++ user ++ COLON :: pass))
    with false.
  rewrite hasPrefix_app.
  change (skipn 7 (u "--auth=" ++ user ++ COLON :: pass))
    with (user ++ COLON :: pass).
  rewrite (@indexOf_app _ _ _ Hc).
  destruct user as [|c user]; [congruence|].
  cbn [List.length authUser authPass].
  change (S (List.length user)) with (List.length (c :: user)).
  rewrite firstn_length_app.
  replace (List.length (c :: user) + 1)
    with (List.length ((c :: user) ++ [COLON]))
    by (rewrite length_app; reflexivity).
  replace ((c :: user) ++ COLON :: pass) with (((c :: user) ++ [COLON]) ++ pass)
    by (rewrite <- app_assoc; reflexivity).
  rewrite skipn_length_app. split; reflexivity.
Qed.

(** The configuration after an [--auth=user:pass] argument that is the
    last of its kind: the user is the text before the first colon, the
    password everything after it. *)
Lemma parseArgs_auth : forall pre user pass post,
    user <> [] -> ~ In COLON user -> forallb noAuthArg post = true ->
    authUser (args_ (pre ++ (u "--auth=" ++ user ++ COLON :: pass) :: post))
    = Some user /\
    authPass (args_ (pre ++ (u "--auth=" ++ user ++ COLON :: pass) :: post))
    = Some pass.
Proof.
  intros pre user pass post Hu Hc Hp. unfold parseArgs.
  rewrite fold_left_app.
  change (fold_left arg_ (?a :: post) ?c) with (fold_left arg_ post (arg_ c a)).
  match goal with
  | |- context [fold_left arg_ post ?c] =>
      destruct (@fold_parseArg_no_auth post c Hp) as [E1 E2]
  end.
  rewrite E1, E2.
  apply parseArg_auth; assumption.
Qed.

(** A password with a colon locks everybody out.  [parseArgs] cuts the
    credential at its first colon, so the password keeps the later ones;
    [checkAuth] compares it with the second piece of the decoded header
    split at every colon, which has none.  No request is authorized,
    whatever its header. *)
Theorem X7_colon_in_password_locks_out :
  forall pre user pass post authorization,
    user <> [] -> ~ In COLON user -> In COLON pass ->
    forallb noAuthArg post = true ->
    checkAuth atob
      (args_ (pre ++ (u "--auth=" ++ user ++ COLON :: pass) :: post))
      authorization = false.
Proof.
  intros pre user pass post authorization Hu Hc Hp Hpost.
  destruct (@parseArgs_auth pre user pass post Hu Hc Hpost) as [EU EP].
  unfold checkAuth. rewrite EU, EP.
  destruct user as [|c0 user]; [congruence|].
  destruct pass as [|p0 pass]; [destruct Hp|].
  cbn [falsy orb].
  match goal with |- (if negb ?b then _ else _) = _ => destruct b end;
    [|reflexivity].
  cbn [negb].
  match goal with |- match atob ?x with _ => _ end = _ => destruct (atob x) as [decoded|] end;
    [|reflexivity].
  destruct (split COLON decoded) as [|a [|b parts]] eqn:E.
  - exfalso. exact (@split_not_nil _ _ E).
  - cbn [nth_error strictEq]. apply andb_false_r.
  - cbn [nth_error strictEq]. apply andb_false_iff. right.
    unfold str_eqb. destruct (list_eq_dec N.eq_dec b (p0 :: pass)) as [->|];
      [|reflexivity].
    exfalso. apply (@split_no_sep COLON decoded (p0 :: pass)); [|exact Hp].
    rewrite E. right. left. reflexivity.
Qed.

(** An empty password switches authentication off: after
    [--auth=user:] every request is authorized, with or without a
    header. *)
Theorem X8_empty_password_disables_auth :
  forall pre user post authorization,
    user <> [] -> ~ In COLON user ->
    forallb noAuthArg post = true ->
    checkAuth atob
      (args_ (pre ++ (u "--auth=" ++ user ++ [COLON]) :: post))
      authorization = true.
Proof.
  intros pre user post authorization Hu Hc Hpost.
  destruct (@parseArgs_auth pre user [] post Hu Hc Hpost) as [EU EP].
  unfold checkAuth. rewrite EU, EP. cbn [falsy].
  rewrite orb_true_r. reflexivity.
Qed.

(** Who gets in.  With a non-empty password without colon, a request is
    authorized exactly when its header is [Basic ] followed by a text
    that [atob] decodes to [user:pass] or to [user:pass:] and anything:
    the pieces after the second are ignored. *)
Theorem X9_authorized_requests :
  forall pre user pass post authorization,
    user <> [] -> ~ In COLON user -> pass <> [] -> ~ In COLON pass ->
    forallb noAuthArg post = true ->
    (checkAuth atob
       (args_ (pre ++ (u "--auth=" ++ user ++ COLON :: pass) :: post))
       authorization = true
     <->
     exists b64 decoded,
       authorization = Some (u "Basic " ++ b64) /\
       atob b64 = Some decoded /\
       (decoded = user ++ COLON :: pass \/
        exists more, decoded = user ++ COLON :: pass ++ COLON :: more)).
Proof.
  intros pre user pass post authorization Hu Hc Hpn Hpc Hpost.
  destruct (@parseArgs_auth pre user pass post Hu Hc Hpost) as [EU EP].
  unfold checkAuth. rewrite EU, EP.
  destruct user as [|c0 user]; [congruence|].
  destruct pass as [|p0 pass]; [congruence|].
  cbn [falsy orb].
  split.
  - intros H.
    set (hdr := match authorization with
                | Some h => h
                | None => []
                end) in *.
    destruct (hasPrefix (u "Basic ") hdr) eqn:Eh; [|discriminate].
    cbn [negb] in H.
    destruct (atob (skipn 6 hdr)) as [decoded|] eqn:Ea; [|discriminate].
    exists (skipn 6 hdr), decoded.
    split; [|split; [exact Ea|]].
    + apply hasPrefix_skipn in Eh.
      change (List.length (u "Basic ")) with 6 in Eh.
      rewrite <- Eh. subst hdr.
      destruct authorization as [h|]; [reflexivity|discriminate Eh].
    + pose proof (join_split COLON decoded) as J.
      destruct (split COLON decoded) as [|a [|b parts]] eqn:E.
      * discriminate H.
      * cbn [nth_error strictEq] in H. rewrite andb_false_r in H.
        discriminate.
      * cbn [nth_error strictEq] in H. apply andb_true_iff in H.
        destruct H as [H1 H2].
        apply str_eqb_eq in H1. apply str_eqb_eq in H2. subst a b.
        destruct parts as [|q parts].
        -- left. symmetry. exact J.
        -- right. exists (join COLON (q :: parts)). symmetry. exact J.
  - intros (b64 & decoded & -> & Ea & Hd).
    rewrite hasPrefix_app. cbn [negb].
    change (skipn 6 (u "Basic " ++ b64)) with b64. rewrite Ea.
    assert (Es : exists parts,
               split COLON decoded = (c0 :: user) :: (p0 :: pass) :: parts).
    { destruct Hd as [->|(more & ->)].
      - rewrite (@split_app _ _ _ Hc), (@split_clean _ _ Hpc). exists []. reflexivity.
      - rewrite (@split_app _ _ _ Hc), (@split_app _ _ _ Hpc). eexists. reflexivity. }
    destruct Es as (parts & ->).
    cbn [nth_error strictEq]. rewrite !str_eqb_refl. reflexivity.
Qed.

End AuthProperties.

Lemma X7_witness :
  DemoAuth.checkAuth
    (DemoAuth.parseArgs [u "--port=80"; u "--auth=admin:a:b"])
    (Some (u "Basic YWRtaW46YTpi")) = false.
Proof.
  apply (@X7_colon_in_password_locks_out Z (fun _ => 0%Z)
           (fun z => negb (Z.eqb z 0)) 8787%Z (u "/srv") (fun p => p)
           DemoAuth.atob [u "--port=80"] (u "admin") (u "a:b") []
           (Some (u "Basic YWRtaW46YTpi"))).
  - discriminate.
  - vm_compute. intuition discriminate.
  - vm_compute. tauto.
  - reflexivity.
Defined.

Lemma X8_witness :
  DemoAuth.checkAuth (DemoAuth.parseArgs [u "--auth=admin:"]) None = true.
Proof.
  apply (@X8_empty_password_disables_auth Z (fun _ => 0%Z)
           (fun z => negb (Z.eqb z 0)) 8787%Z (u "/srv") (fun p => p)
           DemoAuth.atob [] (u "admin") [] None).
  - discriminate.
  - vm_compute. intuition discriminate.
  - reflexivity.
Defined.

Lemma X9_witness :
  DemoAuth.checkAuth (DemoAuth.parseArgs [u "--auth=admin:s3cret"])
                     (Some (u "Basic YWRtaW46czNjcmV0")) = true.
Proof.
  apply (proj2 (@X9_authorized_requests Z (fun _ => 0%Z)
           (fun z => negb (Z.eqb z 0)) 8787%Z (u "/srv") (fun p => p)
           DemoAuth.atob [] (u "admin") (u "s3cret") []
           (Some (u "Basic YWRtaW46czNjcmV0"))
           ltac:(discriminate)
           ltac:(vm_compute; intuition discriminate)
           ltac:(discriminate)
           ltac:(vm_compute; intuition discriminate)
           eq_refl)).
  exists (u "YWRtaW46czNjcmV0"), (u "admin:s3cret").
  split; [reflexivity|]. split; [reflexivity|]. left. reflexivity.
Defined.

(** ** Paths and the request handlers *)

Lemma hasPrefix_app_r : forall p a b,
    hasPrefix p a = true -> hasPrefix p (a ++ b) = true.
Proof.
  induction p as [|x p IH]; intros a b H; [reflexivity|].
  destruct a as [|y a]; [discriminate|].
  cbn [hasPrefix app] in *. apply andb_true_iff in H. destruct H as [-> H].
  cbn [andb]. apply IH. exact H.
Qed.

Lemma hasPrefix_app_same : forall a p s,
    hasPrefix (a ++ p) (a ++ s) = hasPrefix p s.
Proof.
  induction a as [|x a IH]; intros p s; [reflexivity|].
  cbn [app hasPrefix]. rewrite N.eqb_refl. apply IH.
Qed.

Lemma app_not_self : forall (a b : str), b <> [] -> a ++ b <> a.
Proof.
  intros a b Hb E. apply Hb.
  apply (app_inv_head a). rewrite app_nil_r. exact E.
Qed.

Section FilesProperties.

Variable path_resolve : str -> str.
Variable path_join : str -> str -> str.
Variable path_SEPARATOR : str.
Variable fileExists : str -> bool.

Abbreviation ensure := (ensureInsideRoot path_resolve path_SEPARATOR).
Abbreviation pick := (pickSourceFile fileExists).
Abbreviation edit := (handleEdit path_resolve path_join path_SEPARATOR
                                 fileExists).
Abbreviation inside := (insideRoot path_resolve path_SEPARATOR).

Lemma ensureInsideRoot_Some : forall candidate root full,
    ensure candidate root = Some full ->
    full = path_resolve candidate /\ inside root full.
Proof.
  intros candidate root full H. unfold ensureInsideRoot in H.
  destruct (hasPrefix (path_resolve root ++ path_SEPARATOR)
              (path_resolve candidate)) eqn:Ep.
  - cbn [negb andb] in H. injection H as <-. split; [reflexivity|].
    right. exact Ep.
  - destruct (str_eqb (path_resolve candidate) (path_resolve root)) eqn:Ee;
      cbn [negb andb] in H; [|discriminate].
    injection H as <-. split; [reflexivity|].
    left. apply str_eqb_eq. exact Ee.
Qed.

Lemma ensureInsideRoot_inside : forall candidate root,
    inside root (path_resolve candidate) ->
    ensure candidate root = Some (path_resolve candidate).
Proof.
  intros candidate root [E|E]; unfold ensureInsideRoot.
  - rewrite E, str_eqb_refl. cbn [negb]. rewrite andb_false_r. reflexivity.
  - rewrite E. reflexivity.
Qed.

Lemma pickSourceFile_Some : forall requested source,
    pick requested = Some source ->
    fileExists source = true /\
    ((source = requested) \/
     (fileExists requested = false /\
      (source = requested ++ u ".example" \/
       source = requested ++ u ".template"))).
Proof.
  intros requested source H. unfold pickSourceFile in H.
  destruct (fileExists requested) eqn:E0.
  - injection H as <-. split; [exact E0|]. left. reflexivity.
  - cbn [find] in H.
    destruct (fileExists (requested ++ u ".example")) eqn:E1.
    + injection H as <-. split; [exact E1|]. right. split; [reflexivity|].
      left. reflexivity.
    + destruct (fileExists (requested ++ u ".template")) eqn:E2;
        [|discriminate].
      injection H as <-. split; [exact E2|]. right. split; [reflexivity|].
      right. reflexivity.
Qed.

(** What [handleEdit] reads.  The file passed to [readTomlFile] exists
    and is the requested path, resolved, or that path with [.example] or
    [.template] appended; the requested path has passed
    [ensureInsideRoot]; and when it is not the root itself, the file
    read starts with the resolved root and the separator. *)
Theorem X10_edit_reads_requested_or_variant :
  forall authorized root fileRel source,
    edit authorized root fileRel = EditRead source ->
    let candidate := path_resolve (path_join root (orEmpty fileRel)) in
    authorized = true /\
    fileExists source = true /\
    (source = candidate \/ source = candidate ++ u ".example" \/
     source = candidate ++ u ".template") /\
    inside root candidate /\
    (candidate <> path_resolve root ->
     hasPrefix (path_resolve root ++ path_SEPARATOR) source = true).
Proof.
  intros authorized root fileRel source H candidate.
  unfold handleEdit in H.
  destruct authorized; [|discriminate]. cbn [negb] in H.
  destruct (falsy fileRel); [discriminate|].
  destruct (ensure (path_join root (orEmpty fileRel)) root) as [c|] eqn:Ec;
    [|discriminate].
  apply ensureInsideRoot_Some in Ec. destruct Ec as [-> Hin].
  fold candidate in H, Hin.
  destruct (pick candidate) as [s|] eqn:Ep; [|discriminate].
  injection H as ->.
  apply pickSourceFile_Some in Ep. destruct Ep as [Hex Hs].
  split; [reflexivity|]. split; [exact Hex|].
  split; [|split; [exact Hin|]].
  - destruct Hs as [->|[_ [->| ->]]]; auto.
  - intros Hne. destruct Hin as [Hin|Hin]; [congruence|].
    destruct Hs as [->|[_ [->| ->]]];
      [exact Hin|apply hasPrefix_app_r; exact Hin..].
Qed.

(** The root itself is let through by [ensureInsideRoot], and the
    suffixes are appended after the check: when the requested path
    resolves to the root, which is no file, and a file named as the root
    with [.example] appended exists, [handleEdit] reads that file, which
    is next to the root directory and not inside it. *)
Theorem X11_edit_of_root_reads_sibling :
  forall root fileRel,
    fileRel <> [] ->
    path_resolve (path_join root fileRel) = path_resolve root ->
    fileExists (path_resolve root) = false ->
    fileExists (path_resolve root ++ u ".example") = true ->
    hasPrefix path_SEPARATOR (u ".example") = false ->
    edit true root (Some fileRel)
    = EditRead (path_resolve root ++ u ".example") /\
    ~ inside root (path_resolve root ++ u ".example").
Proof.
  intros root fileRel Hf Hr H0 H1 Hsep. split.
  - unfold handleEdit. destruct fileRel as [|c f]; [congruence|].
    cbn [negb falsy orEmpty].
    rewrite ensureInsideRoot_inside; [|left; exact Hr].
    rewrite Hr. unfold pickSourceFile. rewrite H0. cbn [find].
    rewrite H1. reflexivity.
  - intros [E|E].
    + revert E. apply app_not_self. discriminate.
    + rewrite hasPrefix_app_same, Hsep in E. discriminate.
Qed.

Variable RegExp_keyRe : str -> option (str -> option caps).
Variable number : Type.
Variable Number_isFinite : number -> bool.
Variable Number_toString : number -> str.
Variable toml_parse : str -> option (table number).
Variable toml_stringify : table number -> str.

Abbreviation saveReq :=
  (handleSave_request path_resolve path_join path_SEPARATOR fileExists
                      RegExp_keyRe Number_isFinite Number_toString
                      toml_parse toml_stringify).
Abbreviation decision payload :=
  (handleSave RegExp_keyRe Number_isFinite Number_toString
              toml_parse toml_stringify
              (preserve payload) (originalText payload) (data payload)).

(** Where [handleSave] writes.  A write happens only for an authorized
    request, its target has passed [ensureInsideRoot] (it is the
    resolved root or starts with the resolved root and the separator),
    and it is one of three paths: the file named by the request, the
    source path, or the save-as name, each joined to the root and
    resolved.  The text and the flag are those of the save decision. *)
Theorem X12_save_writes_inside_root :
  forall authorized root (payload : SavePayload number)
         targetPath outText preserved,
    saveReq authorized root payload = SaveWrite targetPath outText preserved ->
    authorized = true /\
    inside root targetPath /\
    (targetPath = path_resolve (path_join root (orEmpty (fileRel payload))) \/
     targetPath = path_resolve (path_join root (orEmpty (sourcePath payload))) \/
     targetPath = path_resolve (path_join root (orEmpty (saveAs payload)))) /\
    decision payload = (outText, preserved).
Proof.
  intros authorized root payload targetPath outText preserved H.
  unfold handleSave_request in H.
  destruct authorized; [|discriminate]. cbn [negb] in H.
  destruct (falsy (fileRel payload) || falsy (sourcePath payload)
            || falsy (mode payload)); [discriminate|].
  destruct (ensure (path_join root (orEmpty (sourcePath payload))) root)
    as [s|] eqn:Es; [|discriminate].
  destruct (ensure (path_join root (orEmpty (fileRel payload))) root)
    as [d|] eqn:Ed; [|discriminate].
  apply ensureInsideRoot_Some in Es. destruct Es as [-> Hs].
  apply ensureInsideRoot_Some in Ed. destruct Ed as [-> Hd].
  destruct (decision payload) as [out p] eqn:Edec.
  destruct (str_eqb (orEmpty (mode payload)) (u "overwrite")).
  - injection H as <- <- <-. split; [reflexivity|].
    destruct (fileExists _).
    + split; [exact Hd|]. split; [left; reflexivity|reflexivity].
    + split; [exact Hs|]. split; [right; left; reflexivity|reflexivity].
  - destruct (falsy (saveAs payload)); [discriminate|].
    destruct (ensure (path_join root (orEmpty (saveAs payload))) root)
      as [t|] eqn:Et; [|discriminate].
    apply ensureInsideRoot_Some in Et. destruct Et as [-> Ht].
    injection H as <- <- <-. split; [reflexivity|].
    split; [exact Ht|]. split; [right; right; reflexivity|reflexivity].
Qed.

(** Edit, then save in overwrite mode, with the file system unchanged in
    between: the save writes to the very file the edit read.  When the
    requested file does not exist and its [.example] or [.template]
    variant was read, it is the variant that is overwritten; the
    requested file is not created. *)
Theorem X13_overwrite_writes_the_file_read :
  forall root f source srcRel (payload : SavePayload number),
    edit true root (Some f) = EditRead source ->
    path_resolve (path_join root f) <> path_resolve root ->
    fileRel payload = Some f ->
    sourcePath payload = Some srcRel -> srcRel <> [] ->
    path_resolve (path_join root srcRel) = source ->
    mode payload = Some (u "overwrite") ->
    saveReq true root payload
    = SaveWrite source (fst (decision payload)) (snd (decision payload)).
Proof.
  intros root f source srcRel payload He Hne Hf Hs Hsn Hsrc Hm.
  unfold handleEdit in He. cbn [negb] in He.
  destruct (falsy (Some f)) eqn:Ef; [discriminate|].
  cbn [orEmpty] in He.
  destruct (ensure (path_join root f) root) as [c|] eqn:Ec; [|discriminate].
  pose proof (@ensureInsideRoot_Some _ _ _ Ec) as [Ecc Hin]. subst c.
  destruct (pick (path_resolve (path_join root f))) as [s|] eqn:Ep;
    [|discriminate].
  injection He as ->.
  apply pickSourceFile_Some in Ep. destruct Ep as [Hex Hcase].
  assert (Hsin : inside root source).
  { destruct Hin as [Hin|Hin]; [congruence|]. right.
    destruct Hcase as [->|[_ [->| ->]]];
      [exact Hin|apply hasPrefix_app_r; exact Hin..]. }
  unfold handleSave_request. cbn [negb].
  rewrite Hf, Hs, Hm, Ef.
  destruct srcRel as [|c0 srcRel]; [congruence|].
  cbn [falsy orb orEmpty].
  rewrite <- Hsrc in Hsin.
  rewrite (@ensureInsideRoot_inside _ _ Hsin), Ec.
  change (str_eqb (u "overwrite") (u "overwrite")) with true. cbv iota.
  destruct (decision payload) as [out p]. cbn [fst snd].
  destruct Hcase as [E|[E0 _]].
  - rewrite <- E, Hex. reflexivity.
  - rewrite E0, Hsrc. reflexivity.
Qed.

End FilesProperties.

Lemma X10_witness :
  let candidate := u "/srv/app.conf" in
  true = true /\
  DemoFiles.fileExists (u "/srv/app.conf.example") = true /\
  (u "/srv/app.conf.example" = candidate \/
   u "/srv/app.conf.example" = candidate ++ u ".example" \/
   u "/srv/app.conf.example" = candidate ++ u ".template") /\
  insideRoot DemoFiles.path_resolve DemoFiles.path_SEPARATOR
             (u "/srv") candidate /\
  (candidate <> u "/srv" ->
   hasPrefix (u "/srv" ++ u "/") (u "/srv/app.conf.example") = true).
Proof.
  apply (@X10_edit_reads_requested_or_variant DemoFiles.path_resolve
           DemoFiles.path_join DemoFiles.path_SEPARATOR DemoFiles.fileExists
           true (u "/srv") (Some (u "app.conf"))
           (u "/srv/app.conf.example")).
  vm_compute. reflexivity.
Defined.

Lemma X11_witness :
  DemoFiles.handleEdit true (u "/srv") (Some (u "."))
  = EditRead (u "/srv.example") /\
  ~ insideRoot DemoFiles.path_resolve DemoFiles.path_SEPARATOR
               (u "/srv") (u "/srv.example").
Proof.
  apply (@X11_edit_of_root_reads_sibling DemoFiles.path_resolve
           DemoFiles.path_join DemoFiles.path_SEPARATOR DemoFiles.fileExists
           (u "/srv") (u ".")).
  - discriminate.
  - vm_compute. reflexivity.
  - vm_compute. reflexivity.
  - vm_compute. reflexivity.
  - vm_compute. reflexivity.
Defined.

Lemma X12_witness :
  true = true /\
  insideRoot DemoFiles.path_resolve DemoFiles.path_SEPARATOR
             (u "/srv") (u "/srv/app.conf.example") /\
  (u "/srv/app.conf.example" = u "/srv/app.conf" \/
   u "/srv/app.conf.example" = u "/srv/app.conf.example" \/
   u "/srv/app.conf.example" = DemoFiles.path_join (u "/srv") []) /\
  Demo.handleSave false None Demo.tree_port
  = (u "<toml.stringify(data)>", false).
Proof.
  apply (@X12_save_writes_inside_root DemoFiles.path_resolve
           DemoFiles.path_join DemoFiles.path_SEPARATOR DemoFiles.fileExists
           Demo.RegExp_keyRe Demo.number Demo.Number_isFinite
           Demo.Number_toString Demo.toml_parse Demo.toml_stringify
           true (u "/srv") DemoFiles.payload_overwrite
           (u "/srv/app.conf.example") (u "<toml.stringify(data)>") false).
  vm_compute. reflexivity.
Defined.

Lemma X13_witness :
  DemoFiles.handleSave_request true (u "/srv") DemoFiles.payload_overwrite
  = SaveWrite (u "/srv/app.conf.example") (u "<toml.stringify(data)>") false.
Proof.
  apply (@X13_overwrite_writes_the_file_read DemoFiles.path_resolve
           DemoFiles.path_join DemoFiles.path_SEPARATOR DemoFiles.fileExists
           Demo.RegExp_keyRe Demo.number Demo.Number_isFinite
           Demo.Number_toString Demo.toml_parse Demo.toml_stringify
           (u "/srv") (u "app.conf") (u "/srv/app.conf.example")
           (u "app.conf.example") DemoFiles.payload_overwrite).
  - vm_compute. reflexivity.
  - vm_compute. discriminate.
  - reflexivity.
  - reflexivity.
  - discriminate.
  - vm_compute. reflexivity.
  - reflexivity.
Defined.

(** ** Field names and their parts *)

Lemma inputName_bracketed : forall first others,
    inputName (first :: others) = first ++ bracketed others.
Proof.
  intros first others. cbn [inputName]. revert first.
  induction others as [|p ps IH]; intros first.
  - cbn [fold_left bracketed flat_map]. symmetry. apply app_nil_r.
  - cbn [fold_left bracketed flat_map]. rewrite IH.
    rewrite <- app_assoc. reflexivity.
Qed.

Lemma indexOf_None : forall c s, ~ In c s -> indexOf c s = None.
Proof.
  induction s as [|x s IH]; intros H; [reflexivity|].
  cbn [indexOf]. destruct (N.eqb x c) eqn:E.
  - apply N.eqb_eq in E. exfalso. apply H. left. exact E.
  - rewrite IH; [reflexivity|]. intros Hc. apply H. right. exact Hc.
Qed.

Lemma notIn_forallb_notChar : forall c s,
    ~ In c s -> forallb (notChar c) s = true.
Proof.
  intros c s H. apply forallb_forall. intros x Hx.
  unfold notChar. apply negb_true_iff, N.eqb_neq. intros ->. exact (H Hx).
Qed.

(** The pattern at a bracketed part: the match is the part, and what
    follows it is left. *)
Lemma matchHere_bracket : forall part rest,
    ~ In RBRACKET part ->
    matchHere bracketRe (LBRACKET :: part ++ RBRACKET :: rest)
    = Some [(0, rest); (1, part)].
Proof.
  intros part rest H. unfold matchHere, bracketRe.
  cbn [rmatch]. change (isChar LBRACKET LBRACKET) with true. cbv iota.
  erewrite starG_first.
  - reflexivity.
  - apply notIn_forallb_notChar. exact H.
  - reflexivity.
  - cbn [rmatch]. change (isChar RBRACKET RBRACKET) with true. cbv iota.
    change (RBRACKET :: rest) with ([RBRACKET] ++ rest) at 1.
    rewrite firstn_consumed. reflexivity.
Qed.

Lemma bracketed_cons : forall p ps,
    bracketed (p :: ps) = LBRACKET :: p ++ RBRACKET :: bracketed ps.
Proof.
  intros p ps.
  change (bracketed (p :: ps))
    with (LBRACKET :: (p ++ [RBRACKET]) ++ bracketed ps).
  rewrite <- app_assoc. reflexivity.
Qed.

Lemma execAll_bracketed : forall parts fuel,
    Forall (fun part => ~ In RBRACKET part) parts ->
    List.length parts < fuel ->
    execAll fuel bracketRe (bracketed parts) = Some parts.
Proof.
  induction parts as [|p ps IH]; intros fuel H Hf.
  - destruct fuel as [|fuel]; [lia|]. reflexivity.
  - destruct fuel as [|fuel]; [lia|].
    inversion H as [|? ? Hp Hps]; subst.
    rewrite bracketed_cons. cbn [execAll search].
    rewrite (@matchHere_bracket p (bracketed ps) Hp).
    change (cap 0 [(0, bracketed ps); (1, p)]) with (bracketed ps).
    change (cap 1 [(0, bracketed ps); (1, p)]) with p.
    rewrite IH; [reflexivity|exact Hps|cbn [List.length] in Hf; lia].
Qed.

Lemma bracketed_length : forall parts,
    List.length parts <= List.length (bracketed parts).
Proof.
  induction parts as [|p ps IH]; [reflexivity|].
  cbn [bracketed flat_map List.length app]. fold (bracketed ps).
  rewrite length_app, length_app. cbn [List.length]. lia.
Qed.

(** The page reads back the names the server writes: [pathToArray]
    returns, and gives the parts [inputName] was called with, when the
    first part has no opening bracket and the others have no closing
    bracket. *)
Theorem X14_pathToArray_inputName :
  forall first others,
    ~ In LBRACKET first ->
    Forall (fun part => ~ In RBRACKET part) others ->
    pathToArray (inputName (first :: others)) = Some (first :: others).
Proof.
  intros first others Hf Ho. rewrite inputName_bracketed.
  unfold pathToArray. destruct others as [|p ps].
  - cbn [bracketed flat_map]. rewrite app_nil_r.
    rewrite (@indexOf_None _ _ Hf). reflexivity.
  - rewrite bracketed_cons.
    rewrite (@indexOf_app LBRACKET first _ Hf).
    rewrite skipn_length_app, firstn_length_app.
    rewrite <- bracketed_cons.
    rewrite execAll_bracketed; [reflexivity|exact Ho|].
    pose proof (bracketed_length (p :: ps)) as Hl.
    rewrite length_app. apply Nat.lt_succ_r.
    eapply Nat.le_trans; [exact Hl|apply Nat.le_add_l].
Qed.

Lemma X14_witness :
  pathToArray (u "server[hosts][0]") = Some [u "server"; u "hosts"; u "0"].
Proof.
  apply (@X14_pathToArray_inputName (u "server") [u "hosts"; u "0"]).
  - vm_compute. intuition discriminate.
  - repeat constructor; vm_compute; intuition discriminate.
Defined.

(** ** The normalizer keeps the lines apart *)

Lemma in_trimStart : forall c s, In c (trimStart s) -> In c s.
Proof.
  intros c s H. destruct (trimStart_split s) as (ws & E & _ & _).
  rewrite E. apply in_or_app. right. exact H.
Qed.

Lemma in_trim : forall c s, In c (trim s) -> In c s.
Proof.
  intros c s H. unfold trim, trimEnd in H.
  apply in_rev in H. apply in_trimStart in H. apply in_rev in H.
  apply in_trimStart in H. exact H.
Qed.

Lemma noBreak_escape : forall s,
    noBreak s = true -> noBreak (flat_map escapeChar s) = true.
Proof.
  induction s as [|c s IH]; intros H; [reflexivity|].
  cbn [noBreak forallb] in H. apply andb_true_iff in H. destruct H as [Hc Hs].
  cbn [flat_map]. rewrite noBreak_app, (IH Hs), andb_true_r.
  unfold escapeChar.
  destruct (N.eqb c BACKSLASH); [reflexivity|].
  destruct (N.eqb c DQUOTE); [reflexivity|].
  cbn [noBreak forallb]. rewrite Hc. reflexivity.
Qed.

Lemma relaxLine_noBreak : forall line,
    noBreak line = true -> noBreak (relaxLine line) = true.
Proof.
  intros line H. destruct (relaxLine_relaxed line)
    as [line|lhs ws v ws' comment _ _ _ _ _]; [exact H|].
  change (lhs ++ EQUALS :: ws ++ v ++ ws' ++ comment)
    with (lhs ++ [EQUALS] ++ ws ++ v ++ ws' ++ comment) in H.
  rewrite !noBreak_app in H.
  repeat (apply andb_true_iff in H;
          let H1 := fresh "H" in destruct H as [H1 H]).
  change (lhs ++ EQUALS :: ws ++ dq (flat_map escapeChar (trim v))
              ++ ws' ++ comment)
    with (lhs ++ [EQUALS] ++ ws ++
          ([DQUOTE] ++ flat_map escapeChar (trim v) ++ [DQUOTE])
          ++ ws' ++ comment).
  rewrite !noBreak_app.
  repeat (apply andb_true_iff; split); try assumption; try reflexivity.
  apply noBreak_escape. apply noBreak_sub with (s := v); [assumption|].
  intros c. apply in_trim.
Qed.

Lemma relaxed_lines : forall text,
    noCR text = true ->
    splitLines (relaxed text) = map relaxLine (splitLines text) /\
    noCR (relaxed text) = true.
Proof.
  intros text H. unfold relaxed.
  assert (Hnb : forallb noBreak (map relaxLine (splitLines text)) = true).
  { apply forallb_forall. intros l Hl. apply in_map_iff in Hl.
    destruct Hl as (l0 & <- & Hl0). apply relaxLine_noBreak.
    eapply lines_noBreak; eassumption. }
  split.
  - apply splitLines_joinLF; [|exact Hnb].
    pose proof (splitLines_not_nil text).
    destruct (splitLines text); [congruence|discriminate].
  - apply noCR_joinLF. exact Hnb.
Qed.

(** The normalizer works line by line: on a text without CR its result
    has as many lines as the text, and they are the normalized lines of
    the text, one for one; no CR comes in. *)
Theorem X15_relaxed_line_by_line : forall text,
    noCR text = true ->
    splitLines (relaxed text) = map relaxLine (splitLines text) /\
    noCR (relaxed text) = true.
Proof. exact relaxed_lines. Qed.

Lemma X15_witness :
  splitLines (relaxed Demo.doc_two_sections)
  = map relaxLine (splitLines Demo.doc_two_sections) /\
  noCR (relaxed Demo.doc_two_sections) = true.
Proof.
  apply (X15_relaxed_line_by_line Demo.doc_two_sections).
  vm_compute. reflexivity.
Defined.

(** ** Reading, then saving *)

Section ReadSaveProperties.

Variable RegExp_keyRe : str -> option (str -> option caps).
Variable number : Type.
Variable Number_isFinite : number -> bool.
Variable Number_toString : number -> str.
Variable toml_parse : str -> option (table number).
Variable toml_stringify : table number -> str.

(** [readTomlFile] parses the normalized text and hands out the text of
    the file as it is, and [handleSave] parses that text without
    normalizing it.  So for a file that [toml.parse] takes only after
    normalization, a save in preserve mode with the text the edit page
    got always falls back to the re-stringified tree: its format is
    never preserved. *)
Theorem X16_normalized_only_file_falls_back :
  forall text tree originalText (data : table number),
    readTomlFile toml_parse text = Some (tree, originalText) ->
    toml_parse text = None ->
    handleSave RegExp_keyRe Number_isFinite Number_toString
               toml_parse toml_stringify true (Some originalText) data
    = (toToml toml_stringify (JObj data), false).
Proof.
  intros text tree originalText data Hr Hp.
  unfold readTomlFile in Hr.
  destruct (toml_parse (relaxed text)) as [parsed|]; [|discriminate].
  injection Hr as _ <-.
  unfold handleSave. destruct text as [|c t]; [reflexivity|].
  rewrite Hp. reflexivity.
Qed.

End ReadSaveProperties.

Lemma X16_witness :
  handleSave Demo.RegExp_keyRe Demo.Number_isFinite Demo.Number_toString
             DemoRelax.toml_parse Demo.toml_stringify
             true (Some DemoRelax.doc_bare) DemoRelax.tree_bare
  = (u "<toml.stringify(data)>", false).
Proof.
  apply (@X16_normalized_only_file_falls_back Demo.RegExp_keyRe Demo.number
           Demo.Number_isFinite Demo.Number_toString DemoRelax.toml_parse
           Demo.toml_stringify DemoRelax.doc_bare DemoRelax.tree_bare
           DemoRelax.doc_bare DemoRelax.tree_bare);
    vm_compute; reflexivity.
Defined.

(** ** Normalizing twice *)

Lemma trimStart_app_stop : forall a c b,
    isSpace c = false -> trimStart (a ++ c :: b) = trimStart a ++ c :: b.
Proof.
  induction a as [|x a IH]; intros c b H.
  - cbn [app trimStart]. rewrite H. reflexivity.
  - cbn [app trimStart]. destruct (isSpace x); [apply IH; exact H|reflexivity].
Qed.

Lemma trimStart_spaces : forall w, forallb isSpace w = true -> trimStart w = [].
Proof.
  induction w as [|x w IH]; intros H; [reflexivity|].
  cbn [forallb] in H. apply andb_true_iff in H. destruct H as [Hx Hw].
  cbn [trimStart]. rewrite Hx. apply IH. exact Hw.
Qed.

Lemma trimEnd_cons_stop : forall c s,
    isSpace c = false -> trimEnd (c :: s) = c :: trimEnd s.
Proof.
  intros c s H. unfold trimEnd. cbn [rev].
  rewrite (@trimStart_app_stop (rev s) c [] H), rev_app_distr. reflexivity.
Qed.

(** Blanks, then a character that is not one: the text splits in one
    way only. *)
Lemma blanks_unique : forall a b x y r r',
    forallb isSpace a = true -> forallb isSpace b = true ->
    isSpace x = false -> isSpace y = false ->
    a ++ x :: r = b ++ y :: r' -> a = b /\ x = y /\ r = r'.
Proof.
  induction a as [|c a IH]; intros b x y r r' Ha Hb Hx Hy E.
  - destruct b as [|d b].
    + inversion E. auto.
    + cbn [forallb] in Hb. apply andb_true_iff in Hb. destruct Hb as [Hd _].
      inversion E; subst. congruence.
  - cbn [forallb] in Ha. apply andb_true_iff in Ha. destruct Ha as [Hc Ha].
    destruct b as [|d b].
    + inversion E; subst. congruence.
    + cbn [forallb] in Hb. apply andb_true_iff in Hb. destruct Hb as [_ Hb].
      inversion E; subst.
      destruct (IH b x y r r' Ha Hb Hx Hy) as (-> & -> & ->); auto.
Qed.

(** The first occurrence of a character splits a text in one way only. *)
Lemma first_unique : forall c (a b r r' : str),
    forallb (notChar c) a = true -> forallb (notChar c) b = true ->
    a ++ c :: r = b ++ c :: r' -> a = b /\ r = r'.
Proof.
  intros c. induction a as [|x a IH]; intros b r r' Ha Hb E.
  - destruct b as [|y b].
    + inversion E. auto.
    + cbn [forallb] in Hb. apply andb_true_iff in Hb. destruct Hb as [Hy _].
      inversion E; subst. unfold notChar in Hy. rewrite N.eqb_refl in Hy.
      discriminate.
  - cbn [forallb] in Ha. apply andb_true_iff in Ha. destruct Ha as [Hx Ha].
    destruct b as [|y b].
    + inversion E; subst. unfold notChar in Hx. rewrite N.eqb_refl in Hx.
      discriminate.
    + cbn [forallb] in Hb. apply andb_true_iff in Hb. destruct Hb as [_ Hb].
      inversion E; subst.
      destruct (IH b r r' Ha Hb) as (-> & ->); auto.
Qed.

Lemma space_notEq : forall w,
    forallb isSpace w = true -> forallb (notChar EQUALS) w = true.
Proof.
  intros w H. rewrite forallb_forall in *. intros c Hc.
  specialize (H c Hc). unfold notChar.
  destruct (N.eqb EQUALS c) eqn:E; [|reflexivity].
  apply N.eqb_eq in E. subst c. discriminate H.
Qed.

Lemma notEqNorSpace_notEq : forall x,
    notEqNorSpace x = true -> notChar EQUALS x = true.
Proof.
  intros x H. unfold notEqNorSpace in H. apply andb_true_iff in H.
  destruct H as [H _]. unfold notChar. rewrite N.eqb_sym. exact H.
Qed.

(** The shape of a match of the assignment pattern: the first group is
    blanks, a character that is no blank, a text without equals sign,
    the equals sign and blanks; the second starts with a character that
    may start a value; the three groups make up the line. *)
Lemma assignRe_shape : forall line m,
    exec assignRe line = Some m ->
    line = cap 1 m ++ cap 2 m ++ cap 3 m /\
    (exists sp x K ws,
        cap 1 m = sp ++ x :: K ++ EQUALS :: ws /\
        forallb isSpace sp = true /\ isSpace x = false /\
        forallb (notChar EQUALS) K = true /\ forallb isSpace ws = true) /\
    (exists z vr, cap 2 m = z :: vr /\ valueStart z = true).
Proof.
  intros line m H. apply exec_sound in H. unfold assignRe in H.
  inv_den;
    repeat match goal with
           | He : isChar _ _ = true |- _ => apply N.eqb_eq in He; subst
           end;
    unfold cap; cbn [getcap Nat.eqb].
  all: split; [rewrite <- ?app_assoc; reflexivity|].
  all: split; [|do 2 eexists; split; [reflexivity|assumption]].
  all: match goal with
       | Hx : notHashNorSpace ?x1 = true, Hy : notEqNorSpace ?x0 = true,
         H0 : forallb isSpace ?w0 = true,
         H6 : forallb (notChar EQUALS) ?w6 = true
         |- context [?w0 ++ [?x1] ++ ?w6 ++ [?x0] ++ ?w8 ++ [EQUALS] ++ ?w11] =>
           exists w0, x1, (w6 ++ [x0] ++ w8), w11;
           split; [rewrite <- !app_assoc; reflexivity|];
           split; [exact H0|];
           split; [apply notHashNorSpace_notSpace; exact Hx|];
           split; [|assumption];
           rewrite !forallb_app; rewrite H6;
           cbn [forallb]; rewrite (@notEqNorSpace_notEq _ Hy);
           rewrite space_notEq by assumption; reflexivity
       end.
Qed.

(** Blanks and a double quote against blanks and a character that may
    start a value: that character is one of the blanks before the
    quote. *)
Lemma blanks_before_quote : forall a b z r r',
    forallb isSpace a = true -> forallb isSpace b = true ->
    valueStart z = true ->
    a ++ DQUOTE :: r = b ++ z :: r' ->
    isSpace z = true /\
    exists a2, forallb isSpace a2 = true /\ r' = a2 ++ DQUOTE :: r.
Proof.
  induction a as [|c a IH]; intros b z r r' Ha Hb Hz E.
  - destruct b as [|d b].
    + inversion E; subst. discriminate Hz.
    + cbn [forallb] in Hb. apply andb_true_iff in Hb. destruct Hb as [Hd _].
      inversion E; subst. discriminate Hd.
  - cbn [forallb] in Ha. apply andb_true_iff in Ha. destruct Ha as [Hc Ha].
    destruct b as [|d b].
    + inversion E; subst. split; [exact Hc|].
      exists a. split; [exact Ha|reflexivity].
    + cbn [forallb] in Hb. apply andb_true_iff in Hb. destruct Hb as [_ Hb].
      inversion E; subst. exact (IH b z r r' Ha Hb Hz H1).
Qed.

Lemma looksLikeBareString_quoted : forall w more,
    forallb isSpace w = true ->
    looksLikeBareString (w ++ DQUOTE :: more) = false.
Proof.
  intros w more Hw. unfold looksLikeBareString, trim.
  rewrite (@trimStart_spaces_cons w DQUOTE more Hw eq_refl).
  rewrite (@trimEnd_cons_stop DQUOTE more eq_refl). reflexivity.
Qed.

Lemma looksLikeBareString_blank : forall w,
    forallb isSpace w = true -> looksLikeBareString w = false.
Proof.
  intros w Hw. unfold looksLikeBareString, trim.
  rewrite (trimStart_spaces _ Hw). reflexivity.
Qed.

(** A line the normalizer has been over is left as it is by a second
    pass: the quoted value it wrote is no bare string. *)
Lemma relaxLine_idempotent : forall line,
    relaxLine (relaxLine line) = relaxLine line.
Proof.
  intros line.
  destruct (test sectionHeaderTestRe line) eqn:Eh.
  { assert (E : relaxLine line = line)
      by (unfold relaxLine; rewrite Eh; reflexivity).
    rewrite E. exact E. }
  destruct (exec assignRe line) as [m|] eqn:Em.
  2: { assert (E : relaxLine line = line)
         by (unfold relaxLine; rewrite Eh, Em; reflexivity).
       rewrite E. exact E. }
  destruct (looksLikeBareString (cap 2 m)) eqn:Eb.
  2: { assert (E : relaxLine line = line)
         by (unfold relaxLine; rewrite Eh, Em, Eb; reflexivity).
       rewrite E. exact E. }
  assert (EL : relaxLine line
               = cap 1 m ++ dq (flat_map escapeChar (trim (cap 2 m)))
                       ++ cap 3 m).
  { unfold relaxLine. rewrite Eh, Em, Eb. cbn [negb].
    rewrite escape_replaceAll. reflexivity. }
  rewrite EL. clear EL.
  set (q := flat_map escapeChar (trim (cap 2 m))).
  destruct (assignRe_shape _ Em)
    as (_ & (sp & x & K & ws & E1 & Hsp & Hx & HK & Hws) & _).
  rewrite E1. clear E1.
  set (line' := (sp ++ x :: K ++ EQUALS :: ws) ++ dq q ++ cap 3 m).
  unfold relaxLine.
  destruct (test sectionHeaderTestRe line'); [reflexivity|].
  destruct (exec assignRe line') as [m2|] eqn:Em2; [|reflexivity].
  destruct (assignRe_shape _ Em2)
    as (EL2 & (sp2 & x2 & K2 & ws2 & E12 & Hsp2 & Hx2 & HK2 & Hws2)
        & (z & vr & E22 & Hz)).
  enough (Hb : looksLikeBareString (cap 2 m2) = false)
    by (rewrite Hb; reflexivity).
  rewrite E22.
  assert (EN : sp ++ x :: K ++ EQUALS :: ws ++ DQUOTE :: q ++ DQUOTE
                  :: cap 3 m
               = sp2 ++ x2 :: K2 ++ EQUALS :: ws2 ++ z :: vr ++ cap 3 m2).
  { rewrite E12, E22 in EL2. unfold line', dq in EL2.
    repeat (rewrite <- app_assoc in EL2 || rewrite <- app_comm_cons in EL2).
    exact EL2. }
  apply blanks_unique in EN; try assumption.
  destruct EN as (_ & _ & EN).
  apply first_unique in EN; try assumption.
  destruct EN as (_ & EN).
  apply blanks_before_quote in EN; try assumption.
  destruct EN as (Hzs & a2 & Ha2 & EN).
  apply app_eq_app in EN. destruct EN as (l & [[E3 E4]|[E3 E4]]).
  - destruct l as [|d l].
    + rewrite app_nil_r in E3. subst vr.
      apply looksLikeBareString_blank. cbn [forallb]. rewrite Hzs. exact Ha2.
    + cbn [app] in E4. inversion E4; subst.
      change (z :: a2 ++ DQUOTE :: l) with ((z :: a2) ++ DQUOTE :: l).
      apply looksLikeBareString_quoted. cbn [forallb]. rewrite Hzs. exact Ha2.
  - subst a2. rewrite forallb_app in Ha2. apply andb_true_iff in Ha2.
    destruct Ha2 as [Hvr _].
    apply looksLikeBareString_blank. cbn [forallb]. rewrite Hzs. exact Hvr.
Qed.

(** Normalizing twice is normalizing once, on a text without CR. *)
Theorem X17_relaxed_idempotent : forall text,
    noCR text = true -> relaxed (relaxed text) = relaxed text.
Proof.
  intros text H. destruct (relaxed_lines text H) as [E _].
  unfold relaxed at 1. rewrite E, map_map. unfold relaxed. f_equal.
  apply map_ext. intros line. apply relaxLine_idempotent.
Qed.

Lemma X17_witness :
  relaxed (relaxed DemoRelax.doc_bare) = relaxed DemoRelax.doc_bare.
Proof.
  apply (X17_relaxed_idempotent DemoRelax.doc_bare).
  vm_compute. reflexivity.
Defined.

(** ** Patching twice *)

Lemma fm_Opt_none : forall a s c,
    (forall k, rmatch a s c k = None) -> first_match (Opt a) [] s c c.
Proof.
  intros a s c Ha k res H. cbn [app rmatch]. rewrite Ha. exact H.
Qed.

(** The key pattern on an assignment line without [#]. *)
Lemma keyRe_plain_end : forall key indent ws1 val,
    key <> [] -> stops isSpace key ->
    forallb isSpace indent = true ->
    forallb isSpace ws1 = true ->
    forallb (notChar HASH) val = true ->
    exec (keyRe key) (indent ++ key ++ ws1 ++ EQUALS :: val)
    = Some [(4, []); (3, trimStart val); (2, key); (1, indent)].
Proof.
  intros key indent ws1 val Hk Hks Hi Hw Hv.
  destruct (trimStart_split val) as (ws2 & E & Hws2 & Hst).
  pose proof (forallb_trimStart _ _ Hv) as Hv'.
  remember (trimStart val) as v eqn:Heqv.
  assert (F : first_match (keyRe key)
                (indent ++ key ++ ws1 ++ [EQUALS] ++ ws2 ++ v ++ [] ++ [])
                [] []
                [(4, [] ++ []); (3, v); (2, key); (1, indent)]).
  { unfold keyRe.
    eapply fm_Seq.
    { apply fm_Grp, fm_StarG; [exact Hi|].
      rewrite <- app_assoc. apply stops_app; assumption. }
    eapply fm_Seq; [apply fm_Grp, fm_lit|].
    eapply fm_Seq; [apply fm_StarG; [exact Hw|reflexivity]|].
    eapply fm_Seq; [apply fm_Cls; reflexivity|].
    eapply fm_Seq.
    { apply fm_StarG; [exact Hws2|].
      rewrite <- app_assoc. apply stops_app_nil; [exact Hst|exact I]. }
    eapply fm_Seq.
    { apply fm_Grp, fm_StarG; [exact Hv'|exact I]. }
    apply fm_Grp.
    eapply fm_Seq; [apply fm_StarG; [reflexivity|exact I]|].
    apply fm_Opt_none. intros k. reflexivity. }
  apply first_match_exec in F.
  rewrite E. simpl app in F.
  etransitivity; [|exact F]. f_equal.
  simpl. rewrite <- ?app_assoc, ?app_nil_r. reflexivity.
Qed.

(** The match the engine finds on a line, for a key that is not empty
    and does not start with a blank: the first group is the blanks
    before the key, the fourth is empty or starts at the first [#]; the
    blanks before the [#] are not in it. *)
Lemma keyRe_exec_shape : forall key line km,
    key <> [] -> stops isSpace key ->
    exec (keyRe key) line = Some km ->
    exists indent ws1 val comment,
      line = indent ++ key ++ ws1 ++ EQUALS :: val ++ comment /\
      forallb isSpace indent = true /\
      forallb isSpace ws1 = true /\
      forallb (notChar HASH) val = true /\
      (comment = [] \/
       exists t, comment = HASH :: t /\ forallb isDot t = true) /\
      cap 1 km = indent /\ cap 4 km = comment.
Proof.
  intros key line km Hk Hks H.
  destruct (keyRe_sound _ _ H)
    as (ws1 & ws2 & comment & E & H1 & Hws1 & Hws2 & H3
        & (ws3 & E4 & Hws3) & Hc).
  assert (Hsp : forall w, forallb isSpace w = true ->
                          forallb (notChar HASH) w = true).
  { intros w Hw. rewrite forallb_forall in *. intros c Hc'.
    specialize (Hw c Hc'). unfold notChar.
    destruct (N.eqb HASH c) eqn:Eq; [|reflexivity].
    apply N.eqb_eq in Eq. subst c. discriminate Hw. }
  exists (cap 1 km), ws1, (ws2 ++ cap 3 km ++ ws3), comment.
  assert (EL : line = cap 1 km ++ key ++ ws1 ++
                      EQUALS :: (ws2 ++ cap 3 km ++ ws3) ++ comment).
  { rewrite E at 1. rewrite E4. rewrite <- !app_assoc. reflexivity. }
  assert (Hval : forallb (notChar HASH) (ws2 ++ cap 3 km ++ ws3) = true).
  { rewrite !forallb_app, (Hsp _ Hws2), H3, (Hsp _ Hws3). reflexivity. }
  split; [exact EL|]. split; [exact H1|]. split; [exact Hws1|].
  split; [exact Hval|]. split; [exact Hc|].
  rewrite EL in H.
  destruct Hc as [->|(t & -> & Ht)].
  - rewrite app_nil_r in H.
    rewrite (@keyRe_plain_end key (cap 1 km) ws1 _ Hk Hks H1 Hws1 Hval) in H.
    injection H as <-. split; reflexivity.
  - rewrite (@keyRe_hash key (cap 1 km) ws1 _ t Hk Hks H1 Hws1 Hval Ht) in H.
    injection H as <-. split; reflexivity.
Qed.

(** A rewritten line, matched again, is rewritten to itself when the
    literal has no [#]. *)
Lemma rewritten_again : forall key v line km,
    key <> [] -> stops isSpace key ->
    forallb (notChar HASH) v = true ->
    exec (keyRe key) line = Some km ->
    forallb isSpace (cap 1 km) = true /\
    exists km',
      exec (keyRe key) (rewritten key v km) = Some km' /\
      rewritten key v km' = rewritten key v km.
Proof.
  intros key v line km Hk Hks Hv H.
  destruct (@keyRe_exec_shape key line km Hk Hks H)
    as (indent & ws1 & val & comment & _ & Hi & _ & _ & Hc & E1 & E4).
  split; [rewrite E1; exact Hi|].
  assert (EQ : rewritten key v km
               = indent ++ key ++ [32%N] ++ EQUALS :: (32%N :: v) ++ comment).
  { unfold rewritten. rewrite E1, E4. reflexivity. }
  assert (Hv' : forallb (notChar HASH) (32%N :: v) = true)
    by (cbn [forallb]; rewrite Hv; reflexivity).
  rewrite EQ.
  destruct Hc as [->|(t & -> & Ht)].
  - pose proof (@keyRe_plain_end key indent [32%N] (32%N :: v)
                  Hk Hks Hi eq_refl Hv') as X.
    eexists. split; [rewrite app_nil_r; exact X|].
    unfold rewritten, cap. cbn [getcap Nat.eqb]. reflexivity.
  - pose proof (@keyRe_hash key indent [32%N] (32%N :: v) t
                  Hk Hks Hi eq_refl Hv' Ht) as X.
    eexists. split; [exact X|].
    unfold rewritten, cap. cbn [getcap Nat.eqb]. reflexivity.
Qed.

Section PatchTwice.

Variable RegExp_keyRe : str -> option (str -> option caps).

Hypothesis RegExp_plain : forall fragment,
    plainKey fragment = true ->
    RegExp_keyRe fragment = Some (exec (keyRe fragment)).

(** Patching twice is patching once.  For a key without pattern syntax
    characters that is not empty and does not start with a blank, a
    literal without [#], no line break in either, and a text without
    CR: the patcher, called again on its own result with the same
    section, key and literal, returns that result. *)
Theorem X18_patch_idempotent :
  forall text sectionPath key newValToml r,
    plainKey key = true -> key <> [] -> stops isSpace key ->
    noBreak key = true -> noBreak newValToml = true ->
    forallb (notChar HASH) newValToml = true ->
    noCR text = true ->
    patchScalarInSection RegExp_keyRe text sectionPath key newValToml = Some r ->
    patchScalarInSection RegExp_keyRe (ptext r) sectionPath key newValToml
    = Some (mkPatchResult (ptext r) (patched r)).
Proof.
  intros text sectionPath key v r Hp Hk Hks Hnk Hnv Hv Hcr H.
  unfold patchScalarInSection in H.
  destruct (scanLines RegExp_keyRe (joinDot sectionPath) key v
              (Nat.eqb (List.length sectionPath) 0) (splitLines text))
    as [[ls' p]|] eqn:E; [|discriminate].
  injection H as <-. cbn [ptext patched].
  destruct p.
  - apply scanLines_patched in E.
    destruct E as (pre & line & post & kmatch & km & Els & Ere & Hno & Hst
                   & Hh & Ekm & Hls').
    pose proof Ere as Ere'.
    rewrite (escapeKey_plain _ Hp), (RegExp_plain _ Hp) in Ere'.
    injection Ere' as <-.
    assert (Hall : forall l, In l (splitLines text) -> noBreak l = true).
    { intros l. apply lines_noBreak. exact Hcr. }
    assert (Hnb : forallb noBreak ls' = true).
    { rewrite Hls'. apply forallb_forall. intros l Hl.
      rewrite Els in Hall.
      apply in_app_or in Hl. destruct Hl as [Hl|[<-|Hl]].
      - apply Hall. apply in_or_app. left. exact Hl.
      - apply rewritten_noBreak with (line := line); try assumption.
        apply Hall. apply in_or_app. right. left. reflexivity.
      - apply Hall. apply in_or_app. right. right. exact Hl. }
    unfold patchScalarInSection.
    rewrite splitLines_joinLF; [|rewrite Hls'; destruct pre; discriminate
                                |exact Hnb].
    destruct (@rewritten_again key v line km Hk Hks Hv Ekm) as (Hi & km' & Ekm' & Erw).
    rewrite Hls'.
    erewrite (@scanLines_first RegExp_keyRe (joinDot sectionPath) key v
                (exec (keyRe key)) pre _ (rewritten key v km) post km');
      [rewrite Erw; reflexivity|exact Ere|exact Hno|exact Hst| |exact Ekm'].
    unfold rewritten. apply plain_key_line_not_header; assumption.
  - pose proof E as E0. apply scanLines_unpatched in E0. subst ls'.
    rewrite joinLF_splitLines, (crlfToLf_no_CR _ Hcr).
    unfold patchScalarInSection. rewrite E.
    rewrite joinLF_splitLines, (crlfToLf_no_CR _ Hcr). reflexivity.
Qed.

End PatchTwice.

Lemma X18_witness :
  Demo.patchScalarInSection (joinLF [u "key = 9"; u "key = 2"]) []
                            (u "key") (u "9")
  = Some (mkPatchResult (joinLF [u "key = 9"; u "key = 2"]) true).
Proof.
  apply (@X18_patch_idempotent Demo.RegExp_keyRe Demo_RegExp_plain
           Demo.doc_duplicate [] (u "key") (u "9")
           (mkPatchResult (joinLF [u "key = 9"; u "key = 2"]) true)).
  - reflexivity.
  - discriminate.
  - reflexivity.
  - reflexivity.
  - reflexivity.
  - reflexivity.
  - reflexivity.
  - vm_compute. reflexivity.
Defined.

(** ** What the serializer of strings lets through *)

(** [quoteTomlString] escapes the backslash and the double quote and
    nothing else: every other character, a line feed or another control
    character included, is in the literal exactly when it is in the
    string. *)
Theorem X19_quoteTomlString_passes_other_characters :
  forall s c,
    c <> BACKSLASH -> c <> DQUOTE ->
    (In c (quoteTomlString s) <-> In c s).
Proof.
  intros s c Hb Hq. rewrite quoteTomlString_escape. unfold dq.
  assert (Hin : In c (flat_map escapeChar s) <-> In c s).
  { rewrite in_flat_map. split.
    - intros (x & Hx & Hc). unfold escapeChar in Hc.
      destruct (N.eqb x BACKSLASH).
      + destruct Hc as [Hc|[Hc|[]]]; congruence.
      + destruct (N.eqb x DQUOTE).
        * destruct Hc as [Hc|[Hc|[]]]; congruence.
        * destruct Hc as [<-|[]]. exact Hx.
    - intros H. exists c. split; [exact H|]. unfold escapeChar.
      destruct (N.eqb c BACKSLASH) eqn:E1;
        [apply N.eqb_eq in E1; congruence|].
      destruct (N.eqb c DQUOTE) eqn:E2;
        [apply N.eqb_eq in E2; congruence|].
      left. reflexivity. }
  split.
  - intros [H|H]; [congruence|].
    apply in_app_or in H. destruct H as [H|[H|[]]]; [|congruence].
    apply Hin. exact H.
  - intros H. right. apply in_or_app. left. apply Hin. exact H.
Qed.

Lemma X19_witness :
  In LF (quoteTomlString (u "a" ++ LF :: u "b")) <-> In LF (u "a" ++ LF :: u "b").
Proof.
  apply (@X19_quoteTomlString_passes_other_characters
           (u "a" ++ LF :: u "b") LF); discriminate.
Defined.

(** ** The command line, whatever the arguments *)

Section ArgsProperties.

Variable number : Type.
Variable Number_of : str -> number.
Variable Number_truthy : number -> bool.
Variable Number_8787 : number.
Variable Deno_cwd : str.
Variable path_resolve : str -> str.

Hypothesis truthy_8787 : Number_truthy Number_8787 = true.

Abbreviation configOk := (configOk Number_truthy).

Lemma indexOf_Some : forall c s i,
    indexOf c s = Some i ->
    i < List.length s /\ ~ In c (firstn i s).
Proof.
  intros c. induction s as [|x s IH]; intros i H; [discriminate|].
  cbn [indexOf] in H. destruct (N.eqb x c) eqn:E.
  - injection H as <-. cbn [List.length firstn]. split; [lia|intros []].
  - destruct (indexOf c s) as [j|]; [|discriminate].
    injection H as <-. destruct (IH j eq_refl) as [Hl Hn].
    cbn [List.length firstn]. split; [lia|].
    intros [Hc|Hc]; [apply N.eqb_neq in E; congruence|exact (Hn Hc)].
Qed.

Lemma parseArg_ok : forall config a,
    configOk config ->
    configOk (parseArg Number_of Number_truthy Number_8787 path_resolve
                       config a).
Proof.
  intros config a [Hp Ha]. unfold parseArg.
  set (config1 := if hasPrefix (u "--root=") a then _ else config).
  assert (H1 : configOk config1).
  { subst config1. destruct (hasPrefix (u "--root=") a);
      split; assumption. }
  clearbody config1. clear Hp Ha.
  set (config2 := if hasPrefix (u "--port=") a then _ else config1).
  assert (H2 : configOk config2).
  { subst config2. destruct H1 as [Hp Ha].
    destruct (hasPrefix (u "--port=") a); [|split; assumption].
    split; [|exact Ha]. cbn [port].
    destruct (Number_truthy (Number_of (skipn 7 a))) eqn:E;
      [exact E|exact truthy_8787]. }
  clearbody config2. clear H1.
  destruct (hasPrefix (u "--auth=") a); [|exact H2].
  destruct (indexOf COLON (skipn 7 a)) as [[|i]|] eqn:E; try exact H2.
  destruct H2 as [Hp _]. split; [exact Hp|].
  right. do 2 eexists. cbn [authUser authPass].
  split; [reflexivity|]. split; [reflexivity|].
  apply indexOf_Some in E. destruct E as [Hl Hn].
  split; [|exact Hn].
  destruct (skipn 7 a); [cbn [List.length] in Hl; lia|discriminate].
Qed.

(** Whatever the arguments, the configuration [parseArgs] returns has a
    port that is a true number (not 0, not NaN), and either no
    credentials at all or a user name and a password, the user name not
    empty and without colon. *)
Theorem X20_parseArgs_configuration :
  forall args,
    configOk (parseArgs Number_of Number_truthy Number_8787 Deno_cwd
                        path_resolve args).
Proof.
  intros args. unfold parseArgs.
  assert (H0 : configOk (mkAppConfig Deno_cwd Number_8787 None None)).
  { split; [exact truthy_8787|]. left. split; reflexivity. }
  revert H0. generalize (mkAppConfig Deno_cwd Number_8787 None None).
  induction args as [|a args IH]; intros config H; [exact H|].
  cbn [fold_left]. apply IH. apply parseArg_ok. exact H.
Qed.

End ArgsProperties.

Lemma X20_witness :
  configOk (fun z => negb (Z.eqb z 0))
           (DemoAuth.parseArgs [u "--port=0"; u "--auth=admin:s3cret"]).
Proof.
  apply (@X20_parseArgs_configuration Z (fun _ => 0%Z)
           (fun z => negb (Z.eqb z 0)) 8787%Z (u "/srv") (fun p => p)
           eq_refl [u "--port=0"; u "--auth=admin:s3cret"]).
Defined.

(** ** Lines with two brackets *)

(** The shape of a header line of the patcher. *)
Lemma sectionHeaderRe_shape : forall line m,
    exec sectionHeaderRe line = Some m ->
    exists sp g sp',
      line = sp ++ LBRACKET :: g ++ RBRACKET :: sp' /\
      forallb isSpace sp = true /\
      forallb (notChar RBRACKET) g = true /\
      forallb isSpace sp' = true.
Proof.
  intros line m H. apply exec_sound in H. unfold sectionHeaderRe in H.
  inv_den.
  repeat match goal with
         | He : isChar _ _ = true |- _ => apply N.eqb_eq in He; subst
         end.
  match goal with
  | Hx : notChar RBRACKET ?x = true, Hg : forallb (notChar RBRACKET) ?g = true
    |- context [?sp ++ [LBRACKET] ++ ([?x] ++ ?g) ++ [RBRACKET] ++ ?sp'] =>
      exists sp, (x :: g), sp'
  end.
  split; [reflexivity|]. split; [assumption|]. split; [|assumption].
  cbn [forallb]. apply andb_true_iff. split; assumption.
Qed.

Section TwoBrackets.

Variable RegExp_keyRe : str -> option (str -> option caps).

Hypothesis RegExp_plain : forall fragment,
    plainKey fragment = true ->
    RegExp_keyRe fragment = Some (exec (keyRe fragment)).

(** The header of an array of tables is no header for the patcher: its
    pattern has no closing bracket inside the brackets.  The loop goes
    past such a line with [inSection] as it was, so the assignments
    that follow it are searched, or skipped, as lines of the section
    before. *)
Theorem X21_array_of_tables_header_is_skipped :
  forall targetHeader key newValToml inSection name rest,
    plainKey key = true -> key <> [] -> ~ In RBRACKET name ->
    let line := LBRACKET :: LBRACKET :: name ++ [RBRACKET; RBRACKET] in
    scanLines RegExp_keyRe targetHeader key newValToml inSection
              (line :: rest)
    = match scanLines RegExp_keyRe targetHeader key newValToml inSection
                      rest with
      | Some (rest', p) => Some (line :: rest', p)
      | None => None
      end.
Proof.
  intros T key v b name rest Hp Hk Hn line.
  assert (Hh : exec sectionHeaderRe line = None).
  { destruct (exec sectionHeaderRe line) as [m|] eqn:E; [|reflexivity].
    exfalso. apply sectionHeaderRe_shape in E.
    destruct E as (sp & g & sp' & E & Hsp & Hg & Hsp').
    destruct sp as [|c sp].
    - cbn [app] in E. subst line. injection E as E.
      change (LBRACKET :: name ++ [RBRACKET; RBRACKET])
        with ((LBRACKET :: name) ++ RBRACKET :: [RBRACKET]) in E.
      apply first_unique in E.
      + destruct E as [_ E]. subst sp'. discriminate Hsp'.
      + cbn [forallb]. rewrite notIn_forallb_notChar by exact Hn. reflexivity.
      + exact Hg.
    - subst line. injection E as E _. subst c. discriminate Hsp. }
  assert (Hm : exec (keyRe key) line = None).
  { destruct (exec (keyRe key) line) as [km|] eqn:E; [|reflexivity].
    exfalso. apply keyRe_sound in E.
    destruct E as (ws1 & ws2 & comment & E & H1 & _).
    destruct (cap 1 km) as [|c sp].
    - destruct key as [|k0 key]; [congruence|].
      subst line. injection E as E _. subst k0.
      unfold plainKey in Hp. cbn [forallb] in Hp. discriminate Hp.
    - subst line. injection E as E _. subst c. discriminate H1. }
  rewrite scanLines_cons, Hh. unfold goOn.
  destruct b; [|reflexivity].
  rewrite (escapeKey_plain _ Hp), (RegExp_plain _ Hp), Hm. reflexivity.
Qed.

End TwoBrackets.

Lemma X21_witness :
  scanLines Demo.RegExp_keyRe (u "a") (u "name") (u "9") true
            [u "[[b]]"; u "name = 1"]
  = Some ([u "[[b]]"; u "name = 9"], true).
Proof.
  apply (@X21_array_of_tables_header_is_skipped Demo.RegExp_keyRe
           Demo_RegExp_plain (u "a") (u "name") (u "9") true (u "b")
           [u "name = 1"]).
  - reflexivity.
  - discriminate.
  - vm_compute. intuition discriminate.
Defined.

(** ** What a patch does to the lines *)

(** A line matched by the pattern of a key has an equals sign, and its
    first character that is no blank is that sign or a character of the
    key. *)
Lemma keyRe_has_equals : forall key line km,
    exec (keyRe key) line = Some km -> In EQUALS line.
Proof.
  intros key line km H.
  destruct (keyRe_sound _ _ H) as (ws1 & ws2 & comment & E & _).
  rewrite E. apply in_or_app. right. apply in_or_app. right.
  apply in_or_app. right. left. reflexivity.
Qed.

Lemma first_stop_before : forall c ws rest (A R : str),
    forallb isSpace ws = true -> isSpace c = false ->
    ws ++ c :: rest = A ++ EQUALS :: R ->
    c = EQUALS \/ In c A.
Proof.
  intros c. induction ws as [|w ws IH]; intros rest A R Hws Hc E.
  - destruct A as [|a A]; inversion E; subst; [left; reflexivity|].
    right. left. reflexivity.
  - cbn [forallb] in Hws. apply andb_true_iff in Hws.
    destruct Hws as [Hw Hws].
    destruct A as [|a A]; inversion E; subst; [discriminate Hw|].
    destruct (IH rest A R Hws Hc H1) as [->|Hin]; [left; reflexivity|].
    right. right. exact Hin.
Qed.

Lemma keyRe_first_char : forall key ws c rest km,
    forallb isSpace ws = true -> isSpace c = false ->
    exec (keyRe key) (ws ++ c :: rest) = Some km ->
    c = EQUALS \/ In c key.
Proof.
  intros key ws c rest km Hws Hc H.
  destruct (keyRe_sound _ _ H)
    as (ws1 & ws2 & comment & E & H1 & Hws1 & _).
  rewrite !app_assoc in E.
  destruct (@first_stop_before c ws rest _ _ Hws Hc E) as [->|Hin];
    [left; reflexivity|].
  apply in_app_or in Hin. destruct Hin as [Hin|Hin].
  - apply in_app_or in Hin. destruct Hin as [Hin|Hin].
    + rewrite forallb_forall in H1. rewrite (H1 c Hin) in Hc. discriminate.
    + right. exact Hin.
  - rewrite forallb_forall in Hws1. rewrite (Hws1 c Hin) in Hc. discriminate.
Qed.

Section FrameProperties.

Variable RegExp_keyRe : str -> option (str -> option caps).

Hypothesis RegExp_plain : forall fragment,
    plainKey fragment = true ->
    RegExp_keyRe fragment = Some (exec (keyRe fragment)).

(** The one line a patch changes.  When the patcher reports [patched],
    for a key without pattern syntax characters that is not empty and
    does not start with a blank: one line of the text, made of blanks,
    the key, blanks, the equals sign, a text without [#] and a rest that
    is empty or starts with [#], has become the blanks, the key, [ = ],
    the literal and that rest; the lines before and after it are as
    they were. *)
Theorem X22_patch_rewrites_one_line :
  forall text sectionPath key newValToml r,
    plainKey key = true -> key <> [] -> stops isSpace key ->
    patchScalarInSection RegExp_keyRe text sectionPath key newValToml = Some r ->
    patched r = true ->
    exists pre post indent ws val comment,
      splitLines text
      = pre ++ (indent ++ key ++ ws ++ EQUALS :: val ++ comment) :: post /\
      ptext r
      = joinLF (pre ++ (indent ++ key ++ u " = " ++ newValToml ++ comment)
                    :: post) /\
      forallb isSpace indent = true /\ forallb isSpace ws = true /\
      forallb (notChar HASH) val = true /\
      (comment = [] \/ exists t, comment = HASH :: t).
Proof.
  intros text sectionPath key v r Hp Hk Hks H Hr.
  unfold patchScalarInSection in H.
  destruct (scanLines RegExp_keyRe (joinDot sectionPath) key v
              (Nat.eqb (List.length sectionPath) 0) (splitLines text))
    as [[ls' p]|] eqn:E; [|discriminate].
  injection H as <-. cbn [ptext patched] in *. subst p.
  apply scanLines_patched in E.
  destruct E as (pre & line & post & kmatch & km & Els & Ere & _ & _ & _
                 & Ekm & Hls').
  rewrite (escapeKey_plain _ Hp), (RegExp_plain _ Hp) in Ere.
  injection Ere as <-.
  destruct (@keyRe_exec_shape key line km Hk Hks Ekm)
    as (indent & ws1 & val & comment & EL & Hi & Hw & Hv & Hc & E1 & E4).
  exists pre, post, indent, ws1, val, comment.
  split; [rewrite Els, EL; reflexivity|].
  split; [rewrite Hls'; unfold rewritten; rewrite E1, E4; reflexivity|].
  split; [exact Hi|]. split; [exact Hw|]. split; [exact Hv|].
  destruct Hc as [->|(t & -> & _)]; [left; reflexivity|].
  right. exists t. reflexivity.
Qed.

Lemma patch_keeps_unmatched : forall text i r,
    cleanInstr i = true -> noCR text = true ->
    patchScalarInSection RegExp_keyRe text (sectionPath i) (ikey i)
                         (literal i) = Some r ->
    forall n line,
      nth_error (splitLines text) n = Some line ->
      exec (keyRe (ikey i)) line = None ->
      nth_error (splitLines (ptext r)) n = Some line.
Proof.
  intros text i r Hc Hcr H n l Hn Hl.
  unfold cleanInstr in Hc. apply andb_true_iff in Hc. destruct Hc as [Hc Hnv].
  apply andb_true_iff in Hc. destruct Hc as [Hp Hnk].
  unfold patchScalarInSection in H.
  destruct (scanLines RegExp_keyRe (joinDot (sectionPath i)) (ikey i)
              (literal i) (Nat.eqb (List.length (sectionPath i)) 0)
              (splitLines text))
    as [[ls' p]|] eqn:E; [|discriminate].
  injection H as <-. cbn [ptext].
  destruct p.
  - apply scanLines_patched in E.
    destruct E as (pre & line & post & kmatch & km & Els & Ere & _ & _ & _
                   & Ekm & Hls').
    rewrite (escapeKey_plain _ Hp), (RegExp_plain _ Hp) in Ere.
    injection Ere as <-.
    assert (Hall : forall x, In x (splitLines text) -> noBreak x = true).
    { intros x. apply lines_noBreak. exact Hcr. }
    assert (Hnb : forallb noBreak ls' = true).
    { rewrite Hls'. apply forallb_forall. intros x Hx.
      rewrite Els in Hall.
      apply in_app_or in Hx. destruct Hx as [Hx|[<-|Hx]].
      - apply Hall. apply in_or_app. left. exact Hx.
      - apply rewritten_noBreak with (line := line); try assumption.
        apply Hall. apply in_or_app. right. left. reflexivity.
      - apply Hall. apply in_or_app. right. right. exact Hx. }
    rewrite splitLines_joinLF; [|rewrite Hls'; destruct pre; discriminate
                                |exact Hnb].
    rewrite Els in Hn. rewrite Hls'.
    destruct (Nat.lt_trichotomy n (List.length pre)) as [Hlt|[Heq|Hgt]].
    + rewrite nth_error_app1 in * by assumption. exact Hn.
    + subst n. rewrite nth_error_app2, Nat.sub_diag in Hn by lia.
      cbn [nth_error] in Hn. injection Hn as ->. congruence.
    + rewrite nth_error_app2 in * by lia.
      destruct (n - List.length pre) as [|j] eqn:Hj; [lia|]. exact Hn.
  - apply scanLines_unpatched in E. subst ls'.
    rewrite joinLF_splitLines, (crlfToLf_no_CR _ Hcr). exact Hn.
Qed.

Variable number : Type.
Variable Number_isFinite : number -> bool.
Variable Number_toString : number -> str.

Lemma fold_keeps_unmatched : forall l st w,
    forallb cleanInstr l = true ->
    noCR (wtext st) = true ->
    foldThrow (applyInstr RegExp_keyRe) l (Some st) = Some w ->
    forall n line,
      nth_error (splitLines (wtext st)) n = Some line ->
      (forall i, In i l -> exec (keyRe (ikey i)) line = None) ->
      nth_error (splitLines (wtext w)) n = Some line.
Proof.
  induction l as [|i l IH]; intros st w Hc Hcr H n line Hn Hl.
  - simpl in H. injection H as <-. exact Hn.
  - cbn [forallb] in Hc. apply andb_true_iff in Hc. destruct Hc as [Hi Hcl].
    rewrite foldThrow_cons in H.
    unfold applyInstr in H at 2.
    destruct (patchScalarInSection RegExp_keyRe (wtext st) (sectionPath i)
                (ikey i) (literal i)) as [r|] eqn:E.
    + pose proof (@patch_keeps_unmatched _ _ _ Hi Hcr E n line Hn
                    (Hl i (or_introl eq_refl))) as Hn'.
      assert (Hcr' : noCR (ptext r) = true).
      { unfold cleanInstr in Hi. apply andb_true_iff in Hi.
        destruct Hi as [Hi Hnv]. apply andb_true_iff in Hi.
        destruct Hi as [Hp Hnk].
        exact (proj2 (@patch_lines RegExp_keyRe RegExp_plain _ _ _ _ _
                        Hp Hnk Hnv Hcr E)). }
      refine (IH (mkWalkResult (ptext r) (patchedAny st || patched r)) w
                 Hcl Hcr' H n line Hn' _).
      intros j Hj. apply Hl. right. exact Hj.
    + rewrite foldThrow_None in H. discriminate.
Qed.

Variable toml_parse : str -> option (table number).
Variable toml_stringify : table number -> str.

(** What a preserved save leaves alone.  When the save reports
    [preserved], for a text without CR and instructions with keys
    without pattern syntax characters and no line break in key and
    literal: a line of the original text that the key pattern of no
    instruction of the differ matches is at the same place, unchanged,
    in the text written.  Such are the lines without an equals sign and
    the lines whose first character after blanks is an opening bracket,
    and, when no key of an instruction has a [#], the lines whose first
    character after blanks is [#]. *)
Theorem X23_preserved_save_keeps_unmatched_lines :
  forall text data oldObj out,
    noCR text = true ->
    toml_parse text = Some oldObj ->
    forallb cleanInstr
      (patchCalls Number_isFinite Number_toString oldObj data []) = true ->
    handleSave RegExp_keyRe Number_isFinite Number_toString
               toml_parse toml_stringify true (Some text) data = (out, true) ->
    (forall n line,
        nth_error (splitLines text) n = Some line ->
        (forall i,
            In i (patchCalls Number_isFinite Number_toString oldObj data []) ->
            exec (keyRe (ikey i)) line = None) ->
        nth_error (splitLines out) n = Some line) /\
    (forall n line,
        nth_error (splitLines text) n = Some line ->
        ~ In EQUALS line ->
        nth_error (splitLines out) n = Some line) /\
    (forall n ws rest,
        nth_error (splitLines text) n = Some (ws ++ LBRACKET :: rest) ->
        forallb isSpace ws = true ->
        nth_error (splitLines out) n = Some (ws ++ LBRACKET :: rest)) /\
    (forall n ws rest,
        nth_error (splitLines text) n = Some (ws ++ HASH :: rest) ->
        forallb isSpace ws = true ->
        (forall i,
            In i (patchCalls Number_isFinite Number_toString oldObj data []) ->
            ~ In HASH (ikey i)) ->
        nth_error (splitLines out) n = Some (ws ++ HASH :: rest)).
Proof.
  intros text data oldObj out Hcr Hp Hc H.
  assert (F : forall n line,
             nth_error (splitLines text) n = Some line ->
             (forall i,
                 In i (patchCalls Number_isFinite Number_toString
                                  oldObj data []) ->
                 exec (keyRe (ikey i)) line = None) ->
             nth_error (splitLines out) n = Some line).
  { unfold handleSave in H.
    destruct text as [|c t]; [inversion H|].
    rewrite Hp in H.
    rewrite walkPatch_calls in H.
    destruct (foldThrow (applyInstr RegExp_keyRe)
                (patchCalls Number_isFinite Number_toString oldObj data [])
                (Some (mkWalkResult (c :: t) false))) as [w|] eqn:E;
      [|inversion H].
    destruct (patchedAny w); [|inversion H].
    injection H as <-.
    intros n line Hn Hl.
    exact (@fold_keeps_unmatched _ (mkWalkResult (c :: t) false) w
             Hc Hcr E n line Hn Hl). }
  split; [exact F|]. split; [|split].
  - intros n line Hn He. apply (F n line Hn). intros i _.
    destruct (exec (keyRe (ikey i)) line) as [km|] eqn:E; [|reflexivity].
    exfalso. apply He. exact (@keyRe_has_equals _ _ _ E).
  - intros n ws rest Hn Hws. apply (F n _ Hn). intros i Hi.
    destruct (exec (keyRe (ikey i)) (ws ++ LBRACKET :: rest)) as [km|] eqn:E;
      [|reflexivity].
    exfalso.
    destruct (@keyRe_first_char _ ws LBRACKET rest km Hws eq_refl E)
      as [E0|Hin]; [discriminate E0|].
    rewrite forallb_forall in Hc. specialize (Hc i Hi).
    unfold cleanInstr in Hc. apply andb_true_iff in Hc. destruct Hc as [Hc _].
    apply andb_true_iff in Hc. destruct Hc as [Hpl _].
    unfold plainKey in Hpl. rewrite forallb_forall in Hpl.
    specialize (Hpl LBRACKET Hin). discriminate Hpl.
  - intros n ws rest Hn Hws Hk. apply (F n _ Hn). intros i Hi.
    destruct (exec (keyRe (ikey i)) (ws ++ HASH :: rest)) as [km|] eqn:E;
      [|reflexivity].
    exfalso.
    destruct (@keyRe_first_char _ ws HASH rest km Hws eq_refl E)
      as [E0|Hin]; [discriminate E0|].
    exact (Hk i Hi Hin).
Qed.

End FrameProperties.

Lemma X22_witness :
  exists pre post indent ws val comment,
    splitLines Demo.doc_comment
    = pre ++ (indent ++ u "port" ++ ws ++ EQUALS :: val ++ comment) :: post /\
    u "port = 9090# listen port"
    = joinLF (pre ++ (indent ++ u "port" ++ u " = " ++ u "9090" ++ comment)
                  :: post) /\
    forallb isSpace indent = true /\ forallb isSpace ws = true /\
    forallb (notChar HASH) val = true /\
    (comment = [] \/ exists t, comment = HASH :: t).
Proof.
  apply (@X22_patch_rewrites_one_line Demo.RegExp_keyRe Demo_RegExp_plain
           Demo.doc_comment [] (u "port") (u "9090")
           (mkPatchResult (u "port = 9090# listen port") true)).
  - reflexivity.
  - discriminate.
  - reflexivity.
  - vm_compute. reflexivity.
  - reflexivity.
Defined.

Lemma X23_witness :
  nth_error (splitLines (joinLF [u "port = 9090"; u "tags = [1, 2]"])) 1
  = Some (u "tags = [1, 2]").
Proof.
  apply (proj1 (@X23_preserved_save_keeps_unmatched_lines
           Demo.RegExp_keyRe Demo_RegExp_plain
           Demo.number Demo.Number_isFinite Demo.Number_toString
           Demo.toml_parse Demo.toml_stringify
           Demo.doc_tags Demo.edit_tags Demo.tree_tags
           (joinLF [u "port = 9090"; u "tags = [1, 2]"])
           eq_refl eq_refl eq_refl eq_refl) 1 (u "tags = [1, 2]")).
  - reflexivity.
  - intros i Hi. vm_compute in Hi. destruct Hi as [<-|[]].
    vm_compute. reflexivity.
Defined.

(** ** The save of an unchanged tree *)

(** The line written for a canonical line is that line. *)
Lemma rewritten_canonical : forall key lit line km,
    key <> [] -> stops isSpace key ->
    forallb (notChar HASH) lit = true ->
    exec (keyRe key) line = Some km ->
    canonicalLine key lit line ->
    rewritten key lit km = line.
Proof.
  intros key lit line km Hk Hks Hl H (indent & comment & EL & Hi & Hc).
  destruct (@keyRe_exec_shape key line km Hk Hks H)
    as (indent' & ws1 & val & comment' & EL' & Hi' & Hw & Hv & Hc' & E1 & E4).
  unfold rewritten. rewrite E1, E4.
  destruct key as [|k0 key]; [congruence|]. cbn [stops] in Hks.
  rewrite EL in EL'.
  change ((k0 :: key) ++ ?r) with (k0 :: key ++ r) in EL'.
  apply blanks_unique in EL'; try assumption.
  destruct EL' as (<- & _ & EL').
  apply app_inv_head in EL'.
  change (u " = " ++ lit ++ comment)
    with ([32%N] ++ EQUALS :: (32%N :: lit) ++ comment) in EL'.
  apply blanks_unique in EL'; [|reflexivity|assumption|reflexivity..].
  destruct EL' as (_ & _ & EL').
  assert (Hl' : forallb (notChar HASH) (32%N :: lit) = true)
    by (cbn [forallb]; rewrite Hl; reflexivity).
  assert (Ec : comment' = comment).
  { destruct Hc as [->|(t & ->)]; destruct Hc' as [->|(t' & -> & _)].
    - reflexivity.
    - exfalso. rewrite app_nil_r in EL'. rewrite EL' in Hl'.
      rewrite forallb_app in Hl'. apply andb_true_iff in Hl'.
      destruct Hl' as [_ Hl']. discriminate Hl'.
    - exfalso. rewrite app_nil_r in EL'. rewrite <- EL' in Hv.
      rewrite forallb_app in Hv. apply andb_true_iff in Hv.
      destruct Hv as [_ Hv]. discriminate Hv.
    - apply first_unique in EL'; try assumption.
      destruct EL' as [_ ->]. reflexivity. }
  rewrite Ec, EL. reflexivity.
Qed.

Section UnchangedTree.

Variable RegExp_keyRe : str -> option (str -> option caps).

Hypothesis RegExp_plain : forall fragment,
    plainKey fragment = true ->
    RegExp_keyRe fragment = Some (exec (keyRe fragment)).

(** The loop returns when [new RegExp] does. *)
Lemma scanLines_returns : forall T key v keyRe_match ls b,
    RegExp_keyRe (escapeKey key) = Some keyRe_match ->
    exists res, scanLines RegExp_keyRe T key v b ls = Some res.
Proof.
  intros T key v keyRe_match ls.
  induction ls as [|line rest IH]; intros b Hre.
  - eexists. reflexivity.
  - rewrite scanLines_cons. unfold goOn.
    destruct (exec sectionHeaderRe line) as [m|].
    + destruct (IH (str_eqb (trim (cap 1 m)) T) Hre) as ([rest' p] & ->).
      eexists. reflexivity.
    + destruct b.
      * rewrite Hre. destruct (keyRe_match line); [eexists; reflexivity|].
        destruct (IH true Hre) as ([rest' p] & ->). eexists. reflexivity.
      * destruct (IH false Hre) as ([rest' p] & ->). eexists. reflexivity.
Qed.

Lemma stableInstr_parts : forall i,
    stableInstr i = true ->
    plainKey (ikey i) = true /\ noBreak (ikey i) = true /\
    noBreak (literal i) = true /\ ikey i <> [] /\ stops isSpace (ikey i) /\
    forallb (notChar HASH) (literal i) = true.
Proof.
  intros i H. unfold stableInstr, cleanInstr in H.
  repeat (apply andb_true_iff in H; destruct H as [H ?]).
  repeat split; try assumption.
  - intros E. rewrite E in *. discriminate.
  - destruct (ikey i) as [|c k]; [exact I|].
    cbn [stops]. apply negb_true_iff. assumption.
Qed.

(** A call of the patcher on a text whose lines for the instruction are
    canonical returns, and returns the text. *)
Lemma patch_canonical : forall text i,
    stableInstr i = true -> noCR text = true ->
    (forall pre line post km,
        splitLines text = pre ++ line :: post ->
        stateAfter (joinDot (sectionPath i))
                   (Nat.eqb (List.length (sectionPath i)) 0) pre = true ->
        exec (keyRe (ikey i)) line = Some km ->
        canonicalLine (ikey i) (literal i) line) ->
    exists r,
      patchScalarInSection RegExp_keyRe text (sectionPath i) (ikey i)
                           (literal i) = Some r /\
      ptext r = text.
Proof.
  intros text i Hs Hcr Hcan.
  destruct (stableInstr_parts _ Hs) as (Hp & Hnk & Hnl & Hk & Hks & Hl).
  pose proof (RegExp_plain _ Hp) as Hre.
  rewrite <- (escapeKey_plain _ Hp) in Hre at 1.
  unfold patchScalarInSection.
  destruct (@scanLines_returns (joinDot (sectionPath i)) (ikey i) (literal i)
              _ (splitLines text)
              (Nat.eqb (List.length (sectionPath i)) 0) Hre)
    as ([ls' p] & E).
  rewrite E. eexists. split; [reflexivity|]. cbn [ptext].
  destruct p.
  - apply scanLines_patched in E.
    destruct E as (pre & line & post & kmatch & km & Els & Ere & _ & Hst & _
                   & Ekm & Hls').
    rewrite Hre in Ere. injection Ere as <-.
    rewrite (@rewritten_canonical _ _ line km Hk Hks Hl Ekm
               (Hcan pre line post km Els Hst Ekm)) in Hls'.
    rewrite Hls', <- Els, joinLF_splitLines. apply crlfToLf_no_CR. exact Hcr.
  - apply scanLines_unpatched in E. subst ls'.
    rewrite joinLF_splitLines. apply crlfToLf_no_CR. exact Hcr.
Qed.

Lemma fold_fixed : forall text l b,
    (forall i, In i l ->
               exists r,
                 patchScalarInSection RegExp_keyRe text (sectionPath i)
                                      (ikey i) (literal i) = Some r /\
                 ptext r = text) ->
    foldThrow (applyInstr RegExp_keyRe) l (Some (mkWalkResult text b))
    = Some (mkWalkResult text
              (b || existsb (findsLine RegExp_keyRe text) l)).
Proof.
  intros text. induction l as [|i l IH]; intros b H.
  - cbn [foldThrow existsb]. rewrite orb_false_r. reflexivity.
  - rewrite foldThrow_cons. unfold applyInstr at 2. cbn [wtext patchedAny].
    destruct (H i (or_introl eq_refl)) as (r & Er & Et).
    cbn [existsb]. unfold findsLine at 1. rewrite Er, Et.
    rewrite IH; [|intros j Hj; apply H; right; exact Hj].
    rewrite orb_assoc. reflexivity.
Qed.

Variable number : Type.
Variable Number_isFinite : number -> bool.
Variable Number_toString : number -> str.
Variable toml_parse : str -> option (table number).
Variable toml_stringify : table number -> str.

(** C2, for the texts that come back.  A save in preserve mode with the
    new tree equal to the old one, parsed from a text without CR.  When
    every line of the text that assigns a scalar key of the tree in the
    section of that key is canonical for the literal of its value, the
    text written is the text itself, with preserved true, if the patcher
    finds a line for one instruction at least; if it finds none, as when
    the tree has no scalar key, the save falls back to the
    re-stringified tree with preserved false. *)
Theorem C2_canonical_text_comes_back : forall text tree,
    text <> [] ->
    noCR text = true ->
    toml_parse text = Some tree ->
    forallb stableInstr
      (patchCalls Number_isFinite Number_toString tree tree []) = true ->
    (forall i pre line post km,
        In i (patchCalls Number_isFinite Number_toString tree tree []) ->
        splitLines text = pre ++ line :: post ->
        stateAfter (joinDot (sectionPath i))
                   (Nat.eqb (List.length (sectionPath i)) 0) pre = true ->
        exec (keyRe (ikey i)) line = Some km ->
        canonicalLine (ikey i) (literal i) line) ->
    handleSave RegExp_keyRe Number_isFinite Number_toString
               toml_parse toml_stringify true (Some text) tree
    = if existsb (findsLine RegExp_keyRe text)
                 (patchCalls Number_isFinite Number_toString tree tree [])
      then (text, true)
      else (toToml toml_stringify (JObj tree), false).
Proof.
  intros text tree Hne Hcr Hp Hs Hcan.
  unfold handleSave. destruct text as [|c t]; [congruence|].
  rewrite Hp, walkPatch_calls.
  rewrite fold_fixed.
  - cbn [patchedAny wtext orb]. reflexivity.
  - intros i Hi. apply patch_canonical.
    + rewrite forallb_forall in Hs. exact (Hs i Hi).
    + exact Hcr.
    + intros pre line post km. apply Hcan. exact Hi.
Qed.

End UnchangedTree.

Lemma C2_witness :
  Demo.handleSave true (Some Demo.doc_tags) Demo.tree_tags
  = (Demo.doc_tags, true).
Proof.
  apply (@C2_canonical_text_comes_back Demo.RegExp_keyRe Demo_RegExp_plain
           Demo.number Demo.Number_isFinite Demo.Number_toString
           Demo.toml_parse Demo.toml_stringify
           Demo.doc_tags Demo.tree_tags).
  - discriminate.
  - reflexivity.
  - reflexivity.
  - reflexivity.
  - intros i pre line post km Hi Els Hst Ekm.
    vm_compute in Hi. destruct Hi as [<-|[]].
    change (splitLines Demo.doc_tags)
      with [u "port = 8080"; u "tags = [1, 2]"] in Els.
    destruct pre as [|l1 [|l2 [|l3 pre]]]; cbn [app] in Els.
    + injection Els as <- _. exists [], []. split; [reflexivity|].
      split; [reflexivity|left; reflexivity].
    + injection Els as _ <- _. vm_compute in Ekm. discriminate Ekm.
    + discriminate Els.
    + discriminate Els.
Defined.

(** ** The patterns of the normalizer take the literals of TOML *)





















(** ** The normalizer and the values it leaves alone *)











